(** * Minecraft-Screensaver: the frame loop of [Minecrft_Screensaver.py]

    A shallow embedding of the screensaver's [main] function: the exit state
    machine, the particle system, the cloud system, the alpha computation of
    the renderer and the [try]/[finally] that restores the cursor.

    Numbers.  Python [int] is [Z].  A Python [float] is a binary64 number,
    hence a rational, and is embedded in [Q].  The float arithmetic of the
    source is embedded twice.  The definitions of the first part perform
    the operations of the source exactly, without the rounding step; they
    carry the exit state machine, the cursor logic, the pixel surfaces and
    the properties of order and range that rounding to nearest preserves.
    The module [B64] performs every float operation as CPython does, the
    exact result rounded to the nearest double ([round64]); the properties
    that depend on the very values the program holds (which particle is in
    the list, which branch a comparison takes, which integer [int()]
    returns) are stated on it.  The bob offset needs the sine function and
    is embedded over the reals ([R]).

    Effects.  The [random] module and the pygame host (cursor flags, display
    information, presented frame) are global mutable state in the source;
    here they form the record [Host], threaded by a state monad with
    exceptions.  The pseudo-random generator is an oracle: three streams of
    raw draws read at a shared cursor, so every theorem quantifies over all
    sequences the real generator could produce. *)

From Stdlib Require Import ZArith QArith Qround Qabs Qpower Qreduction.
From Stdlib Require Import Qreals Reals List Bool Lia Psatz.
From Stdlib Require Import Permutation.
Import ListNotations.

Local Open Scope Q_scope.

(** ** Configuration constants (source lines 21-37) *)

Definition Color : Type := (Z * Z * Z)%type.

Definition FPS : Z := 60.
Definition BLOCK_FALL_RATE : Q * Q := (150, 400).
Definition BLOCK_SPAWN_RATE : Q := 8 # 100.
Definition BLOCK_SIZE_PIXELS : Z := 10.
Definition CLOUD_SPEED : Q := 10.
Definition CLOUD_COUNT : nat := 5.
Definition BG_COLOR : Color := (10, 20, 35)%Z.
Definition BOB_AMPLITUDE : Q := 8.
Definition BOB_SPEED : Q := 8 # 10.

Definition GRASS_TOP : Color := (106, 190, 48)%Z.
Definition DIRT : Color := (121, 85, 58)%Z.
Definition GRASS_EDGE : Color := (86, 160, 36)%Z.
Definition STONE : Color := (100, 100, 100)%Z.
Definition WOOD : Color := (93, 57, 24)%Z.

(** ** Python arithmetic on the embedded numbers *)

(** [a < b] and [a > b] on floats, as booleans. *)
Definition Qlt_bool (a b : Q) : bool := negb (Qle_bool b a).

(** [max(a, b)] keeps its first argument unless the second is greater. *)
Definition py_max (a b : Q) : Q := if Qlt_bool a b then b else a.

(** [int(x)] on a float truncates toward zero. *)
Definition py_int (x : Q) : Z := Z.quot (Qnum x) (Zpos (Qden x)).

(** [round(x)]: nearest integer, ties to the even one. *)
Definition py_round (x : Q) : Z :=
  let f := Qfloor x in
  let r := x - inject_Z f in
  if Qlt_bool r (1 # 2) then f
  else if Qlt_bool (1 # 2) r then (f + 1)%Z
  else if Z.even f then f else (f + 1)%Z.

(** ** Data model *)

(** The dataclass [FallingBlock] (lines 41-49). *)
Record FallingBlock := mkFallingBlock {
  x : Q;
  y : Q;
  size : Z;
  vy : Q;
  color : Color;
  life : Q;
  max_life : Q
}.

(** A pygame surface, as far as the program looks at it: its dimensions, and
    for a cloud sprite the ellipses drawn on it (centre draws and radius). *)
Record Surface := mkSurface {
  get_width : Z;
  get_height : Z;
  ellipses : list (Z * Z * Z)
}.

(** A cloud is the four-element list [[x, y, surf, speed]] (line 131). *)
Record Cloud := mkCloud {
  cloud_x : Q;
  cloud_y : Q;
  cloud_surf : Surface;
  cloud_speed : Q
}.

(** The pygame events the loop distinguishes (lines 143-150); every other
    event type falls through the [if]/[elif] chain. *)
Inductive Event :=
| QUIT
| KEYDOWN
| MOUSEBUTTONDOWN
| MOUSEMOTION (pos : Z * Z)
| OTHER_EVENT.

(** The exceptions that can travel through [main]. *)
Inductive Exn :=
| ValueError
| IndexError
| ZeroDivisionError
| PygameError
| KeyboardInterrupt
| SystemExit.

(** What one frame receives from outside: the milliseconds returned by
    [clock.tick(FPS)] (an unsigned tick difference), the events returned by
    [pygame.event.get()], and the exception, if any, that a platform call
    raises while the frame is presented. *)
Record FrameInput := mkFrameInput {
  tick_ms : N;
  events : list Event;
  fault : option Exn
}.

(** A particle rectangle blitted by the renderer (lines 187-189). *)
Record Sprite := mkSprite {
  sprite_x : Q;
  sprite_y : Q;
  sprite_size : Z;
  sprite_color : Color;
  sprite_alpha : Z
}.

(** The locals of [main] that the loop mutates. *)
Record World := mkWorld {
  falling : list FallingBlock;
  spawn_accum : Q;
  spawn_interval : Q;
  clouds : list Cloud;
  running : bool
}.

(** The locals of [main] that are fixed once the loop starts. *)
Record Setup := mkSetup {
  screen_w : Z;
  screen_h : Z;
  pixel_size : Z;
  start_mouse_pos : Z * Z
}.

(** ** The host: pygame and the [random] module *)

Record Host := mkHost {
  display_size : Z * Z;        (* pygame.display.Info(): current_w, current_h *)
  mouse_pos : Z * Z;           (* pygame.mouse.get_pos() *)
  grab_supported : bool;       (* does pygame.event.set_grab succeed here *)
  cursor_visible : bool;
  input_grab : bool;
  display_open : bool;         (* false once pygame.quit() has run *)
  presented : list Sprite;     (* particle rectangles of the last flipped frame *)
  bits_at : nat -> N;          (* raw 53-bit draws behind random.random() *)
  below_at : nat -> N;         (* raw draws behind randrange / choice *)
  normal_at : nat -> Q;        (* standard normal deviates behind random.gauss *)
  drawn : nat                  (* how many draws have been consumed *)
}.

Definition set_cursor_visible (b : bool) (h : Host) : Host :=
  mkHost (display_size h) (mouse_pos h) (grab_supported h) b (input_grab h)
         (display_open h) (presented h) (bits_at h) (below_at h) (normal_at h) (drawn h).

Definition set_input_grab (b : bool) (h : Host) : Host :=
  mkHost (display_size h) (mouse_pos h) (grab_supported h) (cursor_visible h) b
         (display_open h) (presented h) (bits_at h) (below_at h) (normal_at h) (drawn h).

Definition set_display_open (b : bool) (h : Host) : Host :=
  mkHost (display_size h) (mouse_pos h) (grab_supported h) (cursor_visible h) (input_grab h)
         b (presented h) (bits_at h) (below_at h) (normal_at h) (drawn h).

Definition set_presented (l : list Sprite) (h : Host) : Host :=
  mkHost (display_size h) (mouse_pos h) (grab_supported h) (cursor_visible h) (input_grab h)
         (display_open h) l (bits_at h) (below_at h) (normal_at h) (drawn h).

Definition consume_draw (h : Host) : Host :=
  mkHost (display_size h) (mouse_pos h) (grab_supported h) (cursor_visible h) (input_grab h)
         (display_open h) (presented h) (bits_at h) (below_at h) (normal_at h) (S (drawn h)).

(** ** State and exception monad *)

(** [Pending] is not a Python outcome: it marks a run whose list of frame
    inputs ended while the loop was still running. *)
Inductive Result (A : Type) :=
| Ok (a : A)
| Raise (e : Exn)
| Pending.

Arguments Ok {A} a.
Arguments Raise {A} e.
Arguments Pending {A}.

Definition M (A : Type) : Type := Host -> Result A * Host.

Definition ret {A} (a : A) : M A := fun h => (Ok a, h).

Definition bind {A B} (m : M A) (k : A -> M B) : M B :=
  fun h =>
    match m h with
    | (Ok a, h') => k a h'
    | (Raise e, h') => (Raise e, h')
    | (Pending, h') => (Pending, h')
    end.

Notation "x <- m ;; k" := (bind m (fun x => k))
  (at level 61, m at next level, right associativity).
Notation "m ;;; k" := (bind m (fun _ => k))
  (at level 61, right associativity).

Definition raise {A} (e : Exn) : M A := fun h => (Raise e, h).

(** [except Exception] catches every exception class below [Exception];
    [KeyboardInterrupt] and [SystemExit] derive from [BaseException] only. *)
Definition is_Exception (e : Exn) : bool :=
  match e with
  | KeyboardInterrupt | SystemExit => false
  | _ => true
  end.

Definition try_except {A} (body : M A) (handler : M A) : M A :=
  fun h =>
    match body h with
    | (Raise e, h') => if is_Exception e then handler h' else (Raise e, h')
    | r => r
    end.

(** [try: body finally: cleanup].  The cleanup runs when the body returns
    or raises; an exception of the cleanup replaces the body's outcome. *)
Definition try_finally {A} (body : M A) (cleanup : M unit) : M A :=
  fun h =>
    match body h with
    | (Pending, h') => (Pending, h')
    | (r, h') =>
        match cleanup h' with
        | (Ok _, h'') => (r, h'')
        | (Raise e, h'') => (Raise e, h'')
        | (Pending, h'') => (Pending, h'')
        end
    end.

Fixpoint for_each {A B} (f : A -> M B) (l : list A) : M (list B) :=
  match l with
  | [] => ret []
  | a :: l' => b <- f a ;; bs <- for_each f l' ;; ret (b :: bs)
  end.

Fixpoint repeat_m {A} (n : nat) (body : M A) : M (list A) :=
  match n with
  | O => ret []
  | S n' => a <- body ;; r <- repeat_m n' body ;; ret (a :: r)
  end.

(** ** Host operations *)

(** [random.random()]: a 53-bit integer scaled by 2^-53, hence in [0, 1). *)
Definition random : M Q :=
  fun h =>
    (Ok (Z.of_N (bits_at h (drawn h) mod 2 ^ 53) # (2 ^ 53)), consume_draw h).

(** [random.uniform(a, b)] is [a + (b - a) * random()]. *)
Definition uniform (a b : Q) : M Q :=
  u <- random ;; ret (a + (b - a) * u).

(** [random.gauss(mu, sigma)] is [mu + z * sigma] for a standard normal
    deviate [z]. *)
Definition gauss (mu sigma : Q) : M Q :=
  fun h => (Ok (mu + normal_at h (drawn h) * sigma), consume_draw h).

(** The generator's [_randbelow(n)], for [n > 0]. *)
Definition randbelow (n : Z) : M Z :=
  fun h => (Ok (Z.of_N (below_at h (drawn h)) mod n)%Z, consume_draw h).

(** [random.randint(a, b)]: [ValueError] on an empty range. *)
Definition randint (a b : Z) : M Z :=
  if (b <? a)%Z then raise ValueError
  else k <- randbelow (b - a + 1) ;; ret (a + k)%Z.

(** [random.choice(seq)]: [IndexError] on an empty sequence. *)
Definition choice {A} (seq : list A) : M A :=
  match seq with
  | [] => raise IndexError
  | _ =>
      i <- randbelow (Z.of_nat (length seq)) ;;
      match nth_error seq (Z.to_nat i) with
      | Some a => ret a
      | None => raise IndexError
      end
  end.

Definition display_info : M (Z * Z) := fun h => (Ok (display_size h), h).

Definition mouse_get_pos : M (Z * Z) := fun h => (Ok (mouse_pos h), h).

(** [pygame.display.set_mode((w, h), FULLSCREEN | DOUBLEBUF)] (line 92):
    a negative width or height is a pygame error. *)
Definition set_mode (sz : Z * Z) : M unit :=
  fun h =>
    if ((fst sz <? 0) || (snd sz <? 0))%Z then (Raise PygameError, h)
    else (Ok tt, set_display_open true h).

(** [pygame.mouse.set_visible(b)]. *)
Definition set_visible (b : bool) : M unit :=
  fun h => (Ok tt, set_cursor_visible b h).

(** [pygame.event.set_grab(b)]; raises where the platform has no grab. *)
Definition set_grab (b : bool) : M unit :=
  fun h =>
    if grab_supported h then (Ok tt, set_input_grab b h)
    else (Raise PygameError, h).

(** [pygame.Surface((w, h), SRCALPHA)]; a negative dimension is an error. *)
Definition new_surface (w h : Z) : M Surface :=
  if ((w <? 0) || (h <? 0))%Z then raise PygameError
  else ret (mkSurface w h []).

Definition pygame_quit : M unit :=
  fun h => (Ok tt, set_display_open false h).

Definition sys_exit {A} : M A := raise SystemExit.

(** Float division: [ZeroDivisionError] on a zero divisor. *)
Definition py_div (a b : Q) : M Q :=
  if Qeq_bool b 0 then raise ZeroDivisionError else ret (a / b).

(** ** Startup (lines 60-84 and 105-134) *)

Definition generate_grass_block_map : list (list (option Color)) :=
  let N := @None Color in
  let E := Some GRASS_EDGE in
  let T := Some GRASS_TOP in
  let D := Some DIRT in
  let S := Some STONE in
  let W := Some WOOD in
  [ [N; N; E; T; T; T; T; T; E; N; N];
    [N; E; T; T; T; T; T; T; T; E; N];
    [E; T; T; T; T; T; T; T; T; T; E];
    [E; T; T; T; T; T; T; T; T; E; E];
    [D; D; D; D; D; D; D; D; D; D; D];
    [D; D; D; D; D; D; D; D; D; D; D];
    [S; S; S; S; S; S; S; S; S; S; S];
    [S; S; S; S; S; S; S; S; S; S; S];
    [N; W; W; W; W; W; W; W; W; W; N];
    [N; N; W; W; W; W; W; W; W; N; N];
    [N; N; N; W; W; W; W; N; N; N; N] ].

Definition make_cloud_surface (width_px height_px : Z) : M Surface :=
  surf <- new_surface width_px height_px ;;
  blobs <- repeat_m 8
             (rx <- randint 0 width_px ;;
              ry <- randint 0 (height_px / 2) ;;
              r <- randint (height_px / 6) (height_px / 3) ;;
              ret (rx, ry, r)) ;;
  ret (mkSurface (get_width surf) (get_height surf) blobs).

(** One iteration of the loop of lines 124-131. *)
Definition new_cloud (sw sh : Z) : M Cloud :=
  w <- randint (sw / 6) (sw / 3) ;;
  let h := Z.max 40 (w / 6) in
  surf <- make_cloud_surface w h ;;
  cx <- uniform (- inject_Z w) (inject_Z sw) ;;
  cy <- uniform 20 (inject_Z sh * (35 # 100)) ;;
  speed <- uniform (CLOUD_SPEED * (5 # 10)) (CLOUD_SPEED * (15 # 10)) ;;
  ret (mkCloud cx cy surf speed).

Definition compute_pixel_size (sw : Z) : Z :=
  let base_map := generate_grass_block_map in
  let map_w := Z.of_nat (length (hd [] base_map)) in
  let target_block_width := Z.min (sw / 5) 450 in
  Z.max 2 (target_block_width / map_w).

(** ** Exit state machine (lines 142-150) *)

Definition pos_eqb (p q : Z * Z) : bool :=
  (fst p =? fst q)%Z && (snd p =? snd q)%Z.

Definition handle_event (start : Z * Z) (run : bool) (ev : Event) : bool :=
  match ev with
  | QUIT => false
  | KEYDOWN | MOUSEBUTTONDOWN => false
  | MOUSEMOTION p => if negb (pos_eqb p start) then false else run
  | OTHER_EVENT => run
  end.

Definition process_events (start : Z * Z) (run : bool) (evs : list Event) : bool :=
  fold_left (handle_event start) evs run.

(** ** Particle system (lines 152-167) *)

(** From here to the renderer the float operations are taken exactly; the
    module [B64] below has the same functions with every operation
    rounded. *)

Definition spawn (su : Setup) (w : World) : M World :=
  if Qle_bool (spawn_interval w) (spawn_accum w) then
    let accum := spawn_accum w - spawn_interval w in
    g <- gauss BLOCK_SPAWN_RATE (BLOCK_SPAWN_RATE * (4 # 10)) ;;
    let interval := py_max (2 # 100) g in
    sz <- choice [1; 1; 1; 2]%Z ;;
    let px_size := (pixel_size su * sz)%Z in
    bx <- uniform 0 (inject_Z (screen_w su - px_size)) ;;
    off <- uniform 0 (inject_Z (screen_h su) * (1 # 10)) ;;
    let by_ := - inject_Z px_size - off in
    speed <- uniform (fst BLOCK_FALL_RATE) (snd BLOCK_FALL_RATE) ;;
    col <- choice [GRASS_TOP; GRASS_EDGE; DIRT; STONE; WOOD] ;;
    r <- random ;;
    let lf := (25 # 10) + r * 2 in
    ret (mkWorld (falling w ++ [mkFallingBlock bx by_ px_size speed col lf lf])
                 accum interval (clouds w) (running w))
  else ret w.

(** The body of the loop of lines 164-166, for one particle. *)
Definition fall (dt : Q) (b : FallingBlock) : FallingBlock :=
  mkFallingBlock (x b) (y b + vy b * dt) (size b) (vy b) (color b)
                 (life b - dt) (max_life b).

(** The test of the comprehension of line 167. *)
Definition keep (sh : Z) (b : FallingBlock) : bool :=
  Qlt_bool 0 (life b) && Qlt_bool (y b) (inject_Z (sh + 200)).

Definition update_falling (dt : Q) (sh : Z) (l : list FallingBlock) : list FallingBlock :=
  filter (keep sh) (map (fall dt) l).

(** ** Cloud system (lines 169-174) *)

Definition update_cloud (su : Setup) (dt : Q) (c : Cloud) : M Cloud :=
  let nx := cloud_x c + cloud_speed c * dt in
  let w := get_width (cloud_surf c) in
  if Qlt_bool (inject_Z (screen_w su + w)) nx then
    off <- uniform 0 (inject_Z (screen_w su) * (2 # 10)) ;;
    ny <- uniform 20 (inject_Z (screen_h su) * (35 # 100)) ;;
    sp <- uniform (CLOUD_SPEED * (5 # 10)) (CLOUD_SPEED * (15 # 10)) ;;
    ret (mkCloud (- inject_Z w - off) ny (cloud_surf c) sp)
  else ret (mkCloud nx (cloud_y c) (cloud_surf c) (cloud_speed c)).

(** ** Renderer: the particle pass (lines 185-189) and the flip *)

Definition particle_alpha (b : FallingBlock) : M Z :=
  f <- py_div (life b) (max_life b) ;;
  ret (Z.max 0 (Z.min 255 (py_int (255 * f)))).

Definition draw_particle (b : FallingBlock) : M Sprite :=
  alpha <- particle_alpha b ;;
  ret (mkSprite (x b) (y b) (size b) (color b) alpha).

Definition display_flip (inp : FrameInput) (sprites : list Sprite) : M unit :=
  match fault inp with
  | Some e => raise e
  | None => fun h => (Ok tt, set_presented sprites h)
  end.

(** ** One iteration of the [while] loop (lines 139-208) *)

Definition frame_dt (inp : FrameInput) : Q :=
  inject_Z (Z.of_N (tick_ms inp)) / 1000.

(** Lines 139-174: clock, events, particle and cloud update. *)
Definition advance (su : Setup) (inp : FrameInput) (w : World) : M World :=
  let dt := frame_dt inp in
  let accum := spawn_accum w + dt in
  let run := process_events (start_mouse_pos su) (running w) (events inp) in
  w1 <- spawn su (mkWorld (falling w) accum (spawn_interval w) (clouds w) run) ;;
  let fl := update_falling dt (screen_h su) (falling w1) in
  cl <- for_each (update_cloud su dt) (clouds w1) ;;
  ret (mkWorld fl (spawn_accum w1) (spawn_interval w1) cl (running w1)).

(** Lines 176-208, as far as the particles are concerned. *)
Definition render (inp : FrameInput) (w : World) : M unit :=
  sprites <- for_each draw_particle (falling w) ;;
  display_flip inp sprites.

Definition frame (su : Setup) (inp : FrameInput) (w : World) : M World :=
  w' <- advance su inp w ;;
  render inp w' ;;;
  ret w'.

(** [while running: ...] over the frames the environment supplies. *)
Fixpoint main_loop (su : Setup) (frames : list FrameInput) (w : World) : M World :=
  match frames with
  | [] => if running w then (fun h => (Pending, h)) else ret w
  | inp :: rest =>
      if running w then w' <- frame su inp w ;; main_loop su rest w'
      else ret w
  end.

(** The [finally] block (lines 210-218). *)
Definition restore_cursor : M unit :=
  try_except (set_visible true ;;; set_grab false) (ret tt).

Definition cleanup : M unit :=
  restore_cursor ;;; pygame_quit ;;; sys_exit.

Definition initial_world (cl : list Cloud) : World :=
  mkWorld [] 0 BLOCK_SPAWN_RATE cl true.

(** Lines 98-103: hide the cursor and, where the platform allows, grab
    the input. *)
Definition hide_cursor : M unit :=
  set_visible false ;;;
  try_except (set_grab true) (ret tt).

(** Lines 105-134: the block sprite, its shadow, the clouds and the mouse
    position. *)
Definition build_scene (sz : Z * Z) : M (Setup * World) :=
  let sw := fst sz in
  let sh := snd sz in
  let map_w := Z.of_nat (length (hd [] generate_grass_block_map)) in
  let map_h := Z.of_nat (length generate_grass_block_map) in
  let px := compute_pixel_size sw in
  new_surface (map_w * px) (map_h * px) ;;;
  new_surface (map_w * px) (map_h * px) ;;;
  cl <- repeat_m CLOUD_COUNT (new_cloud sw sh) ;;
  start <- mouse_get_pos ;;
  ret (mkSetup sw sh px start, initial_world cl).

(** Lines 88-134: everything [main] does before the [try]. *)
Definition startup : M (Setup * World) :=
  sz <- display_info ;;
  set_mode sz ;;;
  hide_cursor ;;;
  build_scene sz.

(** The guarded part of [main]: the loop inside [try] / [finally]. *)
Definition guarded_loop (su : Setup) (frames : list FrameInput) (w : World) : M World :=
  try_finally (main_loop su frames w) cleanup.

Definition main (frames : list FrameInput) : M World :=
  sw <- startup ;;
  guarded_loop (fst sw) frames (snd sw).

(** ** Bob offset (lines 177-178), over the reals *)

(** Line 177: seconds since the loop started, from two tick readings. *)
Definition elapsed_seconds (ticks start_ticks : Z) : Q :=
  inject_Z (ticks - start_ticks) / 1000.

Definition bob (t : R) : R :=
  (sin (2 * PI * Q2R BOB_SPEED * t) * Q2R BOB_AMPLITUDE)%R.

(** ** Predicates used by the specifications *)

(** Hoare triples on one start host.  [triple true m post h]: [m] returns
    normally from [h] and the value and host it returns satisfy [post]
    (total correctness).  [triple false m post h]: the same, provided [m]
    returns normally (partial correctness). *)
Definition triple (total : bool) {A} (m : M A) (post : A -> Host -> Prop)
    (h : Host) : Prop :=
  match m h with
  | (Ok a, h') => post a h'
  | _ => total = false
  end.

(** The cursor-related fields of two hosts agree: the two flags, whether
    the platform can grab, and the pointer position. *)
Definition same_cursor (h h' : Host) : Prop :=
  grab_supported h' = grab_supported h /\
  cursor_visible h' = cursor_visible h /\
  input_grab h' = input_grab h /\
  mouse_pos h' = mouse_pos h.

(** A computation that leaves the cursor flags alone, however it ends, and
    that does end (it is not waiting for frame inputs). *)
Definition quiet {A} (m : M A) : Prop :=
  forall h, same_cursor h (snd (m h)) /\ fst (m h) <> Pending.

(** What holds of every particle of the active list between two frames. *)
Definition active_ok (b : FallingBlock) : Prop :=
  25 # 10 <= max_life b /\ 0 < life b /\ life b <= max_life b /\
  150 <= vy b /\ vy b <= 400.

(** A particle as line 162 creates it. *)
Definition newborn_ok (b : FallingBlock) : Prop :=
  life b = max_life b /\ 25 # 10 <= max_life b /\
  150 <= vy b /\ vy b <= 400.

(** A cloud sprite is at least a sixth of the screen wide (line 125). *)
Definition cloud_ok (su : Setup) (c : Cloud) : Prop :=
  (screen_w su / 6 <= get_width (cloud_surf c))%Z.

Definition world_ok (su : Setup) (w : World) : Prop :=
  Forall active_ok (falling w) /\
  2 # 100 <= spawn_interval w /\
  length (clouds w) = CLOUD_COUNT /\
  Forall (cloud_ok su) (clouds w).

(** The worlds the loop head can see: the one [startup] builds, and the one
    left by a frame that ran to its end while the loop was running. *)
Inductive reachable (su : Setup) : World -> Prop :=
| reach_startup : forall h w h',
    startup h = (Ok (su, w), h') -> reachable su w
| reach_frame : forall w inp h w' h',
    reachable su w -> running w = true ->
    frame su inp w h = (Ok w', h') -> reachable su w'.

(** The interval line 154 computes from the normal deviate [z]. *)
Definition jittered_interval (z : Q) : Q :=
  py_max (2 # 100) (BLOCK_SPAWN_RATE + z * (BLOCK_SPAWN_RATE * (4 # 10))).

(** What lines 152-162 do to the spawn state when the accumulated time is
    [accum] and the next normal deviate is [z]: the particles born, the new
    accumulator and the new interval. *)
Definition spawn_outcome (w : World) (accum z : Q)
    (born : list FallingBlock) (accum' interval' : Q) : Prop :=
  (accum < spawn_interval w /\ born = [] /\
   accum' = accum /\ interval' = spawn_interval w) \/
  (spawn_interval w <= accum /\ (exists b, born = [b] /\ newborn_ok b) /\
   accum' = accum - spawn_interval w /\ interval' = jittered_interval z).

(** What lines 170-174 do to one cloud in a frame of length [dt]. *)
Definition cloud_step (su : Setup) (dt : Q) (c c' : Cloud) : Prop :=
  let nx := cloud_x c + cloud_speed c * dt in
  let w := get_width (cloud_surf c) in
  cloud_surf c' = cloud_surf c /\
  (inject_Z (screen_w su + w) < nx ->
   exists off, (0 <= inject_Z (screen_w su) * (2 # 10) -> 0 <= off) /\
               cloud_x c' = - inject_Z w - off) /\
  (nx <= inject_Z (screen_w su + w) ->
   c' = mkCloud nx (cloud_y c) (cloud_surf c) (cloud_speed c)).

(** The exit triggers of the state machine, as a predicate on events. *)
Definition is_exit_trigger (start : Z * Z) (ev : Event) : bool :=
  match ev with
  | QUIT | KEYDOWN | MOUSEBUTTONDOWN => true
  | MOUSEMOTION p => negb (pos_eqb p start)
  | OTHER_EVENT => false
  end.

(** The alpha the renderer would use if it rounded to nearest. *)
Definition rounded_alpha (f : Q) : Z :=
  Z.max 0 (Z.min 255 (py_round (255 * f))).

(** The host [hide_cursor] leaves behind. *)
Definition hidden (h : Host) : Host :=
  if grab_supported h then set_input_grab true (set_cursor_visible false h)
  else set_cursor_visible false h.

(** The host the [finally] block leaves behind. *)
Definition restored (h : Host) : Host :=
  set_display_open false
    (if grab_supported h then set_input_grab false (set_cursor_visible true h)
     else set_cursor_visible true h).

(** ** Pixel surfaces (lines 52-57 and 112-117) *)

(** A pygame surface with per-pixel alpha, as its pixels: what
    [pygame.Surface((w, h), pygame.SRCALPHA)] holds. *)
Definition RGBA : Type := (Z * Z * Z * Z)%type.

(** [pygame.Rect(left, top, width, height)]. *)
Definition Rect : Type := (Z * Z * Z * Z)%type.

Record Canvas := mkCanvas {
  canvas_w : Z;
  canvas_h : Z;
  pixel_at : Z -> Z -> RGBA
}.

Definition transparent : RGBA := (0, 0, 0, 0)%Z.

(** A new surface is transparent black everywhere. *)
Definition blank_canvas (w h : Z) : Canvas :=
  mkCanvas w h (fun _ _ => transparent).

Definition new_canvas (w h : Z) : M Canvas :=
  if ((w <? 0) || (h <? 0))%Z then raise PygameError
  else ret (blank_canvas w h).

(** An RGB colour given to [fill] is opaque. *)
Definition opaque (c : Color) : RGBA :=
  let '(r, g, b) := c in (r, g, b, 255)%Z.

Definition in_rect (r : Rect) (px py : Z) : bool :=
  let '(l, t, w, h) := r in
  ((l <=? px) && (px <? l + w) && (t <=? py) && (py <? t + h))%Z.

Definition in_canvas (cv : Canvas) (px py : Z) : bool :=
  ((0 <=? px) && (px <? canvas_w cv) && (0 <=? py) && (py <? canvas_h cv))%Z.

(** [surface.fill(color, rect)]: the rectangle is clipped to the surface; a
    rectangle of negative width or height fills nothing. *)
Definition fill (c : RGBA) (r : Rect) (cv : Canvas) : Canvas :=
  mkCanvas (canvas_w cv) (canvas_h cv)
           (fun px py =>
              if in_canvas cv px py && in_rect r px py then c
              else pixel_at cv px py).

(** [surface.fill(color)]. *)
Definition fill_all (c : RGBA) (cv : Canvas) : Canvas :=
  fill c (0, 0, canvas_w cv, canvas_h cv)%Z cv.

Definition sub_rgba (d s : RGBA) : RGBA :=
  let '(dr, dg, db, da) := d in
  let '(sr, sg, sb, sa) := s in
  (Z.max 0 (dr - sr), Z.max 0 (dg - sg), Z.max 0 (db - sb), Z.max 0 (da - sa))%Z.

(** [dst.blit(src, dest, special_flags=pygame.BLEND_RGBA_SUB)]: every
    channel of the source is subtracted from the destination, stopping at
    0, where the source placed at [dest] covers the destination. *)
Definition blit_rgba_sub (src : Canvas) (dest : Z * Z) (dst : Canvas) : Canvas :=
  mkCanvas (canvas_w dst) (canvas_h dst)
           (fun px py =>
              if in_canvas dst px py &&
                 in_canvas src (px - fst dest)%Z (py - snd dest)%Z
              then sub_rgba (pixel_at dst px py)
                            (pixel_at src (px - fst dest)%Z (py - snd dest)%Z)
              else pixel_at dst px py).

(** The inner loop of [draw_pixel_block], from column [col_i] on. *)
Fixpoint draw_row (surface : Canvas) (x0 y0 pixel_sz row_i col_i : Z)
    (row : list (option Color)) : Canvas :=
  match row with
  | [] => surface
  | col :: rest =>
      let surface' :=
        match col with
        | Some c =>
            fill (opaque c)
                 (x0 + col_i * pixel_sz, y0 + row_i * pixel_sz,
                  pixel_sz, pixel_sz)%Z surface
        | None => surface
        end in
      draw_row surface' x0 y0 pixel_sz row_i (col_i + 1)%Z rest
  end.

(** The outer loop, from row [row_i] on. *)
Fixpoint draw_rows (surface : Canvas) (x0 y0 pixel_sz row_i : Z)
    (rows : list (list (option Color))) : Canvas :=
  match rows with
  | [] => surface
  | row :: rest =>
      draw_rows (draw_row surface x0 y0 pixel_sz row_i 0 row)
                x0 y0 pixel_sz (row_i + 1)%Z rest
  end.

(** [draw_pixel_block(surface, x, y, pixel_map, pixel_size)] (lines 52-57). *)
Definition draw_pixel_block (surface : Canvas) (x0 y0 : Z)
    (pixel_map : list (list (option Color))) (pixel_sz : Z) : Canvas :=
  draw_rows surface x0 y0 pixel_sz 0 pixel_map.

(** Lines 112-117 for a pixel map: draw, subtract the shadow at (3, 3),
    draw again. *)
Definition shade_and_redraw (pixel_map : list (list (option Color)))
    (pixel_sz : Z) (block_surf shadow : Canvas) : Canvas :=
  let block_surf := draw_pixel_block block_surf 0 0 pixel_map pixel_sz in
  let shadow := fill_all (0, 0, 0, 50)%Z shadow in
  let block_surf := blit_rgba_sub shadow (3, 3)%Z block_surf in
  draw_pixel_block block_surf 0 0 pixel_map pixel_sz.

(** Lines 106-117: the block sprite. *)
Definition build_block_sprite (pixel_sz : Z) : M Canvas :=
  let base_map := generate_grass_block_map in
  let map_w := Z.of_nat (length (hd [] base_map)) in
  let map_h := Z.of_nat (length base_map) in
  block_surf <- new_canvas (map_w * pixel_sz) (map_h * pixel_sz) ;;
  shadow <- new_canvas (canvas_w block_surf) (canvas_h block_surf) ;;
  ret (shade_and_redraw base_map pixel_sz block_surf shadow).

(** The colour of cell [(r, c)] of a pixel map, if the map has that cell
    and it is not [None]. *)
Definition cell_at (pixel_map : list (list (option Color))) (r c : Z)
    : option Color :=
  if ((r <? 0) || (c <? 0))%Z then None
  else match nth_error pixel_map (Z.to_nat r) with
       | Some row =>
           match nth_error row (Z.to_nat c) with
           | Some (Some col) => Some col
           | _ => None
           end
       | None => None
       end.

(** ** The block and the sparkle (lines 191 and 198-201) *)

(** Line 191. *)
Definition block_x_of (sw block_w : Z) : Z := ((sw - block_w) / 2)%Z.

(** Lines 198-201, with the block's top-left corner and size given: the
    centre of the sparkle, if one is drawn. *)
Definition sparkle (block_x block_y block_w block_h : Z) : M (option (Z * Z)) :=
  u <- random ;;
  if Qlt_bool u (4 # 100) then
    rx <- randint block_x (block_x + block_w) ;;
    ry <- randint block_y (block_y + block_h) ;;
    ret (Some (rx, ry))
  else ret None.

(** ** The script entry (lines 221-227) *)

(** [try: main() except Exception as e: pygame.quit(); print(...); raise].
    The list holds the exceptions reported by [print]. *)
Definition script (frames : list FrameInput) (h : Host)
    : Result World * Host * list Exn :=
  match main frames h with
  | (Raise e, h') =>
      if is_Exception e then
        (Raise e, snd (pygame_quit h'), [e])
      else (Raise e, h', [])
  | (r, h') => (r, h', [])
  end.

(** ** Further invariants *)


(** The alpha of line 186 as a function of the particle, with the quotient
    and the product taken exactly. *)
Definition alpha_of (b : FallingBlock) : Z :=
  Z.max 0 (Z.min 255 (py_int (255 * (life b / max_life b)))).




(** ** Binary64 arithmetic *)

(** CPython's [float] is the IEEE 754 binary64 format, and every float
    operation of the source returns the double nearest to the exact result,
    ties going to the even significand.  The doubles are rationals, so the
    rounding is a function on [Q].  Values beyond the largest double would
    round to an infinity; no quantity of this program comes near it, and
    the function below does not treat that range specially. *)

(** [2^k] for an integer [k] of either sign. *)
Definition pow2 (k : Z) : Q := Qpower 2 k.

(** The binary exponent of a positive rational: the [e] with
    [2^e <= x < 2^(e+1)]. *)
Definition ilog2 (x : Q) : Z :=
  let e0 := (Z.log2 (Qnum x) - Z.log2 (Zpos (Qden x)))%Z in
  if Qlt_bool x (pow2 e0) then (e0 - 1)%Z else e0.

(** The exponent of the spacing of the doubles around [x]: 52 below the
    exponent of [x], and constant below [2^-1022], where the doubles are
    subnormal. *)
Definition ulp_exp (x : Q) : Z := (Z.max (ilog2 (Qabs x)) (-1022) - 52)%Z.

(** The double nearest to [x]. *)
Definition round64 (x : Q) : Q :=
  if Qeq_bool x 0 then 0
  else Qred (inject_Z (py_round (x / pow2 (ulp_exp x))) * pow2 (ulp_exp x)).

(** The multiple of [2^k] nearest to [x]. *)
Definition to_grid (k : Z) (x : Q) : Q :=
  inject_Z (py_round (x / pow2 k)) * pow2 k.

(** The exponent of the binade of [x], the subnormal range counting as
    the lowest binade. *)
Definition eff_exp (x : Q) : Z := Z.max (ilog2 (Qabs x)) (-1022).

(** A rational that is a double. *)
Definition is_double (q : Q) : Prop := round64 q == q.

(** ** The program in binary64 *)

(** The particle, cloud and renderer functions of the sections above compute
    with exact rationals: they are the program with the rounding steps left
    out, and the theorems about them concern what rounding to nearest does
    not change (order, ranges, counts, the exit and cursor logic).  The
    module [B64] is the numerical part of the program with every float
    operation rounded as CPython rounds it; the theorems about list
    membership, branches taken and integers computed from float values are
    stated on it. *)
Module B64.

(** A Python number as the source mixes them, [int] or [float]. *)
Inductive Num :=
| Int (z : Z)
| Float (q : Q).

(** [float(z)], the conversion an [int] operand undergoes next to a
    [float]. *)
Definition of_int (z : Z) : Q := round64 (inject_Z z).

(** A decimal literal of the source, such as [0.08]. *)
Definition lit (q : Q) : Q := round64 q.

Definition fadd (a b : Q) : Q := round64 (a + b).
Definition fsub (a b : Q) : Q := round64 (a - b).
Definition fmul (a b : Q) : Q := round64 (a * b).

(** Float division: [ZeroDivisionError] on a zero divisor. *)
Definition fdiv (a b : Q) : M Q :=
  if Qeq_bool b 0 then raise ZeroDivisionError else ret (round64 (a / b)).

Definition to_float (n : Num) : Q :=
  match n with
  | Int z => of_int z
  | Float q => q
  end.

(** [b - a]: exact on two [int]s, a float subtraction otherwise. *)
Definition num_sub (b a : Num) : Num :=
  match b, a with
  | Int zb, Int za => Int (zb - za)
  | _, _ => Float (fsub (to_float b) (to_float a))
  end.

(** The float-valued constants of lines 21-37, as the source writes them. *)
Definition BLOCK_FALL_RATE : Z * Z := (150, 400)%Z.
Definition BLOCK_SPAWN_RATE : Q := lit (8 # 100).
Definition CLOUD_SPEED : Z := 10.

(** [random.uniform(a, b)] is [a + (b - a) * random()]. *)
Definition uniform (a b : Num) : M Q :=
  u <- random ;;
  ret (fadd (to_float a) (fmul (to_float (num_sub b a)) u)).

(** [random.gauss(mu, sigma)] is [mu + z * sigma] for a standard normal
    deviate [z], itself a double. *)
Definition gauss (mu sigma : Q) : M Q :=
  fun h =>
    (Ok (fadd mu (fmul (round64 (normal_at h (drawn h))) sigma)),
     consume_draw h).

(** One iteration of the loop of lines 124-131. *)
Definition new_cloud (sw sh : Z) : M Cloud :=
  w <- randint (sw / 6) (sw / 3) ;;
  let h := Z.max 40 (w / 6) in
  surf <- make_cloud_surface w h ;;
  cx <- uniform (Int (- w)) (Int sw) ;;
  cy <- uniform (Int 20) (Float (fmul (of_int sh) (lit (35 # 100)))) ;;
  speed <- uniform (Float (fmul (of_int CLOUD_SPEED) (lit (5 # 10))))
                   (Float (fmul (of_int CLOUD_SPEED) (lit (15 # 10)))) ;;
  ret (mkCloud cx cy surf speed).

(** Lines 119-121: [spawn_accum = 0.0], [spawn_interval = BLOCK_SPAWN_RATE]. *)
Definition initial_world (cl : list Cloud) : World :=
  mkWorld [] 0 BLOCK_SPAWN_RATE cl true.

(** Lines 105-134. *)
Definition build_scene (sz : Z * Z) : M (Setup * World) :=
  let sw := fst sz in
  let sh := snd sz in
  let map_w := Z.of_nat (length (hd [] generate_grass_block_map)) in
  let map_h := Z.of_nat (length generate_grass_block_map) in
  let px := compute_pixel_size sw in
  new_surface (map_w * px) (map_h * px) ;;;
  new_surface (map_w * px) (map_h * px) ;;;
  cl <- repeat_m CLOUD_COUNT (new_cloud sw sh) ;;
  start <- mouse_get_pos ;;
  ret (mkSetup sw sh px start, initial_world cl).

(** Lines 88-134: everything [main] does before the [try]. *)
Definition startup : M (Setup * World) :=
  sz <- display_info ;;
  set_mode sz ;;;
  hide_cursor ;;;
  build_scene sz.

(** Lines 152-162. *)
Definition spawn (su : Setup) (w : World) : M World :=
  if Qle_bool (spawn_interval w) (spawn_accum w) then
    let accum := fsub (spawn_accum w) (spawn_interval w) in
    g <- gauss BLOCK_SPAWN_RATE (fmul BLOCK_SPAWN_RATE (lit (4 # 10))) ;;
    let interval := py_max (lit (2 # 100)) g in
    sz <- choice [1; 1; 1; 2]%Z ;;
    let px_size := (pixel_size su * sz)%Z in
    bx <- uniform (Int 0) (Int (screen_w su - px_size)) ;;
    off <- uniform (Int 0) (Float (fmul (of_int (screen_h su)) (lit (1 # 10)))) ;;
    let by_ := fsub (of_int (- px_size)) off in
    speed <- uniform (Int (fst BLOCK_FALL_RATE)) (Int (snd BLOCK_FALL_RATE)) ;;
    col <- choice [GRASS_TOP; GRASS_EDGE; DIRT; STONE; WOOD] ;;
    r <- random ;;
    let lf := fadd (lit (25 # 10)) (fmul r (lit 2)) in
    ret (mkWorld (falling w ++ [mkFallingBlock bx by_ px_size speed col lf lf])
                 accum interval (clouds w) (running w))
  else ret w.

(** The body of the loop of lines 164-166, for one particle. *)
Definition fall (dt : Q) (b : FallingBlock) : FallingBlock :=
  mkFallingBlock (x b) (fadd (y b) (fmul (vy b) dt)) (size b) (vy b) (color b)
                 (fsub (life b) dt) (max_life b).

(** Line 167; the comparisons of [keep] are exact, as Python's are, also
    between a [float] and an [int]. *)
Definition update_falling (dt : Q) (sh : Z) (l : list FallingBlock)
    : list FallingBlock :=
  filter (keep sh) (map (fall dt) l).

(** Lines 169-174, for one cloud. *)
Definition update_cloud (su : Setup) (dt : Q) (c : Cloud) : M Cloud :=
  let nx := fadd (cloud_x c) (fmul (cloud_speed c) dt) in
  let w := get_width (cloud_surf c) in
  if Qlt_bool (inject_Z (screen_w su + w)) nx then
    off <- uniform (Int 0) (Float (fmul (of_int (screen_w su)) (lit (2 # 10)))) ;;
    ny <- uniform (Int 20) (Float (fmul (of_int (screen_h su)) (lit (35 # 100)))) ;;
    sp <- uniform (Float (fmul (of_int CLOUD_SPEED) (lit (5 # 10))))
                  (Float (fmul (of_int CLOUD_SPEED) (lit (15 # 10)))) ;;
    ret (mkCloud (fsub (of_int (- w)) off) ny (cloud_surf c) sp)
  else ret (mkCloud nx (cloud_y c) (cloud_surf c) (cloud_speed c)).

(** Line 186: [max(0, min(255, int(255 * (b.life / b.max_life))))]. *)
Definition particle_alpha (b : FallingBlock) : M Z :=
  f <- fdiv (life b) (max_life b) ;;
  ret (Z.max 0 (Z.min 255 (py_int (fmul (of_int 255) f)))).

Definition draw_particle (b : FallingBlock) : M Sprite :=
  alpha <- particle_alpha b ;;
  ret (mkSprite (x b) (y b) (size b) (color b) alpha).

(** Line 139: [dt = clock.tick(FPS) / 1000.0]. *)
Definition frame_dt (inp : FrameInput) : Q :=
  round64 (of_int (Z.of_N (tick_ms inp)) / 1000).

(** Lines 139-174: clock, events, particle and cloud update. *)
Definition advance (su : Setup) (inp : FrameInput) (w : World) : M World :=
  let dt := frame_dt inp in
  let accum := fadd (spawn_accum w) dt in
  let run := process_events (start_mouse_pos su) (running w) (events inp) in
  w1 <- spawn su (mkWorld (falling w) accum (spawn_interval w) (clouds w) run) ;;
  let fl := update_falling dt (screen_h su) (falling w1) in
  cl <- for_each (update_cloud su dt) (clouds w1) ;;
  ret (mkWorld fl (spawn_accum w1) (spawn_interval w1) cl (running w1)).

(** The random draws of lines 198-200.  [randint(a, a + n)] is [a] plus
    [randint(0, n)], so the draws are made relative to the corner of the
    block; the circle itself is not part of [presented]. *)
Definition sparkle_draws (su : Setup) : M unit :=
  let block_w :=
    (Z.of_nat (length (hd [] generate_grass_block_map)) * pixel_size su)%Z in
  let block_h :=
    (Z.of_nat (length generate_grass_block_map) * pixel_size su)%Z in
  u <- random ;;
  if Qlt_bool u (lit (4 # 100)) then
    randint 0 block_w ;;; randint 0 block_h ;;; ret tt
  else ret tt.

(** Lines 176-208, as far as the particles and the generator are
    concerned. *)
Definition render (su : Setup) (inp : FrameInput) (w : World) : M unit :=
  sprites <- for_each draw_particle (falling w) ;;
  sparkle_draws su ;;;
  display_flip inp sprites.

Definition frame (su : Setup) (inp : FrameInput) (w : World) : M World :=
  w' <- advance su inp w ;;
  render su inp w' ;;;
  ret w'.

(** The loop body iterated over the given frames while the loop is
    running. *)
Fixpoint play (su : Setup) (frames : list FrameInput) (w : World) : M World :=
  match frames with
  | [] => ret w
  | inp :: rest =>
      if running w then w' <- frame su inp w ;; play su rest w' else ret w
  end.

(** The alpha of line 186, as a function of the particle. *)
Definition alpha_of (b : FallingBlock) : Z :=
  Z.max 0 (Z.min 255
    (py_int (fmul (of_int 255) (round64 (life b / max_life b))))).

(** The rectangle lines 187-189 blit for a particle. *)
Definition sprite_of (b : FallingBlock) : Sprite :=
  mkSprite (x b) (y b) (size b) (color b) (alpha_of b).

(** The highest position line 158 can give a particle of size [sz]: the
    offset drawn is at most [screen_h * 0.1]. *)
Definition spawn_top (su : Setup) (sz : Z) : Q :=
  fsub (of_int (- sz)) (fmul (of_int (screen_h su)) (lit (1 # 10))).

(** What holds of every particle of the active list between two frames. *)
Definition active_ok (su : Setup) (b : FallingBlock) : Prop :=
  is_double (life b) /\ 0 < life b /\ life b <= max_life b /\
  25 # 10 <= max_life b /\ max_life b <= 45 # 10 /\
  is_double (y b) /\ 150 <= vy b /\
  ((0 <= screen_h su)%Z -> spawn_top su (size b) <= y b).

(** A particle as line 162 creates it. *)
Definition newborn_ok (su : Setup) (b : FallingBlock) : Prop :=
  is_double (life b) /\ life b = max_life b /\
  25 # 10 <= max_life b /\ max_life b <= 45 # 10 /\
  is_double (y b) /\ 150 <= vy b /\
  (size b = pixel_size su \/ size b = (pixel_size su * 2)%Z) /\
  ((0 <= screen_h su)%Z ->
   spawn_top su (size b) <= y b /\ y b <= of_int (- size b)).

Definition world_ok (su : Setup) (w : World) : Prop :=
  Forall (active_ok su) (falling w) /\
  lit (2 # 100) <= spawn_interval w /\
  length (clouds w) = CLOUD_COUNT /\
  Forall (cloud_ok su) (clouds w).

(** The worlds the loop head can see. *)
Inductive reachable (su : Setup) : World -> Prop :=
| reach_startup : forall h w h',
    startup h = (Ok (su, w), h') -> reachable su w
| reach_frame : forall w inp h w' h',
    reachable su w -> running w = true ->
    frame su inp w h = (Ok w', h') -> reachable su w'.

(** The Gaussian draw of line 154 for the normal deviate [z]. *)
Definition jitter (z : Q) : Q :=
  fadd BLOCK_SPAWN_RATE
       (fmul (round64 z) (fmul BLOCK_SPAWN_RATE (lit (4 # 10)))).

(** What lines 152-162 do to the spawn state when the accumulated time is
    [accum] and the next normal deviate is [z]. *)
Definition spawn_outcome (su : Setup) (w : World) (accum z : Q)
    (born : list FallingBlock) (accum' interval' : Q) : Prop :=
  (accum < spawn_interval w /\ born = [] /\
   accum' = accum /\ interval' = spawn_interval w) \/
  (spawn_interval w <= accum /\ (exists b, born = [b] /\ newborn_ok su b) /\
   accum' = fsub accum (spawn_interval w) /\
   interval' = py_max (lit (2 # 100)) (jitter z)).

(** What lines 170-174 do to one cloud in a frame of length [dt]. *)
Definition cloud_step (su : Setup) (dt : Q) (c c' : Cloud) : Prop :=
  let nx := fadd (cloud_x c) (fmul (cloud_speed c) dt) in
  let w := get_width (cloud_surf c) in
  cloud_surf c' = cloud_surf c /\
  (inject_Z (screen_w su + w) < nx ->
   exists off, ((0 <= screen_w su)%Z -> 0 <= off) /\
               cloud_x c' = fsub (of_int (- w)) off) /\
  (nx <= inject_Z (screen_w su + w) ->
   c' = mkCloud nx (cloud_y c) (cloud_surf c) (cloud_speed c)).

End B64.

(** ** A concrete run, for the examples *)

(** The loop body iterated over the given frames while the loop is running;
    unlike [main_loop] it hands back the world when the frames run out. *)
Fixpoint play (su : Setup) (frames : list FrameInput) (w : World) : M World :=
  match frames with
  | [] => ret w
  | inp :: rest =>
      if running w then w' <- frame su inp w ;; play su rest w' else ret w
  end.

Definition outcome_value {A} (d : A) (r : Result A * Host) : A :=
  match fst r with
  | Ok a => a
  | _ => d
  end.

(** A 1920x1080 display with input grab, every [random()] equal to 1/2,
    every normal deviate 0, and [_randbelow] counting up. *)
Definition demo_host : Host :=
  mkHost (1920, 1080)%Z (100, 100)%Z true true false true []
         (fun _ => (2 ^ 52)%N) (fun k => N.of_nat k) (fun _ => 0) 0.

(** A frame of 16 ms with no event and no fault. *)
Definition demo_tick : FrameInput := mkFrameInput 16 [] None.

Definition demo_boot : Result (Setup * World) * Host := startup demo_host.

Definition demo_setup : Setup :=
  fst (outcome_value (mkSetup 0 0 0 (0, 0)%Z, initial_world []) demo_boot).

Definition demo_world0 : World :=
  snd (outcome_value (mkSetup 0 0 0 (0, 0)%Z, initial_world []) demo_boot).

Definition demo_host0 : Host := snd demo_boot.

(** Five frames later the first particle has been spawned. *)
Definition demo_run : Result World * Host :=
  play demo_setup (repeat demo_tick 5) demo_world0 demo_host0.

Definition demo_world : World := outcome_value (initial_world []) demo_run.

Definition demo_host1 : Host := snd demo_run.




Definition no_block : FallingBlock := mkFallingBlock 0 0 0 0 (0, 0, 0)%Z 0 0.



(** The same launch in binary64, six frames of 16 ms: the accumulated time
    reaches the interval of 0.08 s and the first particle is spawned. *)
Definition demo64_boot : Result (Setup * World) * Host := B64.startup demo_host.

Definition demo64_setup : Setup :=
  fst (outcome_value (mkSetup 0 0 0 (0, 0)%Z, B64.initial_world []) demo64_boot).

Definition demo64_world0 : World :=
  snd (outcome_value (mkSetup 0 0 0 (0, 0)%Z, B64.initial_world []) demo64_boot).

Definition demo64_host0 : Host := snd demo64_boot.

Definition demo64_run : Result World * Host :=
  B64.play demo64_setup (repeat demo_tick 6) demo64_world0 demo64_host0.

Definition demo64_world : World := outcome_value (B64.initial_world []) demo64_run.

Definition demo64_host1 : Host := snd demo64_run.

Definition demo64_next : Result World * Host :=
  B64.advance demo64_setup demo_tick demo64_world demo64_host1.

Definition demo64_world' : World := outcome_value (B64.initial_world []) demo64_next.

Definition demo64_host' : Host := snd demo64_next.

Definition demo64_block : FallingBlock := hd no_block (falling demo64_world).

Definition demo64_block' : FallingBlock := hd no_block (falling demo64_world').

(** * Proofs *)

(** ** Rational comparisons *)

Lemma Qlt_bool_iff (a b : Q) : Qlt_bool a b = true <-> a < b.
Proof.
  unfold Qlt_bool. rewrite negb_true_iff.
  split; intro H.
  - apply Qnot_le_lt. intro L. apply Qle_bool_iff in L. congruence.
  - destruct (Qle_bool b a) eqn:E; [|reflexivity].
    apply Qle_bool_iff in E. exfalso. apply (Qlt_not_le _ _ H E).
Qed.

Lemma Qlt_bool_false (a b : Q) : Qlt_bool a b = false <-> b <= a.
Proof.
  unfold Qlt_bool. rewrite negb_false_iff. apply Qle_bool_iff.
Qed.

Lemma py_max_lower (a b : Q) : a <= py_max a b.
Proof.
  unfold py_max. destruct (Qlt_bool a b) eqn:E.
  - apply Qlt_bool_iff in E. lra.
  - lra.
Qed.

Lemma pos_eqb_eq (p q : Z * Z) : pos_eqb p q = true <-> p = q.
Proof.
  destruct p as [p1 p2], q as [q1 q2]. unfold pos_eqb. simpl.
  rewrite andb_true_iff, !Z.eqb_eq.
  split; [intros [-> ->]; reflexivity | intro E; inversion E; auto].
Qed.

(** ** The monad *)

Lemma triple_ret t {A} (a : A) post h : post a h -> triple t (ret a) post h.
Proof. exact (fun H => H). Qed.

Lemma triple_bind t {A B} (m : M A) (k : A -> M B) post h :
  triple t m (fun a h' => triple t (k a) post h') h ->
  triple t (bind m k) post h.
Proof.
  unfold triple, bind. destruct (m h) as [[a|e|] h1]; auto.
Qed.

Lemma triple_mono t {A} (m : M A) (P Q : A -> Host -> Prop) h :
  (forall a h', P a h' -> Q a h') -> triple t m P h -> triple t m Q h.
Proof.
  unfold triple. intros I. destruct (m h) as [[a|e|] h1]; auto.
Qed.

Lemma triple_run t {A} (m : M A) post h a h' :
  triple t m post h -> m h = (Ok a, h') -> post a h'.
Proof. unfold triple. intros W E. rewrite E in W. exact W. Qed.

Lemma triple_returns {A} (m : M A) post h :
  triple true m post h -> exists a h', m h = (Ok a, h') /\ post a h'.
Proof.
  unfold triple. destruct (m h) as [[a|e|] h1]; try discriminate.
  intro P. exists a, h1. auto.
Qed.

Lemma bind_Ok {A B} (m : M A) (k : A -> M B) h b h' :
  bind m k h = (Ok b, h') ->
  exists a h1, m h = (Ok a, h1) /\ k a h1 = (Ok b, h').
Proof.
  unfold bind. destruct (m h) as [[a|e|] h1]; try discriminate.
  intro E. exists a, h1. auto.
Qed.

Lemma same_cursor_refl h : same_cursor h h.
Proof. repeat split. Qed.

Lemma same_cursor_trans h1 h2 h3 :
  same_cursor h1 h2 -> same_cursor h2 h3 -> same_cursor h1 h3.
Proof.
  unfold same_cursor. intros (a & b & c & d) (e & f & g & i).
  repeat split; congruence.
Qed.

Lemma quiet_ret {A} (a : A) : quiet (ret a).
Proof. intro h. split; [apply same_cursor_refl | discriminate]. Qed.

Lemma quiet_raise {A} (e : Exn) : quiet (@raise A e).
Proof. intro h. split; [apply same_cursor_refl | discriminate]. Qed.

Lemma quiet_bind {A B} (m : M A) (k : A -> M B) :
  quiet m -> (forall a, quiet (k a)) -> quiet (bind m k).
Proof.
  intros Qm Qk h. unfold bind.
  destruct (Qm h) as [Sm Nm]. destruct (m h) as [[a|e|] h1]; simpl in *.
  - destruct (Qk a h1) as [Sk Nk]. split; [|exact Nk].
    eapply same_cursor_trans; eauto.
  - split; [exact Sm | discriminate].
  - congruence.
Qed.

Lemma quiet_for_each {A B} (f : A -> M B) (l : list A) :
  (forall a, quiet (f a)) -> quiet (for_each f l).
Proof.
  intro Qf. induction l as [|a l IH]; simpl.
  - apply quiet_ret.
  - apply quiet_bind; [apply Qf|]. intro b.
    apply quiet_bind; [exact IH|]. intro bs. apply quiet_ret.
Qed.

Lemma quiet_repeat_m {A} (n : nat) (body : M A) :
  quiet body -> quiet (repeat_m n body).
Proof.
  intro Qb. induction n as [|n IH]; simpl.
  - apply quiet_ret.
  - apply quiet_bind; [exact Qb|]. intro a.
    apply quiet_bind; [exact IH|]. intro r. apply quiet_ret.
Qed.

(** ** The random module *)

Lemma quiet_random : quiet random.
Proof. intro h. split; [repeat split | discriminate]. Qed.

Lemma quiet_gauss mu sigma : quiet (gauss mu sigma).
Proof. intro h. split; [repeat split | discriminate]. Qed.

Lemma quiet_randbelow n : quiet (randbelow n).
Proof. intro h. split; [repeat split | discriminate]. Qed.

Lemma quiet_uniform a b : quiet (uniform a b).
Proof.
  apply quiet_bind; [apply quiet_random | intro; apply quiet_ret].
Qed.

Lemma quiet_randint a b : quiet (randint a b).
Proof.
  unfold randint. destruct (b <? a)%Z.
  - apply quiet_raise.
  - apply quiet_bind; [apply quiet_randbelow | intro; apply quiet_ret].
Qed.

Lemma quiet_choice {A} (seq : list A) : quiet (choice seq).
Proof.
  unfold choice. destruct seq as [|a l].
  - apply quiet_raise.
  - apply quiet_bind; [apply quiet_randbelow|]. intro i.
    destruct (nth_error (a :: l) (Z.to_nat i)); [apply quiet_ret | apply quiet_raise].
Qed.

Lemma quiet_py_div a b : quiet (py_div a b).
Proof.
  unfold py_div. destruct (Qeq_bool b 0); [apply quiet_raise | apply quiet_ret].
Qed.

Lemma quiet_new_surface w h : quiet (new_surface w h).
Proof.
  unfold new_surface. destruct ((w <? 0) || (h <? 0))%Z;
    [apply quiet_raise | apply quiet_ret].
Qed.

Create HintDb quiet.
#[local] Hint Resolve quiet_ret quiet_raise quiet_random quiet_gauss
  quiet_randbelow quiet_uniform quiet_randint quiet_py_div
  quiet_new_surface : quiet.
#[local] Hint Resolve quiet_choice quiet_for_each quiet_repeat_m : quiet.

Ltac quiet_steps :=
  repeat first
    [ progress cbv zeta
    | solve [ auto with quiet ]
    | apply quiet_for_each; intro
    | apply quiet_repeat_m
    | apply quiet_bind; [ | intro ] ].

(** [random()] lies in [0, 1). *)
Lemma triple_random t post h :
  (forall u, 0 <= u -> u < 1 -> post u (consume_draw h)) ->
  triple t random post h.
Proof.
  intro H. unfold triple, random.
  set (k := (bits_at h (drawn h) mod 2 ^ 53)%N).
  assert (k < 2 ^ 53)%N as L by (apply N.mod_upper_bound; discriminate).
  apply N2Z.inj_lt in L. change (Z.of_N (2 ^ 53)) with (Zpos (2 ^ 53)) in L.
  pose proof (N2Z.is_nonneg k) as P.
  apply H.
  - unfold Qle. cbn [Qnum Qden]. lia.
  - unfold Qlt. cbn [Qnum Qden]. lia.
Qed.

(** [uniform(a, b)] lies between its bounds when they are in order. *)
Lemma triple_uniform t a b post h :
  (forall v, (a <= b -> a <= v /\ v <= b) -> post v (consume_draw h)) ->
  triple t (uniform a b) post h.
Proof.
  intros H. unfold uniform. apply triple_bind, triple_random.
  intros u U0 U1. apply triple_ret. apply H. intro L.
  assert (0 <= (b - a) * u) by (apply Qmult_le_0_compat; lra).
  assert (0 <= (b - a) * (1 - u)) by (apply Qmult_le_0_compat; lra).
  split; lra.
Qed.

Lemma triple_gauss t mu sigma post h :
  post (mu + normal_at h (drawn h) * sigma) (consume_draw h) ->
  triple t (gauss mu sigma) post h.
Proof. exact (fun H => H). Qed.

Lemma triple_randbelow t n post h :
  (0 < n)%Z ->
  (forall k, (0 <= k < n)%Z -> post k (consume_draw h)) ->
  triple t (randbelow n) post h.
Proof.
  intros Pn H. unfold triple, randbelow. apply H.
  apply Z.mod_pos_bound. exact Pn.
Qed.

(** [randint(a, b)] is total on a non-empty range only. *)
Lemma triple_randint t a b post h :
  (t = true -> (a <= b)%Z) ->
  (forall v, (a <= v <= b)%Z -> post v (consume_draw h)) ->
  triple t (randint a b) post h.
Proof.
  intros L H. unfold randint.
  destruct (b <? a)%Z eqn:E.
  - apply Z.ltb_lt in E. unfold triple, raise.
    destruct t; [specialize (L eq_refl); lia | reflexivity].
  - apply Z.ltb_ge in E.
    apply triple_bind, triple_randbelow; [lia|].
    intros k K. apply triple_ret. apply H. lia.
Qed.

Lemma triple_choice t {A} (seq : list A) post h :
  seq <> [] ->
  (forall a, In a seq -> post a (consume_draw h)) ->
  triple t (choice seq) post h.
Proof.
  intros NE H. unfold choice. destruct seq as [|a0 l]; [congruence|].
  apply triple_bind, triple_randbelow; [simpl length; lia|].
  intros k K.
  destruct (nth_error (a0 :: l) (Z.to_nat k)) as [a|] eqn:E.
  - apply triple_ret, H. eapply nth_error_In; eauto.
  - apply nth_error_None in E. lia.
Qed.

Lemma triple_new_surface t w ht post h :
  (t = true -> (0 <= w)%Z /\ (0 <= ht)%Z) ->
  ((0 <= w)%Z -> (0 <= ht)%Z -> post (mkSurface w ht []) h) ->
  triple t (new_surface w ht) post h.
Proof.
  intros L H. unfold new_surface.
  destruct ((w <? 0) || (ht <? 0))%Z eqn:E.
  - unfold triple, raise. destruct t; [|reflexivity].
    destruct (L eq_refl) as [Lw Lh].
    apply orb_true_iff in E. destruct E as [E|E]; apply Z.ltb_lt in E; lia.
  - apply orb_false_iff in E. destruct E as [Ew Eh].
    apply Z.ltb_ge in Ew, Eh. apply triple_ret. auto.
Qed.

Lemma triple_for_each t {A B} (f : A -> M B) (R : A -> B -> Prop) l h :
  (forall a h', In a l -> triple t (f a) (fun b _ => R a b) h') ->
  triple t (for_each f l) (fun bs _ => Forall2 R l bs) h.
Proof.
  revert h. induction l as [|a l IH]; intros h H; simpl.
  - apply triple_ret. constructor.
  - apply triple_bind.
    eapply triple_mono; [|apply H; left; reflexivity].
    intros b h1 Rb. cbv beta in Rb. apply triple_bind.
    eapply triple_mono; [|apply IH; intros; apply H; right; assumption].
    intros bs h2 Rbs. cbv beta in Rbs. apply triple_ret. constructor; assumption.
Qed.

Lemma triple_repeat_m t {A} (body : M A) (P : A -> Prop) n h :
  (forall h', triple t body (fun a _ => P a) h') ->
  triple t (repeat_m n body) (fun l _ => length l = n /\ Forall P l) h.
Proof.
  intro H. revert h. induction n as [|n IH]; intro h; simpl.
  - apply triple_ret. split; [reflexivity | constructor].
  - apply triple_bind.
    eapply triple_mono; [|apply H].
    intros a h1 Pa. cbv beta in Pa. apply triple_bind.
    eapply triple_mono; [|apply IH].
    intros l h2 [Ll Pl]. apply triple_ret. split.
    + simpl. congruence.
    + constructor; assumption.
Qed.

(** ** Particle system *)

Lemma frame_dt_nonneg inp : 0 <= frame_dt inp.
Proof.
  unfold frame_dt, Qdiv. apply Qmult_le_0_compat.
  - change 0 with (inject_Z 0). rewrite <- Zle_Qle. apply N2Z.is_nonneg.
  - discriminate.
Qed.

Lemma triple_spawn t su w post h :
  (spawn_accum w < spawn_interval w -> post w h) ->
  (spawn_interval w <= spawn_accum w ->
   forall b h', newborn_ok b ->
     post (mkWorld (falling w ++ [b]) (spawn_accum w - spawn_interval w)
                   (jittered_interval (normal_at h (drawn h)))
                   (clouds w) (running w)) h') ->
  triple t (spawn su w) post h.
Proof.
  intros Hno Hyes. unfold spawn.
  destruct (Qle_bool (spawn_interval w) (spawn_accum w)) eqn:E.
  - apply Qle_bool_iff in E.
    apply triple_bind, triple_gauss.
    apply triple_bind, triple_choice; [discriminate|]. intros sz _.
    apply triple_bind, triple_uniform. intros bx _.
    apply triple_bind, triple_uniform. intros off _.
    apply triple_bind, triple_uniform. intros speed Hs.
    apply triple_bind, triple_choice; [discriminate|]. intros col _.
    apply triple_bind, triple_random. intros r R0 R1.
    apply triple_ret. apply (Hyes E).
    simpl in Hs. destruct Hs as [S1 S2]; [lra|].
    unfold newborn_ok. simpl. repeat split; try assumption; lra.
  - apply triple_ret. apply Hno.
    apply Qlt_bool_iff. unfold Qlt_bool. rewrite E. reflexivity.
Qed.

Lemma quiet_spawn su w : quiet (spawn su w).
Proof.
  unfold spawn. destruct (Qle_bool (spawn_interval w) (spawn_accum w));
    quiet_steps.
Qed.

Lemma keep_iff sh b :
  keep sh b = true <-> 0 < life b /\ y b < inject_Z (sh + 200).
Proof.
  unfold keep. rewrite andb_true_iff, !Qlt_bool_iff. reflexivity.
Qed.

Lemma update_falling_In dt sh l b' :
  In b' (update_falling dt sh l) <->
  exists b, In b l /\ b' = fall dt b /\ keep sh b' = true.
Proof.
  unfold update_falling. rewrite filter_In, in_map_iff. split.
  - intros [[b [E I]] K]. exists b. subst b'. auto.
  - intros [b [I [E K]]]. split; [exists b; auto | exact K].
Qed.

Lemma fall_active dt sh b :
  0 <= dt -> active_ok b \/ newborn_ok b ->
  keep sh (fall dt b) = true -> active_ok (fall dt b).
Proof.
  intros D H K. apply keep_iff in K. destruct K as [K _].
  unfold active_ok, newborn_ok in *. simpl in *.
  destruct H as [(a & b0 & c & d & e) | (a & b0 & c & d)];
    repeat split; try assumption; try lra.
  rewrite a. lra.
Qed.

Lemma update_falling_active dt sh l born :
  0 <= dt -> Forall active_ok l -> Forall newborn_ok born ->
  Forall active_ok (update_falling dt sh (l ++ born)).
Proof.
  intros D Hl Hb. apply Forall_forall. intros b' I.
  apply update_falling_In in I. destruct I as [b [I [E K]]]. subst b'.
  apply (fall_active dt sh b D); [|exact K].
  apply in_app_or in I. rewrite Forall_forall in Hl, Hb.
  destruct I as [I|I]; [left; apply Hl | right; apply Hb]; exact I.
Qed.

(** ** Cloud system *)

Lemma triple_update_cloud t su dt c h :
  triple t (update_cloud su dt c) (fun c' _ => cloud_step su dt c c') h.
Proof.
  unfold update_cloud.
  destruct (Qlt_bool (inject_Z (screen_w su + get_width (cloud_surf c)))
                     (cloud_x c + cloud_speed c * dt)) eqn:E.
  - apply Qlt_bool_iff in E.
    apply triple_bind, triple_uniform. intros off Ho.
    apply triple_bind, triple_uniform. intros ny _.
    apply triple_bind, triple_uniform. intros sp _.
    apply triple_ret. unfold cloud_step. simpl. split; [reflexivity|]. split.
    + intros _. exists off. split; [|reflexivity].
      intro P. destruct (Ho P) as [O1 _]. exact O1.
    + intro L. lra.
  - apply Qlt_bool_false in E.
    apply triple_ret. unfold cloud_step. simpl. split; [reflexivity|]. split.
    + intro L. lra.
    + intros _. reflexivity.
Qed.

Lemma quiet_update_cloud su dt c : quiet (update_cloud su dt c).
Proof.
  unfold update_cloud.
  destruct (Qlt_bool _ _); quiet_steps.
Qed.

Lemma cloud_steps_length su dt l l' :
  Forall2 (cloud_step su dt) l l' -> length l' = length l.
Proof. intro F. symmetry. eapply Forall2_length; eauto. Qed.

Lemma cloud_steps_ok su dt l l' :
  Forall2 (cloud_step su dt) l l' ->
  Forall (cloud_ok su) l -> Forall (cloud_ok su) l'.
Proof.
  induction 1 as [|c c' l l' St _ IH]; intro F; [constructor|].
  inversion F; subst. constructor; [|auto].
  destruct St as [Es _]. unfold cloud_ok in *. rewrite Es. assumption.
Qed.

(** ** One frame *)

Lemma triple_advance t su inp w post h :
  (forall born accum' interval' cl h',
     spawn_outcome w (spawn_accum w + frame_dt inp) (normal_at h (drawn h))
                   born accum' interval' ->
     Forall2 (cloud_step su (frame_dt inp)) (clouds w) cl ->
     post (mkWorld (update_falling (frame_dt inp) (screen_h su) (falling w ++ born))
                   accum' interval' cl
                   (process_events (start_mouse_pos su) (running w) (events inp)))
          h') ->
  triple t (advance su inp w) post h.
Proof.
  intro H. unfold advance.
  apply triple_bind, triple_spawn; simpl.
  - intro L. apply triple_bind.
    eapply triple_mono;
      [|apply triple_for_each; intros c h1 _; apply triple_update_cloud].
    intros cl h1 F. apply triple_ret. simpl.
    rewrite <- (app_nil_r (falling w)) at 1. apply H; [|exact F].
    left. auto.
  - intros L b h0 Nb. apply triple_bind.
    eapply triple_mono;
      [|apply triple_for_each; intros c h1 _; apply triple_update_cloud].
    intros cl h1 F. apply triple_ret. simpl.
    apply H; [|exact F].
    right. repeat split; auto. exists b. auto.
Qed.

Lemma quiet_advance su inp w : quiet (advance su inp w).
Proof.
  unfold advance. apply quiet_bind; [apply quiet_spawn|]. intro w1.
  apply quiet_bind; [|intro; apply quiet_ret].
  apply quiet_for_each. intro c. apply quiet_update_cloud.
Qed.

(** [advance] never raises. *)
Lemma advance_returns su inp w h :
  exists w' h', advance su inp w h = (Ok w', h').
Proof.
  destruct (triple_returns (advance su inp w) (fun _ _ => True) h) as (w' & h' & E & _).
  - apply triple_advance. auto.
  - eauto.
Qed.

Lemma jittered_interval_floor z : 2 # 100 <= jittered_interval z.
Proof. apply py_max_lower. Qed.

Lemma advance_world_ok su inp w h w' h' :
  world_ok su w -> advance su inp w h = (Ok w', h') -> world_ok su w'.
Proof.
  intros (Hf & Hi & Hn & Hc) E.
  apply (triple_run false (advance su inp w) (fun w1 _ => world_ok su w1) h w' h');
    [|exact E].
  apply triple_advance. intros born accum' interval' cl h1 Sp St.
  unfold world_ok. simpl. repeat split.
  - apply update_falling_active; [apply frame_dt_nonneg | exact Hf |].
    destruct Sp as [(_ & -> & _) | (_ & (b & -> & Nb) & _)];
      [constructor | constructor; [exact Nb | constructor]].
  - destruct Sp as [(_ & _ & _ & ->) | (_ & _ & _ & ->)];
      [exact Hi | apply jittered_interval_floor].
  - rewrite (cloud_steps_length _ _ _ _ St). exact Hn.
  - eapply cloud_steps_ok; eauto.
Qed.

(** ** Startup *)

Lemma compute_pixel_size_min sw : (2 <= compute_pixel_size sw)%Z.
Proof. unfold compute_pixel_size. apply Z.le_max_l. Qed.

Lemma triple_make_cloud_surface t w ht post h :
  (t = true -> (0 <= w)%Z /\ (0 <= ht)%Z) ->
  (forall blobs h', post (mkSurface w ht blobs) h') ->
  triple t (make_cloud_surface w ht) post h.
Proof.
  intros L H. unfold make_cloud_surface.
  apply triple_bind, triple_new_surface; [exact L|]. intros Pw Ph.
  apply triple_bind.
  eapply triple_mono; [|apply (triple_repeat_m t _ (fun _ => True))].
  - intros blobs h1 _. apply triple_ret. simpl. apply H.
  - intro h1.
    apply triple_bind, triple_randint; [intros _; exact Pw|]. intros rx _.
    apply triple_bind, triple_randint;
      [intros _; apply Z.div_pos; [exact Ph | reflexivity]|]. intros ry _.
    apply triple_bind, triple_randint.
    + intros _. apply Z.div_le_compat_l; [exact Ph | split; [reflexivity | discriminate]].
    + intros r _. apply triple_ret. exact I.
Qed.

Lemma triple_new_cloud t sw sh h :
  (t = true -> (0 <= sw)%Z) ->
  triple t (new_cloud sw sh)
         (fun c _ => (sw / 6 <= get_width (cloud_surf c))%Z) h.
Proof.
  intro L. unfold new_cloud.
  apply triple_bind, triple_randint.
  - intro T. apply Z.div_le_compat_l;
      [exact (L T) | split; [reflexivity | discriminate]].
  - intros w [W1 W2].
    apply triple_bind, triple_make_cloud_surface.
    + intro T. specialize (L T). split.
      * apply Z.le_trans with (sw / 6)%Z; [|exact W1].
        apply Z.div_pos; [exact L | reflexivity].
      * apply Z.le_trans with 40%Z; [discriminate | apply Z.le_max_l].
    + intros blobs h1.
      apply triple_bind, triple_uniform. intros cx _.
      apply triple_bind, triple_uniform. intros cy _.
      apply triple_bind, triple_uniform. intros sp _.
      apply triple_ret. simpl. exact W1.
Qed.

Lemma triple_build_scene t sz h :
  (t = true -> (0 <= fst sz)%Z) ->
  triple t (build_scene sz)
         (fun r _ => world_ok (fst r) (snd r) /\
                     screen_w (fst r) = fst sz /\ screen_h (fst r) = snd sz /\
                     falling (snd r) = [] /\ running (snd r) = true) h.
Proof.
  intro L. unfold build_scene. cbv zeta.
  pose proof (compute_pixel_size_min (fst sz)) as Px.
  assert (0 <= Z.of_nat (length (hd [] generate_grass_block_map)) *
               compute_pixel_size (fst sz))%Z as S1
      by (apply Z.mul_nonneg_nonneg; lia).
  assert (0 <= Z.of_nat (length generate_grass_block_map) *
               compute_pixel_size (fst sz))%Z as S2
      by (apply Z.mul_nonneg_nonneg; lia).
  apply triple_bind, triple_new_surface; [auto|]. intros _ _.
  apply triple_bind, triple_new_surface; [auto|]. intros _ _.
  apply triple_bind.
  eapply triple_mono;
    [|apply (triple_repeat_m t _
               (fun c => (fst sz / 6 <= get_width (cloud_surf c))%Z));
      intro h1; apply triple_new_cloud; exact L].
  intros cl h1 [Len Ok]. cbv beta.
  apply triple_bind. unfold triple, mouse_get_pos.
  apply triple_ret. simpl. unfold world_ok. simpl.
  repeat split; auto.
  discriminate.
Qed.

Lemma quiet_make_cloud_surface w ht : quiet (make_cloud_surface w ht).
Proof. unfold make_cloud_surface. quiet_steps. Qed.

Lemma quiet_new_cloud sw sh : quiet (new_cloud sw sh).
Proof.
  unfold new_cloud. cbv zeta.
  apply quiet_bind; [auto with quiet|]. intro w.
  apply quiet_bind; [apply quiet_make_cloud_surface|]. intro surf.
  quiet_steps.
Qed.

Lemma quiet_build_scene sz : quiet (build_scene sz).
Proof.
  unfold build_scene. cbv zeta.
  apply quiet_bind; [auto with quiet|]. intros _.
  apply quiet_bind; [auto with quiet|]. intros _.
  apply quiet_bind; [apply quiet_repeat_m, quiet_new_cloud|]. intro cl.
  apply quiet_bind;
    [intro h; split; [apply same_cursor_refl | discriminate]|]. intro start.
  apply quiet_ret.
Qed.

Lemma hide_cursor_run h : hide_cursor h = (Ok tt, hidden h).
Proof.
  unfold hide_cursor, hidden, bind, set_visible, try_except, set_grab, ret.
  simpl. destruct (grab_supported h); reflexivity.
Qed.

Lemma startup_unfold h :
  (0 <= fst (display_size h))%Z -> (0 <= snd (display_size h))%Z ->
  startup h = build_scene (display_size h) (hidden (set_display_open true h)).
Proof.
  intros W H. unfold startup, bind, display_info, set_mode.
  assert (((fst (display_size h) <? 0) || (snd (display_size h) <? 0))%Z = false)
    as -> by (apply orb_false_iff; split; apply Z.ltb_ge; assumption).
  rewrite hide_cursor_run. reflexivity.
Qed.

(** [set_mode] refuses a negative size before anything else happens. *)
Lemma startup_refused h :
  (fst (display_size h) < 0)%Z \/ (snd (display_size h) < 0)%Z ->
  startup h = (Raise PygameError, h).
Proof.
  intro N. unfold startup, bind, display_info, set_mode.
  assert (((fst (display_size h) <? 0) || (snd (display_size h) <? 0))%Z = true)
    as -> by (apply orb_true_iff; destruct N as [N|N];
              [left | right]; apply Z.ltb_lt; exact N).
  reflexivity.
Qed.

Lemma startup_Ok h r h' :
  startup h = (Ok r, h') ->
  (0 <= fst (display_size h))%Z /\ (0 <= snd (display_size h))%Z /\
  build_scene (display_size h) (hidden (set_display_open true h)) = (Ok r, h').
Proof.
  intro E.
  destruct (Z_lt_ge_dec (fst (display_size h)) 0) as [N|W];
    [rewrite startup_refused in E by (left; exact N); discriminate|].
  destruct (Z_lt_ge_dec (snd (display_size h)) 0) as [N|H];
    [rewrite startup_refused in E by (right; exact N); discriminate|].
  rewrite startup_unfold in E by lia. repeat split; try lia. exact E.
Qed.


(** [startup] succeeds on every display of non-negative size. *)
Lemma startup_returns h :
  (0 <= fst (display_size h))%Z -> (0 <= snd (display_size h))%Z ->
  exists su w h', startup h = (Ok (su, w), h') /\ world_ok su w /\
                  running w = true.
Proof.
  intros L H. rewrite startup_unfold by assumption.
  destruct (triple_returns _ _ _
              (triple_build_scene true (display_size h)
                 (hidden (set_display_open true h)) (fun _ => L)))
    as ([su w] & h' & E & W & _ & _ & _ & R).
  exists su, w, h'. auto.
Qed.

(** The cursor flags at the loop head: hidden, and grabbed exactly where
    the platform can grab. *)
Lemma startup_cursor h r h' :
  startup h = (Ok r, h') ->
  grab_supported h' = grab_supported h /\
  cursor_visible h' = false /\
  input_grab h' = (grab_supported h || input_grab h).
Proof.
  intro E. apply startup_Ok in E. destruct E as (_ & _ & E).
  pose proof (quiet_build_scene (display_size h)
                (hidden (set_display_open true h))) as Q.
  destruct Q as [Qc _].
  rewrite E in Qc. simpl in Qc.
  destruct Qc as (Q1 & Q2 & Q3 & _).
  rewrite Q1, Q2, Q3. unfold hidden. simpl.
  destruct (grab_supported h) eqn:G; simpl; rewrite ?G; repeat split.
Qed.

(** ** Exit state machine *)

Lemma process_events_app start run evs1 evs2 :
  process_events start run (evs1 ++ evs2) =
  process_events start (process_events start run evs1) evs2.
Proof. unfold process_events. apply fold_left_app. Qed.

Lemma process_events_stopped start evs :
  process_events start false evs = false.
Proof.
  unfold process_events. induction evs as [|ev evs IH]; simpl; [reflexivity|].
  destruct ev as [| | |p|]; simpl; try exact IH.
  destruct (negb (pos_eqb p start)); exact IH.
Qed.

(** The fold of the handler is the conjunction the specification reads:
    still running, and no exit trigger in the poll. *)
Lemma process_events_triggers start run evs :
  process_events start run evs =
  run && negb (existsb (is_exit_trigger start) evs).
Proof.
  revert run. induction evs as [|ev evs IH]; intro run.
  - simpl. rewrite andb_true_r. reflexivity.
  - change (process_events start run (ev :: evs))
      with (process_events start (handle_event start run ev) evs).
    rewrite IH. simpl existsb.
    destruct ev as [| | |p|]; simpl; try reflexivity;
      try (rewrite andb_false_r; reflexivity).
    destruct (negb (pos_eqb p start)); simpl;
      [rewrite andb_false_r|]; reflexivity.
Qed.

(** ** Renderer *)

Lemma active_max_life_nonzero b :
  25 # 10 <= max_life b -> Qeq_bool (max_life b) 0 = false.
Proof.
  intro H. destruct (Qeq_bool (max_life b) 0) eqn:E; [|reflexivity].
  apply Qeq_bool_iff in E. lra.
Qed.

Lemma particle_alpha_run b h :
  25 # 10 <= max_life b ->
  particle_alpha b h =
  (Ok (Z.max 0 (Z.min 255 (py_int (255 * (life b / max_life b))))), h).
Proof.
  intro H. unfold particle_alpha, bind, py_div.
  rewrite (active_max_life_nonzero b H). reflexivity.
Qed.

Lemma quiet_draw_particle b : quiet (draw_particle b).
Proof.
  unfold draw_particle, particle_alpha. quiet_steps.
Qed.

Lemma quiet_display_flip inp sprites : quiet (display_flip inp sprites).
Proof.
  unfold display_flip. destruct (fault inp); [apply quiet_raise|].
  intro h. split; [repeat split | discriminate].
Qed.

Lemma quiet_render inp w : quiet (render inp w).
Proof.
  unfold render. apply quiet_bind.
  - apply quiet_for_each. intro b. apply quiet_draw_particle.
  - intro sprites. apply quiet_display_flip.
Qed.

Lemma quiet_frame su inp w : quiet (frame su inp w).
Proof.
  unfold frame. apply quiet_bind; [apply quiet_advance|]. intro w'.
  apply quiet_bind; [apply quiet_render|]. intros _. apply quiet_ret.
Qed.

(** Drawing the particles of a world that satisfies the invariant never
    raises. *)
Lemma triple_draw_particles l h :
  Forall (fun b => 25 # 10 <= max_life b) l ->
  triple true (for_each draw_particle l)
    (fun sprites h' =>
       h' = h /\
       map sprite_alpha sprites =
       map (fun b => Z.max 0 (Z.min 255 (py_int (255 * (life b / max_life b))))) l)
    h.
Proof.
  induction 1 as [|b l Hb _ IH]; simpl.
  - apply triple_ret. auto.
  - apply triple_bind. unfold draw_particle at 1.
    apply triple_bind. unfold triple at 1.
    rewrite (particle_alpha_run b h Hb).
    apply triple_ret. apply triple_bind.
    eapply triple_mono; [|exact IH].
    intros sprites h' [-> E]. apply triple_ret. split; [reflexivity|].
    simpl. rewrite E. reflexivity.
Qed.

Lemma frame_advance su inp w h w' h' :
  frame su inp w h = (Ok w', h') ->
  exists h1, advance su inp w h = (Ok w', h1).
Proof.
  unfold frame. intro E.
  apply bind_Ok in E. destruct E as (w1 & h1 & A & E).
  apply bind_Ok in E. destruct E as (u & h2 & _ & E).
  inversion E; subst. eauto.
Qed.

(** A frame with no platform fault, started in a world that satisfies the
    invariant, runs to its end. *)
Lemma frame_returns su inp w h :
  world_ok su w -> fault inp = None ->
  exists w' h', frame su inp w h = (Ok w', h').
Proof.
  intros W F. destruct (advance_returns su inp w h) as (w' & h1 & A).
  pose proof (advance_world_ok _ _ _ _ _ _ W A) as (Hf & _).
  assert (Forall (fun b => 25 # 10 <= max_life b) (falling w')) as Hm.
  { eapply Forall_impl; [|exact Hf]. intros b Hb. apply Hb. }
  destruct (triple_returns _ _ _ (triple_draw_particles _ h1 Hm))
    as (sprites & h2 & D & -> & _).
  exists w', (set_presented sprites h1).
  unfold frame, bind. rewrite A. unfold render, bind. rewrite D.
  unfold display_flip. rewrite F. reflexivity.
Qed.


(** ** The loop and the [finally] block *)

Lemma main_loop_stopped su frames w h :
  running w = false -> main_loop su frames w h = (Ok w, h).
Proof. intro R. destruct frames; simpl; rewrite R; reflexivity. Qed.

Lemma main_loop_step su inp rest w h :
  running w = true ->
  main_loop su (inp :: rest) w h = bind (frame su inp w) (main_loop su rest) h.
Proof. intro R. simpl. rewrite R. reflexivity. Qed.

Lemma main_loop_cursor su frames w h :
  same_cursor h (snd (main_loop su frames w h)).
Proof.
  revert w h. induction frames as [|inp rest IH]; intros w h; simpl.
  - destruct (running w); apply same_cursor_refl.
  - destruct (running w); [|apply same_cursor_refl].
    unfold bind. destruct (quiet_frame su inp w h) as [Sf _].
    destruct (frame su inp w h) as [[w1|e|] h1]; simpl in *; auto.
    eapply same_cursor_trans; [exact Sf | apply IH].
Qed.

(** The loop returns only in state EXITING. *)
Lemma main_loop_Ok su frames w h w' h' :
  main_loop su frames w h = (Ok w', h') -> running w' = false.
Proof.
  revert w h. induction frames as [|inp rest IH]; intros w h; simpl.
  - destruct (running w) eqn:R; [discriminate|].
    intro E. inversion E; subst. exact R.
  - destruct (running w) eqn:R.
    + intro E. apply bind_Ok in E. destruct E as (w1 & h1 & _ & E). eauto.
    + intro E. inversion E; subst. exact R.
Qed.

Lemma cleanup_run h : cleanup h = (Raise SystemExit, restored h).
Proof.
  unfold cleanup, restore_cursor, restored, bind, try_except, set_visible,
    set_grab, pygame_quit, sys_exit, raise, ret.
  simpl. destruct (grab_supported h); reflexivity.
Qed.

Lemma guarded_loop_run su frames w h :
  guarded_loop su frames w h =
  match main_loop su frames w h with
  | (Pending, h1) => (Pending, h1)
  | (_, h1) => (Raise SystemExit, restored h1)
  end.
Proof.
  unfold guarded_loop, try_finally.
  destruct (main_loop su frames w h) as [[w1|e|] h1];
    try rewrite cleanup_run; reflexivity.
Qed.

(** ** The concrete run *)


Lemma demo_boot_eq :
  startup demo_host = (Ok (demo_setup, demo_world0), demo_host0).
Proof. vm_compute. reflexivity. Qed.






(** ** What one update does, read back from a successful [advance] *)

Lemma advance_inv su inp w h w' h' :
  advance su inp w h = (Ok w', h') ->
  exists born,
    spawn_outcome w (spawn_accum w + frame_dt inp) (normal_at h (drawn h))
                  born (spawn_accum w') (spawn_interval w') /\
    Forall2 (cloud_step su (frame_dt inp)) (clouds w) (clouds w') /\
    falling w' =
      update_falling (frame_dt inp) (screen_h su) (falling w ++ born) /\
    running w' =
      process_events (start_mouse_pos su) (running w) (events inp).
Proof.
  intro E.
  apply (triple_run false (advance su inp w)
           (fun w1 _ =>
              exists born,
                spawn_outcome w (spawn_accum w + frame_dt inp)
                              (normal_at h (drawn h))
                              born (spawn_accum w1) (spawn_interval w1) /\
                Forall2 (cloud_step su (frame_dt inp)) (clouds w) (clouds w1) /\
                falling w1 =
                  update_falling (frame_dt inp) (screen_h su) (falling w ++ born) /\
                running w1 =
                  process_events (start_mouse_pos su) (running w) (events inp))
           h w' h'); [|exact E].
  apply triple_advance. intros born accum' interval' cl h1 Sp St.
  exists born. simpl. auto.
Qed.


(** ** Truncation *)

Lemma py_int_nonneg (q : Q) : 0 <= q -> py_int q = Qfloor q.
Proof.
  destruct q as [n d]. unfold py_int, Qfloor, Qle. simpl.
  intro H. apply Z.quot_div_nonneg; lia.
Qed.


(** ** Binary64 rounding *)

Lemma pow2_pos k : 0 < pow2 k.
Proof. apply Qpower_0_lt. reflexivity. Qed.

Lemma pow2_le a b : (a <= b)%Z -> pow2 a <= pow2 b.
Proof. intro H. apply Qpower_le_compat_l; [exact H | discriminate]. Qed.

Lemma pow2_lt a b : (a < b)%Z -> pow2 a < pow2 b.
Proof. intro H. apply Qpower_lt_compat_l; [exact H | reflexivity]. Qed.

Lemma pow2_lt_inv a b : pow2 a < pow2 b -> (a < b)%Z.
Proof. intro H. apply (Qpower_lt_compat_l_inv 2); [exact H | reflexivity]. Qed.

Lemma pow2_add a b : pow2 (a + b) == pow2 a * pow2 b.
Proof. apply Qpower_plus. discriminate. Qed.

Lemma pow2_Z n : (0 <= n)%Z -> pow2 n == inject_Z (2 ^ n).
Proof. intro H. unfold pow2. rewrite Zpower_Qpower by exact H. reflexivity. Qed.

Lemma pow2_div a b : pow2 a / pow2 b == pow2 (a - b).
Proof.
  unfold Z.sub. rewrite pow2_add. unfold pow2 at 4. rewrite Qpower_opp.
  reflexivity.
Qed.

Lemma py_round_cases q :
  (py_round q = Qfloor q /\ q - inject_Z (Qfloor q) <= 1 # 2) \/
  (py_round q = (Qfloor q + 1)%Z /\ 1 # 2 <= q - inject_Z (Qfloor q)).
Proof.
  unfold py_round. cbv zeta.
  destruct (Qlt_bool (q - inject_Z (Qfloor q)) (1 # 2)) eqn:A.
  - apply Qlt_bool_iff in A. left. split; [reflexivity | lra].
  - apply Qlt_bool_false in A.
    destruct (Qlt_bool (1 # 2) (q - inject_Z (Qfloor q))) eqn:B.
    + right. split; [reflexivity | exact A].
    + apply Qlt_bool_false in B. destruct (Z.even (Qfloor q)).
      * left. split; [reflexivity | exact B].
      * right. split; [reflexivity | exact A].
Qed.

Lemma py_round_comp q q' : q == q' -> py_round q = py_round q'.
Proof.
  intro E. unfold py_round. cbv zeta.
  rewrite <- (Qfloor_comp _ _ E).
  assert (forall a b c, a == b -> Qlt_bool a c = Qlt_bool b c) as L1.
  { intros a b c Eab. destruct (Qlt_bool a c) eqn:X, (Qlt_bool b c) eqn:Y;
      try reflexivity;
      rewrite ?Qlt_bool_iff, ?Qlt_bool_false in *; lra. }
  assert (forall a b c, a == b -> Qlt_bool c a = Qlt_bool c b) as L2.
  { intros a b c Eab. destruct (Qlt_bool c a) eqn:X, (Qlt_bool c b) eqn:Y;
      try reflexivity;
      rewrite ?Qlt_bool_iff, ?Qlt_bool_false in *; lra. }
  assert (q - inject_Z (Qfloor q) == q' - inject_Z (Qfloor q)) as Er by lra.
  rewrite (L1 _ _ _ Er), (L2 _ _ _ Er). reflexivity.
Qed.

Lemma py_round_Z z : py_round (inject_Z z) = z.
Proof.
  destruct (py_round_cases (inject_Z z)) as [[E _] | [_ H]].
  - rewrite E. apply Qfloor_Z.
  - rewrite Qfloor_Z in H. lra.
Qed.

Lemma Qfloor_lower q : inject_Z (Qfloor q) <= q.
Proof. apply Qfloor_le. Qed.
Lemma Qfloor_upper q : q < inject_Z (Qfloor q) + 1.
Proof. pose proof (Qlt_floor q) as H. rewrite inject_Z_plus in H. exact H. Qed.

Lemma py_round_le a b : a <= b -> (py_round a <= py_round b)%Z.
Proof.
  intro L.
  pose proof (Qfloor_resp_le a b L) as F.
  pose proof (Qfloor_lower a). pose proof (Qfloor_upper a).
  pose proof (Qfloor_lower b). pose proof (Qfloor_upper b).
  destruct (Z.eq_dec (Qfloor a) (Qfloor b)) as [E|N].
  - unfold py_round. cbv zeta. rewrite <- E.
    destruct (Qlt_bool (a - inject_Z (Qfloor a)) (1 # 2)) eqn:A1.
    + destruct (Qlt_bool (b - inject_Z (Qfloor a)) (1 # 2));
        [lia | destruct (Qlt_bool (1 # 2) (b - inject_Z (Qfloor a)));
               [lia | destruct (Z.even (Qfloor a)); lia]].
    + apply Qlt_bool_false in A1.
      destruct (Qlt_bool (b - inject_Z (Qfloor a)) (1 # 2)) eqn:B1;
        [apply Qlt_bool_iff in B1; lra|].
      destruct (Qlt_bool (1 # 2) (a - inject_Z (Qfloor a))) eqn:A2.
      * apply Qlt_bool_iff in A2.
        destruct (Qlt_bool (1 # 2) (b - inject_Z (Qfloor a))) eqn:B2;
          [lia | apply Qlt_bool_false in B2; lra].
      * destruct (Qlt_bool (1 # 2) (b - inject_Z (Qfloor a)));
          destruct (Z.even (Qfloor a)); lia.
  - destruct (py_round_cases a) as [[Ea _] | [Ea _]],
             (py_round_cases b) as [[Eb _] | [Eb _]]; lia.
Qed.

Lemma py_round_error q :
  q - (1 # 2) <= inject_Z (py_round q) /\ inject_Z (py_round q) <= q + (1 # 2).
Proof.
  pose proof (Qfloor_lower q). pose proof (Qfloor_upper q).
  destruct (py_round_cases q) as [[E H1] | [E H1]]; rewrite E;
    rewrite ?inject_Z_plus; change (inject_Z 1) with 1; split; lra.
Qed.

(** The binary exponent. *)
Lemma ilog2_spec x : 0 < x -> pow2 (ilog2 x) <= x /\ x < pow2 (ilog2 x + 1).
Proof.
  intro P. destruct x as [n d]. unfold ilog2. cbn [Qnum Qden].
  assert (0 < n)%Z as Pn by (unfold Qlt in P; simpl in P; lia).
  set (a := Z.log2 n). set (b := Z.log2 (Zpos d)).
  destruct (Z.log2_spec n Pn) as [A1 A2]. fold a in A1, A2.
  destruct (Z.log2_spec (Zpos d) ltac:(lia)) as [B1 B2]. fold b in B1, B2.
  assert (0 <= a)%Z as Pa by apply Z.log2_nonneg.
  assert (0 <= b)%Z as Pb by apply Z.log2_nonneg.
  assert (n # d == inject_Z n / inject_Z (Zpos d)) as Ex by apply Qmake_Qdiv.
  assert (0 < inject_Z (Zpos d)) as Pd by reflexivity.
  assert (pow2 a <= inject_Z n) as Qa1
      by (rewrite pow2_Z by exact Pa; rewrite <- Zle_Qle; exact A1).
  assert (inject_Z n < pow2 (a + 1)) as Qa2
      by (rewrite pow2_Z by lia; rewrite <- Zlt_Qlt; replace (a + 1)%Z with (Z.succ a) by lia; exact A2).
  assert (pow2 b <= inject_Z (Zpos d)) as Qb1
      by (rewrite pow2_Z by exact Pb; rewrite <- Zle_Qle; exact B1).
  assert (inject_Z (Zpos d) < pow2 (b + 1)) as Qb2
      by (rewrite pow2_Z by lia; rewrite <- Zlt_Qlt; replace (b + 1)%Z with (Z.succ b) by lia; exact B2).
  (* x < 2^(a-b+1) and 2^(a-b-1) < x *)
  assert (n # d < pow2 (a - b + 1)) as U.
  { rewrite Ex. apply Qlt_shift_div_r; [exact Pd|].
    apply Qlt_le_trans with (pow2 (a + 1)); [exact Qa2|].
    replace (a + 1)%Z with ((a - b + 1) + b)%Z by lia.
    rewrite pow2_add. apply Qmult_le_l; [apply pow2_pos | exact Qb1]. }
  assert (pow2 (a - b - 1) < n # d) as Lw.
  { rewrite Ex. apply Qlt_shift_div_l; [exact Pd|].
    apply Qlt_le_trans with (pow2 a); [|exact Qa1].
    replace a with ((a - b - 1) + (b + 1))%Z at 2 by lia.
    rewrite pow2_add. apply Qmult_lt_l; [apply pow2_pos | exact Qb2]. }
  destruct (Qlt_bool (n # d) (pow2 (a - b))) eqn:C.
  - apply Qlt_bool_iff in C. replace (a - b - 1 + 1)%Z with (a - b)%Z by lia.
    split; [apply Qlt_le_weak; exact Lw | exact C].
  - apply Qlt_bool_false in C. split; [exact C | exact U].
Qed.

Lemma ilog2_unique x e :
  pow2 e <= x -> x < pow2 (e + 1) -> ilog2 x = e.
Proof.
  intros L U.
  assert (0 < x) as P by (apply Qlt_le_trans with (pow2 e); [apply pow2_pos | exact L]).
  destruct (ilog2_spec x P) as [L' U'].
  assert (ilog2 x < e + 1)%Z
    by (apply pow2_lt_inv; apply Qle_lt_trans with x; assumption).
  assert (e < ilog2 x + 1)%Z
    by (apply pow2_lt_inv; apply Qle_lt_trans with x; assumption).
  lia.
Qed.

Lemma ilog2_le x y : 0 < x -> x <= y -> (ilog2 x <= ilog2 y)%Z.
Proof.
  intros P L.
  destruct (ilog2_spec x P) as [Lx Ux].
  destruct (ilog2_spec y ltac:(lra)) as [Ly Uy].
  assert (ilog2 x < ilog2 y + 1)%Z
    by (apply pow2_lt_inv; lra).
  lia.
Qed.

Lemma ilog2_comp x y : 0 < x -> x == y -> ilog2 x = ilog2 y.
Proof.
  intros P E. destruct (ilog2_spec y ltac:(lra)) as [Ly Uy].
  apply ilog2_unique; lra.
Qed.

Lemma to_grid_le k x y : x <= y -> to_grid k x <= to_grid k y.
Proof.
  intro L. unfold to_grid. pose proof (pow2_pos k) as P.
  apply Qmult_le_r; [exact P|]. rewrite <- Zle_Qle. apply py_round_le.
  unfold Qdiv. apply Qmult_le_r; [apply Qinv_lt_0_compat; exact P | exact L].
Qed.

Lemma to_grid_point k z : to_grid k (inject_Z z * pow2 k) == inject_Z z * pow2 k.
Proof.
  unfold to_grid. pose proof (pow2_pos k) as P.
  assert (inject_Z z * pow2 k / pow2 k == inject_Z z) as E
      by (field; lra).
  rewrite (py_round_comp _ _ E), py_round_Z. reflexivity.
Qed.

Lemma to_grid_pow2 k e : (k <= e)%Z -> to_grid k (pow2 e) == pow2 e.
Proof.
  intro L.
  assert (pow2 e == inject_Z (2 ^ (e - k)) * pow2 k) as E.
  { rewrite <- pow2_Z by lia. rewrite <- pow2_add. replace (e - k + k)%Z with e by lia.
    reflexivity. }
  unfold to_grid at 1.
  assert (pow2 e / pow2 k == inject_Z (2 ^ (e - k)) * pow2 k / pow2 k) as E2
      by (rewrite <- E; reflexivity).
  rewrite (py_round_comp _ _ E2). fold (to_grid k (inject_Z (2 ^ (e - k)) * pow2 k)).
  rewrite to_grid_point. symmetry. exact E.
Qed.

Lemma to_grid_opp_pow2 k e : (k <= e)%Z -> to_grid k (- pow2 e) == - pow2 e.
Proof.
  intro L.
  assert (- pow2 e == inject_Z (- 2 ^ (e - k)) * pow2 k) as E.
  { rewrite inject_Z_opp. rewrite <- pow2_Z by lia.
    setoid_replace (- pow2 (e - k) * pow2 k) with (- (pow2 (e - k) * pow2 k)) by ring.
    rewrite <- pow2_add. replace (e - k + k)%Z with e by lia. reflexivity. }
  unfold to_grid at 1.
  assert (- pow2 e / pow2 k == inject_Z (- 2 ^ (e - k)) * pow2 k / pow2 k) as E2
      by (rewrite <- E; reflexivity).
  rewrite (py_round_comp _ _ E2). fold (to_grid k (inject_Z (- 2 ^ (e - k)) * pow2 k)).
  rewrite to_grid_point. symmetry. exact E.
Qed.

Lemma to_grid_0 k : to_grid k 0 == 0.
Proof.
  unfold to_grid.
  assert (0 / pow2 k == inject_Z 0) as E by (unfold Qdiv; ring).
  rewrite (py_round_comp _ _ E), py_round_Z. ring.
Qed.

Lemma to_grid_error k x :
  x - pow2 k * (1 # 2) <= to_grid k x /\ to_grid k x <= x + pow2 k * (1 # 2).
Proof.
  unfold to_grid. pose proof (pow2_pos k) as P.
  destruct (py_round_error (x / pow2 k)) as [L U].
  assert (x == x / pow2 k * pow2 k) as E by (field; lra).
  set (t := x / pow2 k) in *. set (r := inject_Z (py_round t)) in *.
  assert ((t - (1 # 2)) * pow2 k <= r * pow2 k) as L'
      by (apply Qmult_le_r; assumption).
  assert (r * pow2 k <= (t + (1 # 2)) * pow2 k) as U'
      by (apply Qmult_le_r; assumption).
  split; lra.
Qed.

(** Rounding to the nearest double. *)
Lemma ulp_exp_eff x : ulp_exp x = (eff_exp x - 52)%Z.
Proof. reflexivity. Qed.

Lemma round64_zero x : x == 0 -> round64 x = 0.
Proof.
  intro E. unfold round64. apply Qeq_bool_iff in E. rewrite E. reflexivity.
Qed.

Lemma round64_grid x : ~ x == 0 -> round64 x == to_grid (eff_exp x - 52) x.
Proof.
  intro N. unfold round64.
  destruct (Qeq_bool x 0) eqn:E; [apply Qeq_bool_iff in E; contradiction|].
  rewrite Qred_correct. reflexivity.
Qed.

Lemma eff_exp_pos x : 0 < x -> eff_exp x = Z.max (ilog2 x) (-1022).
Proof.
  intro P. unfold eff_exp. f_equal. symmetry. apply ilog2_comp; [exact P|].
  symmetry. apply Qabs_pos. lra.
Qed.

Lemma eff_exp_neg x : x < 0 -> eff_exp x = Z.max (ilog2 (- x)) (-1022).
Proof.
  intro P. unfold eff_exp. f_equal. symmetry. apply ilog2_comp; [lra|].
  symmetry. apply Qabs_neg. lra.
Qed.

Lemma abs_below_binade x : ~ x == 0 -> Qabs x < pow2 (eff_exp x + 1).
Proof.
  intro N. assert (0 < Qabs x) as P.
  { pose proof (Qabs_nonneg x). destruct (Qlt_le_dec 0 (Qabs x)); [assumption|].
    exfalso. apply N. assert (Qabs x == 0) as Z0 by lra.
    destruct (Qabs_Qle_condition x 0) as [F _]. specialize (F ltac:(lra)). lra. }
  destruct (ilog2_spec _ P) as [_ U].
  apply Qlt_le_trans with (pow2 (ilog2 (Qabs x) + 1)); [exact U|].
  apply pow2_le. unfold eff_exp. lia.
Qed.

Lemma abs_above_binade x :
  ~ x == 0 -> (-1022 < eff_exp x)%Z -> pow2 (eff_exp x) <= Qabs x.
Proof.
  intros N H. assert (0 < Qabs x) as P.
  { pose proof (Qabs_nonneg x). destruct (Qlt_le_dec 0 (Qabs x)); [assumption|].
    exfalso. apply N.
    destruct (Qabs_Qle_condition x 0) as [F _]. specialize (F ltac:(lra)). lra. }
  destruct (ilog2_spec _ P) as [L _].
  unfold eff_exp in *. replace (Z.max (ilog2 (Qabs x)) (-1022)) with (ilog2 (Qabs x)) by lia.
  exact L.
Qed.

Lemma round64_pos_bounds x :
  0 < x ->
  0 <= round64 x /\ round64 x <= pow2 (eff_exp x + 1) /\
  ((-1022 < eff_exp x)%Z -> pow2 (eff_exp x) <= round64 x).
Proof.
  intro P. assert (~ x == 0) as N by lra.
  rewrite (round64_grid x N). set (k := (eff_exp x - 52)%Z).
  pose proof (abs_below_binade x N) as U. rewrite Qabs_pos in U by lra.
  split; [|split].
  - rewrite <- (to_grid_0 k). apply to_grid_le. lra.
  - rewrite <- (to_grid_pow2 k (eff_exp x + 1)) by (unfold k; lia).
    apply to_grid_le. lra.
  - intro H. pose proof (abs_above_binade x N H) as L.
    rewrite Qabs_pos in L by lra.
    rewrite <- (to_grid_pow2 k (eff_exp x)) by (unfold k; lia).
    apply to_grid_le. exact L.
Qed.

Lemma round64_neg_bounds x :
  x < 0 ->
  round64 x <= 0 /\ - pow2 (eff_exp x + 1) <= round64 x /\
  ((-1022 < eff_exp x)%Z -> round64 x <= - pow2 (eff_exp x)).
Proof.
  intro P. assert (~ x == 0) as N by lra.
  rewrite (round64_grid x N). set (k := (eff_exp x - 52)%Z).
  pose proof (abs_below_binade x N) as U. rewrite Qabs_neg in U by lra.
  split; [|split].
  - rewrite <- (to_grid_0 k). apply to_grid_le. lra.
  - rewrite <- (to_grid_opp_pow2 k (eff_exp x + 1)) by (unfold k; lia).
    apply to_grid_le. lra.
  - intro H. pose proof (abs_above_binade x N H) as L.
    rewrite Qabs_neg in L by lra.
    rewrite <- (to_grid_opp_pow2 k (eff_exp x)) by (unfold k; lia).
    apply to_grid_le. lra.
Qed.

Lemma eff_exp_le_pos x y : 0 < x -> x <= y -> (eff_exp x <= eff_exp y)%Z.
Proof.
  intros P L. rewrite (eff_exp_pos x P), (eff_exp_pos y ltac:(lra)).
  pose proof (ilog2_le x y P L). lia.
Qed.

Lemma eff_exp_le_neg x y : y < 0 -> x <= y -> (eff_exp y <= eff_exp x)%Z.
Proof.
  intros P L. rewrite (eff_exp_neg y P), (eff_exp_neg x ltac:(lra)).
  pose proof (ilog2_le (- y) (- x) ltac:(lra) ltac:(lra)). lia.
Qed.

Lemma eff_exp_min x : (-1022 <= eff_exp x)%Z.
Proof. unfold eff_exp. lia. Qed.

Theorem round64_le x y : x <= y -> round64 x <= round64 y.
Proof.
  intro L.
  destruct (Q_dec x 0) as [[Xn | Xp] | X0].
  - (* x < 0 *)
    destruct (round64_neg_bounds x Xn) as (X1 & X2 & X3).
    destruct (Q_dec y 0) as [[Yn | Yp] | Y0].
    + destruct (round64_neg_bounds y Yn) as (Y1 & Y2 & Y3).
      pose proof (eff_exp_le_neg x y Yn L) as E.
      destruct (Z.eq_dec (eff_exp x) (eff_exp y)) as [Ee | Ne].
      * rewrite (round64_grid x), (round64_grid y) by lra.
        rewrite Ee. apply to_grid_le. exact L.
      * pose proof (eff_exp_min y).
        specialize (X3 ltac:(lia)).
        apply Qle_trans with (- pow2 (eff_exp x)); [exact X3|].
        apply Qle_trans with (- pow2 (eff_exp y + 1)); [|exact Y2].
        apply Qopp_le_compat. apply pow2_le. lia.
    + destruct (round64_pos_bounds y Yp) as (Y1 & _). lra.
    + rewrite (round64_zero y Y0). exact X1.
  - (* 0 < x *)
    destruct (round64_pos_bounds x Xp) as (X1 & X2 & X3).
    assert (0 < y) as Yp by lra.
    destruct (round64_pos_bounds y Yp) as (Y1 & Y2 & Y3).
    pose proof (eff_exp_le_pos x y Xp L) as E.
    destruct (Z.eq_dec (eff_exp x) (eff_exp y)) as [Ee | Ne].
    + rewrite (round64_grid x), (round64_grid y) by lra.
      rewrite Ee. apply to_grid_le. exact L.
    + pose proof (eff_exp_min x).
      specialize (Y3 ltac:(lia)).
      apply Qle_trans with (pow2 (eff_exp x + 1)); [exact X2|].
      apply Qle_trans with (pow2 (eff_exp y)); [|exact Y3].
      apply pow2_le. lia.
  - (* x == 0 *)
    rewrite (round64_zero x X0).
    destruct (Q_dec y 0) as [[Yn | Yp] | Y0].
    + lra.
    + apply (round64_pos_bounds y Yp).
    + rewrite (round64_zero y Y0). lra.
Qed.

Lemma round64_comp x y : x == y -> round64 x = round64 y.
Proof.
  intro E. destruct (Qeq_dec x 0) as [Z0|N].
  - rewrite (round64_zero x Z0), (round64_zero y); [reflexivity | lra].
  - unfold round64.
    destruct (Qeq_bool x 0) eqn:Ex; [apply Qeq_bool_iff in Ex; contradiction|].
    destruct (Qeq_bool y 0) eqn:Ey; [apply Qeq_bool_iff in Ey; lra|].
    apply Qred_complete.
    assert (ulp_exp x = ulp_exp y) as Eu.
    { unfold ulp_exp. f_equal. f_equal. apply ilog2_comp.
      - pose proof (Qabs_nonneg x). destruct (Qlt_le_dec 0 (Qabs x)); [assumption|].
        exfalso. apply N.
        destruct (Qabs_Qle_condition x 0) as [F _]. specialize (F ltac:(lra)). lra.
      - rewrite E. reflexivity. }
    rewrite Eu.
    assert (x / pow2 (ulp_exp y) == y / pow2 (ulp_exp y)) as Eq by (rewrite E; reflexivity).
    rewrite (py_round_comp _ _ Eq). reflexivity.
Qed.

Lemma round64_error x :
  x - pow2 (ulp_exp x) * (1 # 2) <= round64 x /\
  round64 x <= x + pow2 (ulp_exp x) * (1 # 2).
Proof.
  pose proof (pow2_pos (ulp_exp x)).
  destruct (Qeq_dec x 0) as [Z0|N].
  - rewrite (round64_zero x Z0). split; lra.
  - rewrite (round64_grid x N). apply to_grid_error.
Qed.

Lemma to_grid_comp k x y : x == y -> to_grid k x == to_grid k y.
Proof.
  intro E. apply Qle_antisym; apply to_grid_le; rewrite E; apply Qle_refl.
Qed.

Lemma to_grid_multiple k k' n :
  (k' <= k)%Z -> to_grid k' (inject_Z n * pow2 k) == inject_Z n * pow2 k.
Proof.
  intro L.
  assert (inject_Z n * pow2 k == inject_Z (n * 2 ^ (k - k')) * pow2 k') as E.
  { rewrite inject_Z_mult, <- pow2_Z by lia.
    rewrite <- Qmult_assoc, <- pow2_add.
    replace (k - k' + k')%Z with k by lia. reflexivity. }
  rewrite (to_grid_comp _ _ _ E), to_grid_point. symmetry. exact E.
Qed.

Lemma Qabs_zero x : Qabs x == 0 -> x == 0.
Proof.
  intro E. destruct (Qabs_Qle_condition x 0) as [F _].
  specialize (F ltac:(lra)). lra.
Qed.

Lemma eff_exp_below x e :
  ~ x == 0 -> (-1022 <= e)%Z -> Qabs x < pow2 (e + 1) -> (eff_exp x <= e)%Z.
Proof.
  intros N M U.
  assert (0 < Qabs x) as P.
  { pose proof (Qabs_nonneg x). destruct (Qlt_le_dec 0 (Qabs x)); [assumption|].
    exfalso. apply N, Qabs_zero. lra. }
  destruct (ilog2_spec _ P) as [L _].
  assert (ilog2 (Qabs x) < e + 1)%Z by (apply pow2_lt_inv; lra).
  unfold eff_exp. lia.
Qed.

Lemma eff_exp_pow2 x e :
  (-1022 <= e)%Z -> Qabs x == pow2 e -> eff_exp x = e.
Proof.
  intros M E. unfold eff_exp.
  assert (ilog2 (Qabs x) = e) as ->; [|lia].
  apply ilog2_unique; rewrite E; [apply Qle_refl | apply pow2_lt; lia].
Qed.

(** A double is a fixed point of the rounding. *)
Theorem round64_idem x : round64 (round64 x) = round64 x.
Proof.
  destruct (Qeq_dec x 0) as [Z0|N].
  { rewrite (round64_zero x Z0). reflexivity. }
  destruct (Qeq_dec (round64 x) 0) as [Y0|Ny].
  { rewrite (round64_zero _ Y0). unfold round64 in *.
    destruct (Qeq_bool x 0); [reflexivity|].
    rewrite Qred_correct in Y0. rewrite (Qred_complete _ _ Y0). reflexivity. }
  assert (round64 (round64 x) == round64 x) as E.
  { rewrite (round64_grid _ Ny).
    pose proof (eff_exp_min x) as M.
    assert (Qabs (round64 x) <= pow2 (eff_exp x + 1)) as B.
    { apply Qabs_Qle_condition.
      destruct (Q_dec x 0) as [[Xn | Xp] | X0]; [| |contradiction].
      - destruct (round64_neg_bounds x Xn) as (B1 & B2 & _).
        pose proof (pow2_pos (eff_exp x + 1)). split; lra.
      - destruct (round64_pos_bounds x Xp) as (B1 & B2 & _).
        pose proof (pow2_pos (eff_exp x + 1)). split; lra. }
    destruct (Qle_lt_or_eq _ _ B) as [Lt | Eq].
    - pose proof (eff_exp_below _ _ Ny M Lt) as Le.
      set (k' := (eff_exp (round64 x) - 52)%Z).
      transitivity (to_grid (eff_exp x - 52) x);
        [|symmetry; apply round64_grid; exact N].
      rewrite (to_grid_comp k' _ _ (round64_grid x N)).
      unfold to_grid at 2 3.
      apply to_grid_multiple. unfold k'. lia.
    - assert (-1022 <= eff_exp x + 1)%Z as M' by lia.
      rewrite (eff_exp_pow2 _ _ M' Eq).
      destruct (Qlt_le_dec (round64 x) 0) as [Neg | Pos].
      + rewrite Qabs_neg in Eq by lra.
        assert (round64 x == - pow2 (eff_exp x + 1)) as Ev by lra.
        rewrite (to_grid_comp _ _ _ Ev), Ev.
        apply to_grid_opp_pow2. lia.
      + rewrite Qabs_pos in Eq by lra.
        rewrite (to_grid_comp _ _ _ Eq), Eq.
        apply to_grid_pow2. lia. }
  assert (exists B, round64 x = Qred B) as [B HB].
  { unfold round64.
    destruct (Qeq_bool x 0) eqn:Ex; [apply Qeq_bool_iff in Ex; contradiction|].
    eexists. reflexivity. }
  remember (round64 x) as y eqn:Hy.
  unfold round64 in E |- *.
  destruct (Qeq_bool y 0) eqn:Ey; [apply Qeq_bool_iff in Ey; contradiction|].
  rewrite HB at 4. apply Qred_complete.
  rewrite Qred_correct in E. rewrite E, HB. apply Qred_correct.
Qed.

(** ** Doubles *)

Lemma round64_nonneg x : 0 <= x -> 0 <= round64 x.
Proof. intro H. apply round64_le in H. exact H. Qed.

Lemma is_double_round x : is_double (round64 x).
Proof. unfold is_double. rewrite round64_idem. reflexivity. Qed.

(** Rounding does not cross a double. *)
Lemma round64_upper x c : is_double c -> x <= c -> round64 x <= c.
Proof. unfold is_double. intros D L. apply round64_le in L. lra. Qed.

Lemma round64_lower x c : is_double c -> c <= x -> c <= round64 x.
Proof. unfold is_double. intros D L. apply round64_le in L. lra. Qed.

Lemma of_int_nonneg z : (0 <= z)%Z -> 0 <= B64.of_int z.
Proof.
  intro H. unfold B64.of_int. apply round64_nonneg.
  change 0 with (inject_Z 0). rewrite <- Zle_Qle. exact H.
Qed.

(** ** The program in binary64: the random module *)

(** [uniform(a, b)] with [a <= b] lies between the bounds, as far as
    rounding lets them be told: not below the double [a], and not above the
    double nearest to [a + (b - a)]. *)
Lemma triple_uniform64 t a b post h :
  (forall v,
     (0 <= B64.to_float (B64.num_sub b a) ->
      round64 (B64.to_float a) <= v /\
      v <= B64.fadd (B64.to_float a)
                    (round64 (B64.to_float (B64.num_sub b a)))) ->
     post v (consume_draw h)) ->
  triple t (B64.uniform a b) post h.
Proof.
  intro H. unfold B64.uniform. apply triple_bind, triple_random.
  intros u U0 U1. apply triple_ret. apply H. intro D.
  set (d := B64.to_float (B64.num_sub b a)) in *.
  assert (0 <= d * u) as P0 by (apply Qmult_le_0_compat; assumption).
  assert (0 <= d * (1 - u)) as P1 by (apply Qmult_le_0_compat; lra).
  assert (0 <= B64.fmul d u) as F0 by (apply round64_nonneg; exact P0).
  assert (B64.fmul d u <= round64 d) as F1 by (apply round64_le; lra).
  unfold B64.fadd. split; apply round64_le; lra.
Qed.

Lemma triple_gauss64 t mu sigma post h :
  post (B64.fadd mu (B64.fmul (round64 (normal_at h (drawn h))) sigma))
       (consume_draw h) ->
  triple t (B64.gauss mu sigma) post h.
Proof. exact (fun H => H). Qed.

(** A draw of [uniform(0, b)] for a float [b >= 0] is not negative. *)
Lemma uniform64_offset b v :
  0 <= b -> is_double b ->
  (0 <= B64.to_float (B64.num_sub (B64.Float b) (B64.Int 0)) ->
   round64 (B64.to_float (B64.Int 0)) <= v /\
   v <= B64.fadd (B64.to_float (B64.Int 0))
                 (round64 (B64.to_float (B64.num_sub (B64.Float b) (B64.Int 0))))) ->
  0 <= v /\ v <= b.
Proof.
  intros Pb Db H.
  assert (0 <= B64.to_float (B64.num_sub (B64.Float b) (B64.Int 0))) as D.
  { simpl. unfold B64.fsub. apply round64_nonneg.
    change (B64.of_int 0) with 0. lra. }
  destruct (H D) as [L U]. split; [exact L|].
  apply Qle_trans with (1 := U). simpl.
  change (B64.of_int 0) with 0.
  unfold B64.fadd, B64.fsub. rewrite round64_idem.
  apply round64_upper; [exact Db|].
  assert (round64 (b - 0) <= b) by (apply round64_upper; [exact Db | lra]).
  lra.
Qed.

(** A draw of [uniform(a, b)] for two integers [a <= b] is not below the
    double [a]. *)
Lemma uniform64_int_lower a b v :
  (a <= b)%Z -> is_double (inject_Z a) ->
  (0 <= B64.to_float (B64.num_sub (B64.Int b) (B64.Int a)) ->
   round64 (B64.to_float (B64.Int a)) <= v /\
   v <= B64.fadd (B64.to_float (B64.Int a))
                 (round64 (B64.to_float (B64.num_sub (B64.Int b) (B64.Int a))))) ->
  inject_Z a <= v.
Proof.
  intros L Da H.
  assert (0 <= B64.to_float (B64.num_sub (B64.Int b) (B64.Int a))) as D
      by (simpl; apply of_int_nonneg; lia).
  destruct (H D) as [Lo _]. simpl in Lo. unfold B64.of_int in Lo.
  rewrite round64_idem in Lo. unfold is_double in Da. lra.
Qed.

(** ** The program in binary64: particles *)

Lemma frame_dt64_nonneg inp : 0 <= B64.frame_dt inp.
Proof.
  unfold B64.frame_dt. apply round64_nonneg.
  unfold Qdiv. apply Qmult_le_0_compat; [|discriminate].
  apply of_int_nonneg, N2Z.is_nonneg.
Qed.

(** A frame of a millisecond or more lasts far longer than the spacing of
    the doubles a lifetime is taken from. *)
Lemma frame_dt64_ms inp : (1 <= tick_ms inp)%N -> pow2 (-51) < B64.frame_dt inp.
Proof.
  intro T. unfold B64.frame_dt.
  apply Qlt_le_trans with (round64 (1 / 1000)); [vm_compute; reflexivity|].
  apply round64_le. unfold Qdiv. apply Qmult_le_compat_r; [|discriminate].
  unfold B64.of_int. apply round64_lower; [vm_compute; reflexivity|].
  change 1 with (inject_Z 1). rewrite <- Zle_Qle. lia.
Qed.

Lemma newborn_life64 r :
  0 <= r -> r < 1 ->
  let lf := B64.fadd (B64.lit (25 # 10)) (B64.fmul r (B64.lit 2)) in
  is_double lf /\ 25 # 10 <= lf /\ lf <= 45 # 10.
Proof.
  intros R0 R1 lf.
  assert (B64.lit (25 # 10) == 25 # 10) as L25 by (vm_compute; reflexivity).
  assert (B64.lit 2 == 2) as L2 by (vm_compute; reflexivity).
  assert (0 <= B64.fmul r (B64.lit 2) /\ B64.fmul r (B64.lit 2) <= 2)
    as [F0 F1].
  { unfold B64.fmul. split.
    - apply round64_nonneg. apply Qmult_le_0_compat; lra.
    - apply round64_upper; [vm_compute; reflexivity|]. rewrite L2. lra. }
  split; [apply is_double_round|]. unfold lf, B64.fadd. split.
  - apply round64_lower; [vm_compute; reflexivity | lra].
  - apply round64_upper; [vm_compute; reflexivity | lra].
Qed.

Lemma triple_spawn64 t su w post h :
  (spawn_accum w < spawn_interval w -> post w h) ->
  (spawn_interval w <= spawn_accum w ->
   forall b h', B64.newborn_ok su b ->
     post (mkWorld (falling w ++ [b])
                   (B64.fsub (spawn_accum w) (spawn_interval w))
                   (py_max (B64.lit (2 # 100))
                           (B64.jitter (normal_at h (drawn h))))
                   (clouds w) (running w)) h') ->
  triple t (B64.spawn su w) post h.
Proof.
  intros Hno Hyes. unfold B64.spawn.
  destruct (Qle_bool (spawn_interval w) (spawn_accum w)) eqn:E.
  - apply Qle_bool_iff in E.
    apply triple_bind, triple_gauss64.
    apply triple_bind, triple_choice; [discriminate|]. intros sz Hsz.
    assert (sz = 1 \/ sz = 2)%Z as Sz by (simpl in Hsz; intuition).
    apply triple_bind, triple_uniform64. intros bx _.
    apply triple_bind, triple_uniform64. intros off Ho.
    apply triple_bind, triple_uniform64. intros speed Hs.
    apply triple_bind, triple_choice; [discriminate|]. intros col _.
    apply triple_bind, triple_random. intros r R0 R1.
    apply triple_ret. apply (Hyes E).
    destruct (newborn_life64 r R0 R1) as (D & L & U).
    apply uniform64_int_lower in Hs;
      [|discriminate | vm_compute; reflexivity].
    unfold B64.newborn_ok. simpl.
    split; [exact D|]. split; [reflexivity|]. split; [exact L|].
    split; [exact U|]. split; [apply is_double_round|].
    split; [exact Hs|].
    split; [destruct Sz as [-> | ->]; [left; lia | right; reflexivity]|].
    intro Ph. unfold B64.spawn_top.
    assert (0 <= off /\
            off <= B64.fmul (B64.of_int (screen_h su)) (B64.lit (1 # 10)))
      as [O0 O1].
    { apply uniform64_offset; [|apply is_double_round | exact Ho].
      unfold B64.fmul. apply round64_nonneg. apply Qmult_le_0_compat.
      - apply of_int_nonneg. exact Ph.
      - apply round64_nonneg. discriminate. }
    unfold B64.fsub. split.
    + apply round64_le. lra.
    + apply round64_upper; [apply is_double_round | lra].
  - apply triple_ret. apply Hno.
    apply Qlt_bool_iff. unfold Qlt_bool. rewrite E. reflexivity.
Qed.

Lemma update_falling64_In dt sh l b' :
  In b' (B64.update_falling dt sh l) <->
  exists b, In b l /\ b' = B64.fall dt b /\ keep sh b' = true.
Proof.
  unfold B64.update_falling. rewrite filter_In, in_map_iff. split.
  - intros [[b [E I]] K]. exists b. subst b'. auto.
  - intros [b [I [E K]]]. split; [exists b; auto | exact K].
Qed.

(** The stored lifetime does not grow. *)
Lemma fall64_life_le dt b :
  0 <= dt -> is_double (life b) -> life (B64.fall dt b) <= life b.
Proof.
  intros D Db. simpl. unfold B64.fsub.
  apply round64_upper; [exact Db | lra].
Qed.

(** It shrinks when the frame took a millisecond or more. *)
Lemma fall64_life_lt dt b :
  pow2 (-51) < dt -> is_double (life b) ->
  0 < life b -> life b <= 45 # 10 ->
  life (B64.fall dt b) < life b.
Proof.
  intros D Db L0 L1. simpl. unfold B64.fsub.
  assert (0 < pow2 (-51)) as P by apply pow2_pos.
  set (v := life b - dt).
  destruct (Qlt_le_dec (inject_Z (-8)) v) as [Hi | Lo].
  - destruct (Qeq_dec v 0) as [Z0 | N].
    + rewrite (round64_zero v Z0). exact L0.
    + assert (Qabs v < pow2 3) as A.
      { apply Qabs_Qlt_condition.
        assert (pow2 3 == 8) as -> by (vm_compute; reflexivity).
        change (inject_Z (-8)) with (- (8)) in Hi. unfold v in *. split; lra. }
      pose proof (eff_exp_below v 2 N ltac:(lia) A) as E.
      destruct (round64_error v) as [_ U].
      assert (pow2 (ulp_exp v) <= pow2 (-50)) as Pw
          by (apply pow2_le; rewrite ulp_exp_eff; lia).
      assert (pow2 (-50) * (1 # 2) == pow2 (-51)) as Hf
          by (vm_compute; reflexivity).
      unfold v in *. lra.
  - apply Qle_lt_trans with (inject_Z (-8)).
    + apply round64_upper; [vm_compute; reflexivity | exact Lo].
    + change (inject_Z (-8)) with (- (8)). lra.
Qed.

(** A particle does not rise. *)
Lemma fall64_y_le dt b :
  0 <= dt -> is_double (y b) -> 0 <= vy b -> y b <= y (B64.fall dt b).
Proof.
  intros D Dy V. simpl. unfold B64.fadd.
  apply round64_lower; [exact Dy|].
  assert (0 <= B64.fmul (vy b) dt)
      by (apply round64_nonneg, Qmult_le_0_compat; assumption).
  lra.
Qed.

(** What the two invariants have in common. *)
Lemma particle64_common su b :
  B64.active_ok su b \/ B64.newborn_ok su b ->
  is_double (life b) /\ 0 < life b /\ life b <= max_life b /\
  25 # 10 <= max_life b /\ max_life b <= 45 # 10 /\
  is_double (y b) /\ 150 <= vy b /\
  ((0 <= screen_h su)%Z -> B64.spawn_top su (size b) <= y b).
Proof.
  intros [H | (a & c & d & e & f & g & _ & i)]; [exact H|].
  split; [exact a|]. rewrite c.
  split; [lra|]. split; [apply Qle_refl|].
  split; [exact d|]. split; [exact e|]. split; [exact f|].
  split; [exact g|]. intro Ph. apply (i Ph).
Qed.

Lemma fall64_active su dt b :
  0 <= dt -> B64.active_ok su b \/ B64.newborn_ok su b ->
  keep (screen_h su) (B64.fall dt b) = true ->
  B64.active_ok su (B64.fall dt b).
Proof.
  intros D H K. apply keep_iff in K. destruct K as [K _].
  destruct (particle64_common su b H) as (Db & L0 & L & M1 & M2 & Dy & V & T).
  pose proof (fall64_life_le dt b D Db) as Le.
  pose proof (fall64_y_le dt b D Dy ltac:(lra)) as Ye.
  unfold B64.active_ok. simpl in *.
  split; [apply is_double_round|]. split; [exact K|]. split; [lra|].
  split; [exact M1|]. split; [exact M2|]. split; [apply is_double_round|].
  split; [exact V|]. intro Ph. specialize (T Ph). lra.
Qed.

Lemma update_falling64_active su dt l born :
  0 <= dt -> Forall (B64.active_ok su) l -> Forall (B64.newborn_ok su) born ->
  Forall (B64.active_ok su)
         (B64.update_falling dt (screen_h su) (l ++ born)).
Proof.
  intros D Hl Hb. apply Forall_forall. intros b' I.
  apply update_falling64_In in I. destruct I as [b [I [E K]]]. subst b'.
  apply (fall64_active su dt b D); [|exact K].
  apply in_app_or in I. rewrite Forall_forall in Hl, Hb.
  destruct I as [I|I]; [left; apply Hl | right; apply Hb]; exact I.
Qed.

(** ** The program in binary64: clouds *)

Lemma triple_update_cloud64 t su dt c h :
  triple t (B64.update_cloud su dt c)
         (fun c' _ => B64.cloud_step su dt c c') h.
Proof.
  unfold B64.update_cloud.
  destruct (Qlt_bool (inject_Z (screen_w su + get_width (cloud_surf c)))
                     (B64.fadd (cloud_x c) (B64.fmul (cloud_speed c) dt))) eqn:E.
  - apply Qlt_bool_iff in E.
    apply triple_bind, triple_uniform64. intros off Ho.
    apply triple_bind, triple_uniform64. intros ny _.
    apply triple_bind, triple_uniform64. intros sp _.
    apply triple_ret. unfold B64.cloud_step. simpl.
    split; [reflexivity|]. split.
    + intros _. exists off. split; [|reflexivity].
      intro P. eapply (uniform64_offset _ off); [|apply is_double_round | exact Ho].
      unfold B64.fmul. apply round64_nonneg. apply Qmult_le_0_compat.
      * apply of_int_nonneg. exact P.
      * apply round64_nonneg. discriminate.
    + intro L. lra.
  - apply Qlt_bool_false in E.
    apply triple_ret. unfold B64.cloud_step. simpl.
    split; [reflexivity|]. split.
    + intro L. lra.
    + intros _. reflexivity.
Qed.

Lemma cloud_steps64_length su dt l l' :
  Forall2 (B64.cloud_step su dt) l l' -> length l' = length l.
Proof. intro F. symmetry. eapply Forall2_length; eauto. Qed.

Lemma cloud_steps64_ok su dt l l' :
  Forall2 (B64.cloud_step su dt) l l' ->
  Forall (cloud_ok su) l -> Forall (cloud_ok su) l'.
Proof.
  induction 1 as [|c c' l l' St _ IH]; intro F; [constructor|].
  inversion F; subst. constructor; [|auto].
  destruct St as [Es _]. unfold cloud_ok in *. rewrite Es. assumption.
Qed.

(** ** The program in binary64: one frame *)

Lemma triple_advance64 t su inp w post h :
  (forall born accum' interval' cl h',
     B64.spawn_outcome su w (B64.fadd (spawn_accum w) (B64.frame_dt inp))
                       (normal_at h (drawn h)) born accum' interval' ->
     Forall2 (B64.cloud_step su (B64.frame_dt inp)) (clouds w) cl ->
     post (mkWorld (B64.update_falling (B64.frame_dt inp) (screen_h su)
                                       (falling w ++ born))
                   accum' interval' cl
                   (process_events (start_mouse_pos su) (running w) (events inp)))
          h') ->
  triple t (B64.advance su inp w) post h.
Proof.
  intro H. unfold B64.advance.
  apply triple_bind, triple_spawn64; simpl.
  - intro L. apply triple_bind.
    eapply triple_mono;
      [|apply triple_for_each; intros c h1 _; apply triple_update_cloud64].
    intros cl h1 F. apply triple_ret. simpl.
    rewrite <- (app_nil_r (falling w)) at 1. apply H; [|exact F].
    left. auto.
  - intros L b h0 Nb. apply triple_bind.
    eapply triple_mono;
      [|apply triple_for_each; intros c h1 _; apply triple_update_cloud64].
    intros cl h1 F. apply triple_ret. simpl.
    apply H; [|exact F].
    right. repeat split; auto. exists b. auto.
Qed.

(** What one update does, read back from a successful [advance]. *)
Lemma advance64_inv su inp w h w' h' :
  B64.advance su inp w h = (Ok w', h') ->
  exists born,
    B64.spawn_outcome su w (B64.fadd (spawn_accum w) (B64.frame_dt inp))
                      (normal_at h (drawn h))
                      born (spawn_accum w') (spawn_interval w') /\
    Forall2 (B64.cloud_step su (B64.frame_dt inp)) (clouds w) (clouds w') /\
    falling w' =
      B64.update_falling (B64.frame_dt inp) (screen_h su) (falling w ++ born) /\
    running w' =
      process_events (start_mouse_pos su) (running w) (events inp).
Proof.
  intro E.
  apply (triple_run false (B64.advance su inp w)
           (fun w1 _ =>
              exists born,
                B64.spawn_outcome su w (B64.fadd (spawn_accum w) (B64.frame_dt inp))
                                  (normal_at h (drawn h))
                                  born (spawn_accum w1) (spawn_interval w1) /\
                Forall2 (B64.cloud_step su (B64.frame_dt inp))
                        (clouds w) (clouds w1) /\
                falling w1 =
                  B64.update_falling (B64.frame_dt inp) (screen_h su)
                                     (falling w ++ born) /\
                running w1 =
                  process_events (start_mouse_pos su) (running w) (events inp))
           h w' h'); [|exact E].
  apply triple_advance64. intros born accum' interval' cl h1 Sp St.
  exists born. simpl. auto.
Qed.

Lemma spawn_outcome64_born su w accum z born accum' interval' :
  B64.spawn_outcome su w accum z born accum' interval' ->
  Forall (B64.newborn_ok su) born /\ (length born <= 1)%nat.
Proof.
  intros [(_ & -> & _) | (_ & (b & -> & Nb) & _)]; simpl; split;
    try constructor; auto.
Qed.

Lemma advance64_world_ok su inp w h w' h' :
  B64.world_ok su w -> B64.advance su inp w h = (Ok w', h') ->
  B64.world_ok su w'.
Proof.
  intros (Hf & Hi & Hn & Hc) E.
  apply (triple_run false (B64.advance su inp w)
           (fun w1 _ => B64.world_ok su w1) h w' h'); [|exact E].
  apply triple_advance64. intros born accum' interval' cl h1 Sp St.
  unfold B64.world_ok. simpl. repeat split.
  - apply update_falling64_active; [apply frame_dt64_nonneg | exact Hf |].
    apply (spawn_outcome64_born _ _ _ _ _ _ _ Sp).
  - destruct Sp as [(_ & _ & _ & ->) | (_ & _ & _ & ->)];
      [exact Hi | apply py_max_lower].
  - rewrite (cloud_steps64_length _ _ _ _ St). exact Hn.
  - eapply cloud_steps64_ok; eauto.
Qed.

Lemma frame64_advance su inp w h w' h' :
  B64.frame su inp w h = (Ok w', h') ->
  exists h1, B64.advance su inp w h = (Ok w', h1).
Proof.
  unfold B64.frame. intro E.
  apply bind_Ok in E. destruct E as (w1 & h1 & A & E).
  apply bind_Ok in E. destruct E as (u & h2 & _ & E).
  inversion E; subst. eauto.
Qed.

(** ** The program in binary64: startup *)

Lemma triple_new_cloud64 t sw sh h :
  (t = true -> (0 <= sw)%Z) ->
  triple t (B64.new_cloud sw sh)
         (fun c _ => (sw / 6 <= get_width (cloud_surf c))%Z) h.
Proof.
  intro L. unfold B64.new_cloud.
  apply triple_bind, triple_randint.
  - intro T. apply Z.div_le_compat_l;
      [exact (L T) | split; [reflexivity | discriminate]].
  - intros w [W1 W2].
    apply triple_bind, triple_make_cloud_surface.
    + intro T. specialize (L T). split.
      * apply Z.le_trans with (sw / 6)%Z; [|exact W1].
        apply Z.div_pos; [exact L | reflexivity].
      * apply Z.le_trans with 40%Z; [discriminate | apply Z.le_max_l].
    + intros blobs h1.
      apply triple_bind, triple_uniform64. intros cx _.
      apply triple_bind, triple_uniform64. intros cy _.
      apply triple_bind, triple_uniform64. intros sp _.
      apply triple_ret. simpl. exact W1.
Qed.

Lemma triple_build_scene64 t sz h :
  (t = true -> (0 <= fst sz)%Z) ->
  triple t (B64.build_scene sz)
         (fun r _ => B64.world_ok (fst r) (snd r) /\
                     screen_w (fst r) = fst sz /\ screen_h (fst r) = snd sz /\
                     pixel_size (fst r) = compute_pixel_size (fst sz) /\
                     falling (snd r) = [] /\ running (snd r) = true) h.
Proof.
  intro L. unfold B64.build_scene. cbv zeta.
  pose proof (compute_pixel_size_min (fst sz)) as Px.
  assert (0 <= Z.of_nat (length (hd [] generate_grass_block_map)) *
               compute_pixel_size (fst sz))%Z as S1
      by (apply Z.mul_nonneg_nonneg; lia).
  assert (0 <= Z.of_nat (length generate_grass_block_map) *
               compute_pixel_size (fst sz))%Z as S2
      by (apply Z.mul_nonneg_nonneg; lia).
  apply triple_bind, triple_new_surface; [auto|]. intros _ _.
  apply triple_bind, triple_new_surface; [auto|]. intros _ _.
  apply triple_bind.
  eapply triple_mono;
    [|apply (triple_repeat_m t _
               (fun c => (fst sz / 6 <= get_width (cloud_surf c))%Z));
      intro h1; apply triple_new_cloud64; exact L].
  intros cl h1 [Len Ok]. cbv beta.
  apply triple_bind. unfold triple, mouse_get_pos.
  apply triple_ret. simpl. unfold B64.world_ok. simpl.
  repeat split; auto.
  vm_compute. discriminate.
Qed.

Lemma startup64_unfold h :
  (0 <= fst (display_size h))%Z -> (0 <= snd (display_size h))%Z ->
  B64.startup h =
  B64.build_scene (display_size h) (hidden (set_display_open true h)).
Proof.
  intros W H. unfold B64.startup, bind, display_info, set_mode.
  assert (((fst (display_size h) <? 0) || (snd (display_size h) <? 0))%Z = false)
    as -> by (apply orb_false_iff; split; apply Z.ltb_ge; assumption).
  rewrite hide_cursor_run. reflexivity.
Qed.

Lemma startup64_Ok h r h' :
  B64.startup h = (Ok r, h') ->
  (0 <= fst (display_size h))%Z /\ (0 <= snd (display_size h))%Z /\
  B64.build_scene (display_size h) (hidden (set_display_open true h)) =
    (Ok r, h').
Proof.
  intro E.
  destruct (Z_lt_ge_dec (fst (display_size h)) 0) as [N|W].
  { unfold B64.startup, bind, display_info, set_mode in E.
    apply Z.ltb_lt in N. rewrite N in E. discriminate. }
  destruct (Z_lt_ge_dec (snd (display_size h)) 0) as [N|H].
  { unfold B64.startup, bind, display_info, set_mode in E.
    apply Z.ltb_lt in N. rewrite N, orb_true_r in E. discriminate. }
  rewrite startup64_unfold in E by lia. repeat split; try lia. exact E.
Qed.

Lemma startup64_world_ok h su w h' :
  B64.startup h = (Ok (su, w), h') ->
  B64.world_ok su w /\ pixel_size su = compute_pixel_size (screen_w su).
Proof.
  intro E. apply startup64_Ok in E. destruct E as (_ & _ & E).
  pose proof (triple_build_scene64 false (display_size h)
                (hidden (set_display_open true h))) as T.
  apply (triple_run _ _ _ _ _ _ (T ltac:(discriminate))) in E.
  simpl in E. destruct E as (W & -> & _ & Px & _). auto.
Qed.

Lemma reachable64_world_ok su w : B64.reachable su w -> B64.world_ok su w.
Proof.
  induction 1 as [h w h' E | w inp h w' h' _ IH _ E].
  - apply startup64_world_ok in E. apply E.
  - apply frame64_advance in E. destruct E as (h1 & A).
    eapply advance64_world_ok; eauto.
Qed.

Lemma play64_reachable su frames w h w' h' :
  B64.reachable su w -> B64.play su frames w h = (Ok w', h') ->
  B64.reachable su w'.
Proof.
  revert w h. induction frames as [|inp rest IH]; intros w h R; simpl.
  - intro E. inversion E; subst. exact R.
  - destruct (running w) eqn:Rn.
    + intro E. apply bind_Ok in E. destruct E as (w1 & h1 & F & E).
      eapply IH; [|exact E]. eapply B64.reach_frame; eauto.
    + intro E. inversion E; subst. exact R.
Qed.

(** ** The program in binary64: the renderer *)

Lemma draw_particle64_Ok b h s h' :
  B64.draw_particle b h = (Ok s, h') -> s = B64.sprite_of b /\ h' = h.
Proof.
  unfold B64.draw_particle, B64.particle_alpha, B64.fdiv, bind.
  destruct (Qeq_bool (max_life b) 0); [discriminate|].
  unfold ret. intro E. inversion E; subst. auto.
Qed.

Lemma draw_particles64_Ok l h sprites h' :
  for_each B64.draw_particle l h = (Ok sprites, h') ->
  sprites = map B64.sprite_of l /\ h' = h.
Proof.
  revert h sprites h'. induction l as [|b l IH]; intros h sprites h' E.
  - inversion E; subst. auto.
  - simpl in E. apply bind_Ok in E. destruct E as (s & h1 & D & E).
    apply bind_Ok in E. destruct E as (ss & h2 & F & E).
    apply draw_particle64_Ok in D. destruct D as [-> ->].
    apply IH in F. destruct F as [-> ->].
    inversion E; subst. auto.
Qed.

(** The sparkle touches the generator only. *)
Lemma sparkle_draws_presented su h r h' :
  B64.sparkle_draws su h = (r, h') -> presented h' = presented h.
Proof.
  unfold B64.sparkle_draws, bind, random, randint, raise, randbelow, ret.
  cbv zeta.
  repeat match goal with
         | |- context [if ?c then _ else _] => destruct c
         end;
    intro E; inversion E; reflexivity.
Qed.

(** The binary64 fraction and product of line 186 stay in range. *)
Lemma alpha64_product b :
  0 < life b -> life b <= max_life b ->
  let p := B64.fmul (B64.of_int 255) (round64 (life b / max_life b)) in
  0 <= p /\ p <= 255.
Proof.
  intros L0 L1 p.
  assert (0 < max_life b) as Mp by lra.
  assert (0 <= life b / max_life b /\ life b / max_life b <= 1) as [Q0 Q1].
  { split.
    - apply Qlt_le_weak. apply Qlt_shift_div_l; [exact Mp | lra].
    - apply Qle_shift_div_r; [exact Mp | lra]. }
  set (f := round64 (life b / max_life b)) in *.
  assert (0 <= f) as F0 by (apply round64_nonneg; exact Q0).
  assert (f <= 1) as F1
      by (apply round64_upper; [vm_compute; reflexivity | exact Q1]).
  assert (B64.of_int 255 == 255) as E255 by (vm_compute; reflexivity).
  unfold p, B64.fmul. split.
  - apply round64_nonneg. rewrite E255. lra.
  - apply round64_upper; [vm_compute; reflexivity|]. rewrite E255. lra.
Qed.

Lemma particle_alpha64_run b h :
  0 < max_life b ->
  B64.particle_alpha b h = (Ok (B64.alpha_of b), h).
Proof.
  intro H. unfold B64.particle_alpha, bind, B64.fdiv.
  destruct (Qeq_bool (max_life b) 0) eqn:E; [|reflexivity].
  apply Qeq_bool_iff in E. lra.
Qed.

(** ** The concrete run in binary64 *)

Lemma demo64_boot_eq :
  B64.startup demo_host = (Ok (demo64_setup, demo64_world0), demo64_host0).
Proof. vm_compute. reflexivity. Qed.

Lemma demo64_run_eq :
  B64.play demo64_setup (repeat demo_tick 6) demo64_world0 demo64_host0 =
  (Ok demo64_world, demo64_host1).
Proof. vm_compute. reflexivity. Qed.

Lemma demo64_next_eq :
  B64.advance demo64_setup demo_tick demo64_world demo64_host1 =
  (Ok demo64_world', demo64_host').
Proof. vm_compute. reflexivity. Qed.

Lemma demo64_reachable : B64.reachable demo64_setup demo64_world.
Proof.
  eapply play64_reachable; [|exact demo64_run_eq].
  eapply B64.reach_startup. exact demo64_boot_eq.
Qed.

Lemma demo64_block_In : In demo64_block (falling demo64_world).
Proof. vm_compute. left. reflexivity. Qed.

Lemma demo64_block'_In : In demo64_block' (falling demo64_world').
Proof. vm_compute. left. reflexivity. Qed.

(** * The claims *)

(** C1, as the specification states it, fails: line 166 stores the double
    nearest to [life - dt], and the lifetime does not go down by the delta.
    A particle with 2.5 s to live loses, in a frame of 119 ms, an amount
    that is not the delta of that frame; after a second frame of 2381 ms
    it has 2^-51 s left and is still in the active list. *)
Lemma lifetime_step_is_not_exact :
  let su := mkSetup 1920 1080 34 (0, 0)%Z in
  let b := mkFallingBlock 0 (- (34)) 34 150 GRASS_TOP (25 # 10) (25 # 10) in
  let dt1 := B64.frame_dt (mkFrameInput 119 [] None) in
  let dt2 := B64.frame_dt (mkFrameInput 2381 [] None) in
  B64.newborn_ok su b /\
  ~ life b - life (B64.fall dt1 b) == dt1 /\
  B64.update_falling dt2 1080 (B64.update_falling dt1 1080 [b]) =
    [B64.fall dt2 (B64.fall dt1 b)] /\
  life (B64.fall dt2 (B64.fall dt1 b)) == pow2 (-51).
Proof.
  cbv zeta. split.
  - unfold B64.newborn_ok. simpl.
    split; [vm_compute; reflexivity|]. split; [reflexivity|].
    split; [discriminate|]. split; [discriminate|].
    split; [vm_compute; reflexivity|]. split; [discriminate|].
    split; [left; reflexivity|].
    intros _. split; vm_compute; discriminate.
  - split; [vm_compute; discriminate|].
    split; vm_compute; reflexivity.
Qed.

(** C1, amended.  In every frame, with [born] the zero or one particle
    spawned in it, the update replaces the remaining lifetime of every
    particle of the active list by the double nearest to [life - dt]: the
    new lifetime is within half a unit in the last place of [life - dt],
    it is not above the old one, and it is below it when the frame took a
    millisecond or more.  The updated particle is in the active list after
    the update if and only if its lifetime is positive and its vertical
    position is below [screen_h + 200]; the list after the update holds
    nothing but such updated particles. *)
Theorem particle_update_rounds_and_filters
    (su : Setup) (inp : FrameInput) (w w' : World) (h h' : Host) :
  B64.reachable su w ->
  B64.advance su inp w h = (Ok w', h') ->
  exists born,
    (length born <= 1)%nat /\
    (forall b, In b (falling w ++ born) ->
       let dt := B64.frame_dt inp in
       let b' := B64.fall dt b in
       life b' = round64 (life b - dt) /\
       life b - dt - pow2 (ulp_exp (life b - dt)) * (1 # 2) <= life b' /\
       life b' <= life b - dt + pow2 (ulp_exp (life b - dt)) * (1 # 2) /\
       life b' <= life b /\
       ((1 <= tick_ms inp)%N -> life b' < life b) /\
       (In b' (falling w') <->
        0 < life b' /\ y b' < inject_Z (screen_h su + 200))) /\
    (forall b', In b' (falling w') ->
       exists b, In b (falling w ++ born) /\
                 b' = B64.fall (B64.frame_dt inp) b).
Proof.
  intros R A.
  pose proof (reachable64_world_ok su w R) as (Hf & _).
  apply advance64_inv in A. destruct A as (born & Sp & _ & F & _).
  destruct (spawn_outcome64_born _ _ _ _ _ _ _ Sp) as [Hb Len].
  exists born. split; [exact Len|]. rewrite F. split.
  - intros b I. cbv zeta.
    assert (is_double (life b) /\ 0 < life b /\ life b <= 45 # 10)
      as (Db & L0 & L1).
    { rewrite Forall_forall in Hf, Hb.
      assert (B64.active_ok su b \/ B64.newborn_ok su b) as Ok
          by (apply in_app_or in I; destruct I as [I|I]; auto).
      destruct (particle64_common su b Ok) as (a & b0 & c & _ & e & _).
      repeat split; try assumption. lra. }
    split; [reflexivity|].
    destruct (round64_error (life b - B64.frame_dt inp)) as [E1 E2].
    split; [exact E1|]. split; [exact E2|].
    split; [apply fall64_life_le; [apply frame_dt64_nonneg | exact Db]|].
    split.
    + intro T. apply fall64_life_lt; try assumption.
      apply frame_dt64_ms. exact T.
    + rewrite update_falling64_In, <- keep_iff. split.
      * intros (b0 & _ & _ & K). exact K.
      * intro K. exists b. auto.
  - intros b' I'. apply update_falling64_In in I'.
    destruct I' as (b0 & I0 & E0 & _). exists b0. auto.
Qed.

Lemma particle_update_rounds_and_filters_witness :
  B64.reachable demo64_setup demo64_world /\
  B64.advance demo64_setup demo_tick demo64_world demo64_host1 =
    (Ok demo64_world', demo64_host') /\
  exists born,
    (length born <= 1)%nat /\
    (forall b, In b (falling demo64_world ++ born) ->
       let dt := B64.frame_dt demo_tick in
       let b' := B64.fall dt b in
       life b' = round64 (life b - dt) /\
       life b - dt - pow2 (ulp_exp (life b - dt)) * (1 # 2) <= life b' /\
       life b' <= life b - dt + pow2 (ulp_exp (life b - dt)) * (1 # 2) /\
       life b' <= life b /\
       ((1 <= tick_ms demo_tick)%N -> life b' < life b) /\
       (In b' (falling demo64_world') <->
        0 < life b' /\ y b' < inject_Z (screen_h demo64_setup + 200))) /\
    (forall b', In b' (falling demo64_world') ->
       exists b, In b (falling demo64_world ++ born) /\
                 b' = B64.fall (B64.frame_dt demo_tick) b).
Proof.
  split; [exact demo64_reachable|]. split; [exact demo64_next_eq|].
  exact (particle_update_rounds_and_filters
           demo64_setup demo_tick demo64_world demo64_world'
           demo64_host1 demo64_host' demo64_reachable demo64_next_eq).
Defined.

(** The particle of the concrete run was born with 3.5 s; two updates of
    16 ms later its lifetime is a double next to 3.468, not 3.468. *)
Example demo64_block_ages :
  max_life demo64_block == 35 # 10 /\
  life demo64_block =
    round64 (round64 ((35 # 10) - B64.frame_dt demo_tick)
             - B64.frame_dt demo_tick) /\
  ~ life demo64_block == 3468 # 1000 /\
  falling demo64_world' = [demo64_block'].
Proof.
  split; [vm_compute; reflexivity|].
  split; [vm_compute; reflexivity|].
  split; [vm_compute; discriminate | vm_compute; reflexivity].
Qed.

(** Both ways out of the list: of three particles updated in a frame of
    16 ms, the one whose lifetime was the frame's delta is left with 0 and is
    removed, the one at 1279 falls to the double next to 1281.4, past
    [screen_h + 200], and is removed, and the third stays. *)
Example update_removes_expired_and_fallen :
  let dt := B64.frame_dt demo_tick in
  let expired := mkFallingBlock 10 0 34 150 GRASS_TOP dt (25 # 10) in
  let fallen := mkFallingBlock 20 1279 34 150 DIRT 1 (25 # 10) in
  let alive := mkFallingBlock 30 0 34 150 STONE 1 (25 # 10) in
  life (B64.fall dt expired) == 0 /\
  inject_Z (1080 + 200) <= y (B64.fall dt fallen) /\
  B64.update_falling dt 1080 [expired; fallen; alive] = [B64.fall dt alive].
Proof.
  cbv zeta. split; [vm_compute; reflexivity|].
  split; [vm_compute; discriminate | vm_compute; reflexivity].
Qed.



(** The test of line 171 reads the rounded sum.  On a 1920 pixel display a
    cloud 320 pixels wide at [800 + 2^-42], moving at speed 10 through a
    frame of 144 s, lands on 2240.0, the edge itself, and is not wrapped,
    although the exact sum lies beyond the edge; a cloud a little further on
    is wrapped to a negative position. *)
Example cloud_at_the_edge :
  let su := mkSetup 1920 1080 34 (0, 0)%Z in
  let dt := B64.frame_dt (mkFrameInput 144000 [] None) in
  let surf := mkSurface 320 53 [] in
  let c := mkCloud (3518437208883201 # 4398046511104) 199 surf 10 in
  let d := mkCloud 801 199 surf 10 in
  inject_Z (1920 + 320) < cloud_x c + cloud_speed c * dt /\
  B64.update_cloud su dt c demo_host = (Ok (mkCloud 2240 199 surf 10), demo_host) /\
  cloud_x (outcome_value c (B64.update_cloud su dt d demo_host)) == - (512).
Proof.
  cbv zeta. split; [vm_compute; reflexivity|].
  split; vm_compute; reflexivity.
Qed.

(** C3, as the specification states it, fails: the renderer truncates.  A
    particle with a quarter of its lifetime left (1 s of 4 s) is drawn with
    alpha 63, and 255/4 = 63.75 rounds to 64. *)
Lemma alpha_is_truncated_not_rounded :
  let su := mkSetup 1920 1080 34 (0, 0)%Z in
  let b := mkFallingBlock 0 0 34 150 GRASS_TOP 1 4 in
  B64.active_ok su b /\
  B64.particle_alpha b demo_host = (Ok 63%Z, demo_host) /\
  rounded_alpha (life b / max_life b) = 64%Z /\
  rounded_alpha (round64 (life b / max_life b)) = 64%Z.
Proof.
  cbv zeta. split.
  - unfold B64.active_ok. simpl.
    split; [vm_compute; reflexivity|]. split; [reflexivity|].
    split; [discriminate|]. split; [discriminate|]. split; [discriminate|].
    split; [vm_compute; reflexivity|]. split; [discriminate|].
    intros _. vm_compute. discriminate.
  - split; [vm_compute; reflexivity|]. split; vm_compute; reflexivity.
Qed.

(** C3, amended.  For a particle of the active list, the alpha is
    [int(255 * f)] clamped to [0, 255], where [f] is the binary64 quotient
    [life / max_life] and [255 * f] the binary64 product: the alpha is the
    integer [a] with [a <= 255 * f < a + 1], and it lies in [0, 255] before
    the clamp. *)
Theorem alpha_truncates_binary64_product
    (su : Setup) (inp : FrameInput) (w w' : World) (h h' g : Host)
    (b : FallingBlock) :
  B64.reachable su w ->
  B64.advance su inp w h = (Ok w', h') ->
  In b (falling w') ->
  let f := round64 (life b / max_life b) in
  let p := B64.fmul (B64.of_int 255) f in
  let a := Z.max 0 (Z.min 255 (py_int p)) in
  B64.particle_alpha b g = (Ok a, g) /\
  a = py_int p /\
  inject_Z a <= p /\ p < inject_Z a + 1 /\
  (0 <= a <= 255)%Z.
Proof.
  intros R A I f p a.
  pose proof (reachable64_world_ok su w R) as W.
  pose proof (advance64_world_ok su inp w h w' h' W A) as (Hf & _).
  rewrite Forall_forall in Hf.
  destruct (Hf b I) as (_ & L0 & L1 & M1 & _).
  destruct (alpha64_product b L0 L1) as [P0 P1]. fold f in P0, P1. fold p in P0, P1.
  assert (py_int p = Qfloor p) as T by (apply py_int_nonneg; exact P0).
  pose proof (Qfloor_le p) as Fl.
  pose proof (Qlt_floor p) as Fu.
  rewrite inject_Z_plus in Fu.
  assert (0 <= Qfloor p <= 255)%Z as Rg.
  { split.
    - apply (Qfloor_resp_le 0 p). exact P0.
    - apply (Qfloor_resp_le p 255). exact P1. }
  assert (a = Qfloor p) as Ea by (unfold a; rewrite T; lia).
  split.
  - apply particle_alpha64_run. lra.
  - rewrite T, Ea. repeat split; try assumption; try lia.
Qed.

Lemma alpha_truncates_binary64_product_witness :
  B64.reachable demo64_setup demo64_world /\
  B64.advance demo64_setup demo_tick demo64_world demo64_host1 =
    (Ok demo64_world', demo64_host') /\
  In demo64_block' (falling demo64_world') /\
  let f := round64 (life demo64_block' / max_life demo64_block') in
  let p := B64.fmul (B64.of_int 255) f in
  let a := Z.max 0 (Z.min 255 (py_int p)) in
  B64.particle_alpha demo64_block' demo64_host' = (Ok a, demo64_host') /\
  a = py_int p /\
  inject_Z a <= p /\ p < inject_Z a + 1 /\
  (0 <= a <= 255)%Z.
Proof.
  split; [exact demo64_reachable|]. split; [exact demo64_next_eq|].
  split; [exact demo64_block'_In|].
  exact (alpha_truncates_binary64_product
           demo64_setup demo_tick demo64_world demo64_world'
           demo64_host1 demo64_host' demo64_host' demo64_block'
           demo64_reachable demo64_next_eq demo64_block'_In).
Defined.

(** The alpha follows the rounded product, not the exact one: with
    7093169413108531 / 2^52 s left of 2.625 s the exact value of [255 * f]
    is just below 153 and the binary64 product is 153.0. *)
Example alpha_of_rounded_product :
  let b := mkFallingBlock 0 0 34 150 GRASS_TOP
             (7093169413108531 # 4503599627370496) (2625 # 1000) in
  is_double (life b) /\ is_double (max_life b) /\
  255 * (life b / max_life b) < 153 /\
  B64.fmul (B64.of_int 255) (round64 (life b / max_life b)) == 153 /\
  B64.particle_alpha b demo_host = (Ok 153%Z, demo_host).
Proof.
  cbv zeta. split; [vm_compute; reflexivity|].
  split; [vm_compute; reflexivity|]. split; [vm_compute; reflexivity|].
  split; vm_compute; reflexivity.
Qed.

(** C5.  A frame spawns zero or one particle; a particle is spawned exactly
    when the accumulated time, the binary64 sum of line 140, has reached
    the interval in force.  When one is spawned, the interval becomes the
    Gaussian draw [g = mu + z * sigma] around [mu = BLOCK_SPAWN_RATE] with
    [sigma = 0.4 * mu] where that draw is above 0.02, and 0.02 where it is
    not; the draw is at or above the mean for a non-negative deviate and at
    or below it for a non-positive one.  Otherwise the interval is
    unchanged.  The interval in force is at least 0.02 before and after
    every frame. *)
Theorem spawn_at_most_one_jittered_floor
    (su : Setup) (inp : FrameInput) (w w' : World) (h h' : Host) :
  B64.reachable su w ->
  B64.advance su inp w h = (Ok w', h') ->
  let accum := B64.fadd (spawn_accum w) (B64.frame_dt inp) in
  let floor := B64.lit (2 # 100) in
  let mu := B64.BLOCK_SPAWN_RATE in
  let sigma := B64.fmul mu (B64.lit (4 # 10)) in
  let z := round64 (normal_at h (drawn h)) in
  let g := B64.fadd mu (B64.fmul z sigma) in
  floor <= spawn_interval w /\
  floor <= spawn_interval w' /\
  (0 <= z -> mu <= g) /\ (z <= 0 -> g <= mu) /\
  exists born,
    (length born <= 1)%nat /\
    falling w' =
      B64.update_falling (B64.frame_dt inp) (screen_h su) (falling w ++ born) /\
    (born <> [] <-> spawn_interval w <= accum) /\
    (born = [] ->
     spawn_interval w' = spawn_interval w /\ spawn_accum w' = accum) /\
    (born <> [] ->
     spawn_accum w' = B64.fsub accum (spawn_interval w) /\
     (floor < g -> spawn_interval w' = g) /\
     (g <= floor -> spawn_interval w' = floor)).
Proof.
  intros R A accum floor mu sigma z g.
  pose proof (reachable64_world_ok su w R) as W.
  pose proof (advance64_world_ok su inp w h w' h' W A) as W'.
  destruct W as (_ & Wi & _). destruct W' as (_ & Wi' & _).
  split; [exact Wi|]. split; [exact Wi'|].
  assert (is_double mu) as Dm by apply is_double_round.
  assert (0 <= sigma) as Sg by (vm_compute; discriminate).
  split; [|split].
  - intro Z0. unfold g, B64.fadd. apply round64_lower; [exact Dm|].
    assert (0 <= B64.fmul z sigma)
        by (apply round64_nonneg, Qmult_le_0_compat; assumption).
    lra.
  - intro Z0. unfold g, B64.fadd. apply round64_upper; [exact Dm|].
    assert (B64.fmul z sigma <= 0).
    { unfold B64.fmul. apply (round64_upper _ 0); [reflexivity|].
      assert (0 <= (- z) * sigma) by (apply Qmult_le_0_compat; lra).
      lra. }
    lra.
  - apply advance64_inv in A. destruct A as (born & Sp & _ & F & _).
    exists born. split; [apply (spawn_outcome64_born _ _ _ _ _ _ _ Sp)|].
    split; [exact F|].
    destruct Sp as [(L & -> & -> & ->) | (L & (b & -> & _) & -> & ->)].
    + split; [|split]; try tauto.
      split; [congruence | intro; fold accum in L; lra].
    + split; [|split].
      * split; [intro; exact L | intros _ E; discriminate E].
      * intro E. discriminate E.
      * intros _. split; [reflexivity|].
        change (B64.jitter (normal_at h (drawn h))) with g.
        fold floor. unfold py_max. split.
        -- intro Lt. apply Qlt_bool_iff in Lt. rewrite Lt. reflexivity.
        -- intro Le. apply Qlt_bool_false in Le. rewrite Le. reflexivity.
Qed.

Lemma spawn_at_most_one_jittered_floor_witness :
  let inp := mkFrameInput 80 [] None in
  let r := B64.advance demo64_setup inp demo64_world demo64_host1 in
  let w' := outcome_value (B64.initial_world []) r in
  B64.reachable demo64_setup demo64_world /\
  B64.advance demo64_setup inp demo64_world demo64_host1 = (Ok w', snd r) /\
  let accum := B64.fadd (spawn_accum demo64_world) (B64.frame_dt inp) in
  let floor := B64.lit (2 # 100) in
  let mu := B64.BLOCK_SPAWN_RATE in
  let sigma := B64.fmul mu (B64.lit (4 # 10)) in
  let z := round64 (normal_at demo64_host1 (drawn demo64_host1)) in
  let g := B64.fadd mu (B64.fmul z sigma) in
  floor <= spawn_interval demo64_world /\
  floor <= spawn_interval w' /\
  (0 <= z -> mu <= g) /\ (z <= 0 -> g <= mu) /\
  exists born,
    (length born <= 1)%nat /\
    falling w' =
      B64.update_falling (B64.frame_dt inp) (screen_h demo64_setup)
                         (falling demo64_world ++ born) /\
    (born <> [] <-> spawn_interval demo64_world <= accum) /\
    (born = [] ->
     spawn_interval w' = spawn_interval demo64_world /\ spawn_accum w' = accum) /\
    (born <> [] ->
     spawn_accum w' = B64.fsub accum (spawn_interval demo64_world) /\
     (floor < g -> spawn_interval w' = g) /\
     (g <= floor -> spawn_interval w' = floor)).
Proof.
  cbv zeta.
  assert (B64.advance demo64_setup (mkFrameInput 80 [] None)
                      demo64_world demo64_host1 =
          (Ok (outcome_value (B64.initial_world [])
                 (B64.advance demo64_setup (mkFrameInput 80 [] None)
                              demo64_world demo64_host1)),
           snd (B64.advance demo64_setup (mkFrameInput 80 [] None)
                            demo64_world demo64_host1))) as A
      by (vm_compute; reflexivity).
  split; [exact demo64_reachable|]. split; [exact A|].
  exact (spawn_at_most_one_jittered_floor
           demo64_setup _ demo64_world _ demo64_host1 _ demo64_reachable A).
Defined.

(** The accumulated time is a binary64 sum: frames of 8 ms and 72 ms add
    up to the double below 0.08, so no particle is spawned after them,
    while one frame of 80 ms spawns one. *)
Example spawn_waits_for_the_rounded_sum :
  let su := demo64_setup in
  let w0 := B64.initial_world [] in
  let run frames := outcome_value w0 (B64.play su frames w0 demo_host) in
  spawn_accum (run [mkFrameInput 8 [] None; mkFrameInput 72 [] None])
    < B64.BLOCK_SPAWN_RATE /\
  falling (run [mkFrameInput 8 [] None; mkFrameInput 72 [] None]) = [] /\
  length (falling (run [mkFrameInput 80 [] None])) = 1%nat.
Proof.
  cbv zeta. split; [vm_compute; reflexivity|].
  split; vm_compute; reflexivity.
Qed.





(** C4.  A mouse-motion event polled in a frame: at the position recorded
    at startup the handler leaves the running flag as it found it, and the
    poll ends as it would have without the event; at any other position the
    handler clears the flag and the frame ends in state EXITING. *)
Theorem mouse_motion_exit
    (su : Setup) (inp : FrameInput) (w w' : World) (h h' : Host)
    (p : Z * Z) (before after : list Event) :
  advance su inp w h = (Ok w', h') ->
  events inp = before ++ MOUSEMOTION p :: after ->
  (p = start_mouse_pos su ->
   (forall run, handle_event (start_mouse_pos su) run (MOUSEMOTION p) = run) /\
   running w' =
     process_events (start_mouse_pos su) (running w) (before ++ after)) /\
  (p <> start_mouse_pos su ->
   (forall run, handle_event (start_mouse_pos su) run (MOUSEMOTION p) = false) /\
   running w' = false).
Proof.
  intros A Ev. apply advance_inv in A. destruct A as (_ & _ & _ & _ & Rn).
  rewrite Rn, Ev, !process_events_app.
  change (process_events (start_mouse_pos su) ?r (MOUSEMOTION p :: after))
    with (process_events (start_mouse_pos su)
            (handle_event (start_mouse_pos su) r (MOUSEMOTION p)) after).
  split.
  - intros ->. simpl.
    assert (pos_eqb (start_mouse_pos su) (start_mouse_pos su) = true) as E
        by (apply pos_eqb_eq; reflexivity).
    rewrite E. simpl. split; reflexivity.
  - intro N. simpl.
    assert (pos_eqb p (start_mouse_pos su) = false) as E.
    { destruct (pos_eqb p (start_mouse_pos su)) eqn:E; [|reflexivity].
      apply pos_eqb_eq in E. contradiction. }
    rewrite E. simpl. split; [reflexivity | apply process_events_stopped].
Qed.

Lemma mouse_motion_exit_witness :
  let inp := mkFrameInput 16 [OTHER_EVENT; MOUSEMOTION (101, 100)%Z] None in
  let r := advance demo_setup inp demo_world demo_host1 in
  let w' := outcome_value (initial_world []) r in
  advance demo_setup inp demo_world demo_host1 = (Ok w', snd r) /\
  events inp = [OTHER_EVENT] ++ MOUSEMOTION (101, 100)%Z :: [] /\
  ((101, 100)%Z = start_mouse_pos demo_setup ->
   (forall run,
      handle_event (start_mouse_pos demo_setup) run (MOUSEMOTION (101, 100)%Z)
      = run) /\
   running w' =
     process_events (start_mouse_pos demo_setup) (running demo_world)
                    ([OTHER_EVENT] ++ [])) /\
  ((101, 100)%Z <> start_mouse_pos demo_setup ->
   (forall run,
      handle_event (start_mouse_pos demo_setup) run (MOUSEMOTION (101, 100)%Z)
      = false) /\
   running w' = false).
Proof.
  cbv zeta.
  assert (advance demo_setup
            (mkFrameInput 16 [OTHER_EVENT; MOUSEMOTION (101, 100)%Z] None)
            demo_world demo_host1 =
          (Ok (outcome_value (initial_world [])
                 (advance demo_setup
                    (mkFrameInput 16 [OTHER_EVENT; MOUSEMOTION (101, 100)%Z] None)
                    demo_world demo_host1)),
           snd (advance demo_setup
                  (mkFrameInput 16 [OTHER_EVENT; MOUSEMOTION (101, 100)%Z] None)
                  demo_world demo_host1))) as A
      by (vm_compute; reflexivity).
  split; [exact A|]. split; [reflexivity|].
  exact (mouse_motion_exit demo_setup _ demo_world _ demo_host1 _
           (101, 100)%Z [OTHER_EVENT] [] A eq_refl).
Defined.

(** ** Leaving the loop *)

(** A frame does not wait for inputs: it returns or raises. *)
Lemma frame_outcome su inp w h :
  (exists w' h', frame su inp w h = (Ok w', h') /\
                 running w' =
                   process_events (start_mouse_pos su) (running w) (events inp)) \/
  (exists e h', frame su inp w h = (Raise e, h')).
Proof.
  destruct (quiet_frame su inp w h) as [_ Np].
  destruct (frame su inp w h) as [[w'|e|] h'] eqn:E.
  - left. exists w', h'. split; [reflexivity|].
    apply frame_advance in E. destruct E as (h1 & A).
    apply advance_inv in A. destruct A as (_ & _ & _ & _ & Rn). exact Rn.
  - right. eauto.
  - simpl in Np. congruence.
Qed.

(** The loop leaves when a polled frame carries an exit trigger, or when a
    frame raises: with either among the inputs the run is not [Pending]. *)
Lemma main_loop_leaves su frames w h :
  existsb (fun inp => existsb (is_exit_trigger (start_mouse_pos su)) (events inp))
          frames = true ->
  fst (main_loop su frames w h) <> Pending.
Proof.
  revert w h. induction frames as [|inp rest IH]; intros w h Ex;
    [discriminate|].
  destruct (running w) eqn:Rn;
    [|rewrite main_loop_stopped by exact Rn; discriminate].
  rewrite main_loop_step by exact Rn. unfold bind.
  destruct (frame_outcome su inp w h) as [(w' & h' & E & Rn') | (e & h' & E)];
    rewrite E; [|discriminate].
  simpl in Ex. apply orb_true_iff in Ex. destruct Ex as [Ex|Ex].
  - rewrite process_events_triggers, Ex, andb_false_r in Rn'.
    rewrite main_loop_stopped by exact Rn'. discriminate.
  - apply IH. exact Ex.
Qed.

Lemma main_loop_fault su inp rest w h e :
  running w = true -> fault inp = Some e ->
  exists e' h', main_loop su (inp :: rest) w h = (Raise e', h').
Proof.
  intros Rn F. rewrite main_loop_step by exact Rn. unfold bind.
  destruct (frame_outcome su inp w h) as [(w' & h' & E & _) | (e' & h' & E)].
  - exfalso. unfold frame in E.
    apply bind_Ok in E. destruct E as (w1 & h1 & _ & E).
    apply bind_Ok in E. destruct E as (u & h2 & Rd & _).
    unfold render in Rd. apply bind_Ok in Rd.
    destruct Rd as (sprites & h3 & _ & Fl).
    unfold display_flip in Fl. rewrite F in Fl. discriminate.
  - rewrite E. eauto.
Qed.

(** C8.  When a frame ends with the running flag cleared, the loop returns
    at once with that frame's world, whatever inputs follow; from then on no
    poll and no update sets the flag again, and the loop, entered in that
    world, returns without running a frame. *)
Theorem exiting_is_terminal
    (su : Setup) (inp : FrameInput) (rest : list FrameInput)
    (w w' : World) (h h' : Host) :
  running w = true ->
  frame su inp w h = (Ok w', h') ->
  running w' = false ->
  main_loop su (inp :: rest) w h = (Ok w', h') /\
  (forall evs, process_events (start_mouse_pos su) (running w') evs = false) /\
  (forall inp2 h2 w2 h3,
     advance su inp2 w' h2 = (Ok w2, h3) -> running w2 = false) /\
  (forall frames2 h2, main_loop su frames2 w' h2 = (Ok w', h2)).
Proof.
  intros Rn F Rn'. split; [|split; [|split]].
  - rewrite main_loop_step by exact Rn. unfold bind. rewrite F.
    apply main_loop_stopped. exact Rn'.
  - intro evs. rewrite Rn'. apply process_events_stopped.
  - intros inp2 h2 w2 h3 A. apply advance_inv in A.
    destruct A as (_ & _ & _ & _ & R2).
    rewrite R2, Rn'. apply process_events_stopped.
  - intros frames2 h2. apply main_loop_stopped. exact Rn'.
Qed.

Lemma exiting_is_terminal_witness :
  let inp := mkFrameInput 16 [KEYDOWN] None in
  let r := frame demo_setup inp demo_world demo_host1 in
  let w' := outcome_value (initial_world []) r in
  running demo_world = true /\
  frame demo_setup inp demo_world demo_host1 = (Ok w', snd r) /\
  running w' = false /\
  main_loop demo_setup (inp :: [demo_tick]) demo_world demo_host1 =
    (Ok w', snd r) /\
  (forall evs,
     process_events (start_mouse_pos demo_setup) (running w') evs = false) /\
  (forall inp2 h2 w2 h3,
     advance demo_setup inp2 w' h2 = (Ok w2, h3) -> running w2 = false) /\
  (forall frames2 h2, main_loop demo_setup frames2 w' h2 = (Ok w', h2)).
Proof.
  cbv zeta.
  assert (running demo_world = true) as Rn by (vm_compute; reflexivity).
  assert (frame demo_setup (mkFrameInput 16 [KEYDOWN] None)
                demo_world demo_host1 =
          (Ok (outcome_value (initial_world [])
                 (frame demo_setup (mkFrameInput 16 [KEYDOWN] None)
                        demo_world demo_host1)),
           snd (frame demo_setup (mkFrameInput 16 [KEYDOWN] None)
                      demo_world demo_host1))) as F
      by (vm_compute; reflexivity).
  assert (running (outcome_value (initial_world [])
                     (frame demo_setup (mkFrameInput 16 [KEYDOWN] None)
                            demo_world demo_host1)) = false) as Rn'
      by (vm_compute; reflexivity).
  split; [exact Rn|]. split; [exact F|]. split; [exact Rn'|].
  exact (exiting_is_terminal demo_setup _ [demo_tick] demo_world _
           demo_host1 _ Rn F Rn').
Defined.

Lemma quiet_run {A} (m : M A) h r h' :
  quiet m -> m h = (r, h') -> same_cursor h h'.
Proof. intros Q E. destruct (Q h) as [S _]. rewrite E in S. exact S. Qed.

(** The position the loop compares with is the pointer's at launch. *)
Lemma startup_mouse_pos h su w h1 :
  startup h = (Ok (su, w), h1) -> start_mouse_pos su = mouse_pos h.
Proof.
  intro St. apply startup_Ok in St. destruct St as (_ & _ & St).
  unfold build_scene in St. cbv zeta in St.
  apply bind_Ok in St. destruct St as (s1 & g1 & N1 & St).
  apply bind_Ok in St. destruct St as (s2 & g2 & N2 & St).
  apply bind_Ok in St. destruct St as (cl & g3 & Rp & St).
  apply (quiet_run _ _ _ _ (quiet_new_surface _ _)) in N1.
  apply (quiet_run _ _ _ _ (quiet_new_surface _ _)) in N2.
  apply (quiet_run _ _ _ _ (quiet_repeat_m _ _ (quiet_new_cloud _ _))) in Rp.
  destruct N1 as (_ & _ & _ & M1), N2 as (_ & _ & _ & M2),
           Rp as (_ & _ & _ & M3).
  unfold bind, mouse_get_pos, ret in St. inversion St; subst. simpl.
  rewrite M3, M2, M1. unfold hidden. simpl.
  destruct (grab_supported h); reflexivity.
Qed.

Lemma main_leaves_restored frames h h1 h' su w (r : Result World) :
  input_grab h = false ->
  startup h = (Ok (su, w), h1) ->
  main frames h = (r, h') ->
  r <> Pending ->
  cursor_visible h' = true /\ input_grab h' = false /\
  display_open h' = false /\ r = Raise SystemExit.
Proof.
  intros G0 St Mn Np.
  destruct (startup_cursor h _ _ St) as (Gs & _ & Gr).
  rewrite G0, orb_false_r in Gr.
  unfold main, bind in Mn. rewrite St in Mn. simpl in Mn.
  rewrite guarded_loop_run in Mn.
  pose proof (main_loop_cursor su frames w h1) as (C1 & _ & C3 & _).
  destruct (main_loop su frames w h1) as [[w1|e|] h2]; simpl in *;
    inversion Mn; subst; try congruence;
    unfold restored; rewrite C1;
    destruct (grab_supported h1) eqn:Gh; simpl; repeat split; congruence.
Qed.

(** X18.  Launched with no input grabbed on a display whose width and
    height are both non-negative (so that [set_mode] accepts it), [main]
    leaves the loop as soon as one of the polled frames carries an exit
    trigger (or earlier, if a frame raises): it ends with [SystemExit], the
    cursor visible and the input released. *)
Lemma main_exits_on_trigger frames h :
  input_grab h = false ->
  (0 <= fst (display_size h))%Z ->
  (0 <= snd (display_size h))%Z ->
  existsb (fun inp =>
             existsb (is_exit_trigger (mouse_pos h)) (events inp)) frames = true ->
  exists h', main frames h = (Raise SystemExit, h') /\
             cursor_visible h' = true /\ input_grab h' = false.
Proof.
  intros G0 D D' Ex.
  destruct (startup_returns h D D') as (su & w & h1 & St & _ & _).
  assert (start_mouse_pos su = mouse_pos h) as Sp
      by (eapply startup_mouse_pos; eauto).
  destruct (main frames h) as [r h'] eqn:Mn.
  assert (r <> Pending) as Np.
  { unfold main, bind in Mn. rewrite St in Mn. simpl in Mn.
    rewrite guarded_loop_run in Mn.
    pose proof (main_loop_leaves su frames w h1) as L.
    rewrite Sp in L. specialize (L Ex).
    destruct (main_loop su frames w h1) as [[w1|e|] h2]; simpl in *;
      inversion Mn; subst; congruence. }
  destruct (main_leaves_restored frames h h1 h' su w r G0 St Mn Np)
    as (V & G & _ & ->).
  exists h'. auto.
Qed.

(** C9.  From a launch with no input grabbed, once [startup] has returned,
    every run of [main] that leaves the loop, by an exit trigger or by an
    exception raised in a frame, ends with the cursor visible and the input
    released; the display is closed and the process exits with
    [SystemExit]. *)
Theorem cursor_restored_on_every_exit
    (frames : list FrameInput) (h h1 h' : Host) (su : Setup) (w : World)
    (r : Result World) :
  input_grab h = false ->
  startup h = (Ok (su, w), h1) ->
  main frames h = (r, h') ->
  r <> Pending ->
  cursor_visible h' = true /\ input_grab h' = false /\
  display_open h' = false /\ r = Raise SystemExit.
Proof. exact (main_leaves_restored frames h h1 h' su w r). Qed.

Lemma cursor_restored_on_every_exit_witness :
  let frames := [demo_tick; mkFrameInput 16 [] (Some PygameError)] in
  let r := main frames demo_host in
  input_grab demo_host = false /\
  startup demo_host = (Ok (demo_setup, demo_world0), demo_host0) /\
  main frames demo_host = (fst r, snd r) /\
  fst r <> Pending /\
  cursor_visible (snd r) = true /\ input_grab (snd r) = false /\
  display_open (snd r) = false /\ fst r = Raise SystemExit.
Proof.
  cbv zeta.
  assert (fst (main [demo_tick; mkFrameInput 16 [] (Some PygameError)] demo_host)
          <> Pending) as Np by (vm_compute; discriminate).
  split; [reflexivity|]. split; [exact demo_boot_eq|].
  split; [apply surjective_pairing|]. split; [exact Np|].
  exact (cursor_restored_on_every_exit _ demo_host demo_host0 _
           demo_setup demo_world0 _ eq_refl demo_boot_eq
           (surjective_pairing _) Np).
Defined.

(** ** Bob offset *)

Lemma bob_speed_nonzero : Q2R BOB_SPEED <> 0%R.
Proof. unfold BOB_SPEED, Q2R. simpl. lra. Qed.

(** C7.  The bob offset has period [1 / BOB_SPEED]: for every time [t],
    [bob (t + 1 / BOB_SPEED) = bob t], in real arithmetic. *)
Theorem bob_periodic (t : R) :
  bob t = bob (t + 1 / Q2R BOB_SPEED)%R.
Proof.
  unfold bob. f_equal.
  replace (2 * PI * Q2R BOB_SPEED * (t + 1 / Q2R BOB_SPEED))%R
    with (2 * PI * Q2R BOB_SPEED * t + 2 * PI)%R
    by (field; exact bob_speed_nonzero).
  rewrite sin_plus, sin_2PI, cos_2PI. ring.
Qed.

(** * Further properties of the program *)

(** ** Pixel surfaces *)

(** With cells [pixel_sz] wide, the cell that holds a coordinate is found by
    floor division. *)
Lemma cell_band (o ps k p : Z) :
  (0 < ps)%Z ->
  ((o + k * ps <=? p) && (p <? o + k * ps + ps))%Z = (k =? (p - o) / ps)%Z.
Proof.
  intro P.
  pose proof (Z.div_mod (p - o) ps ltac:(lia)) as D.
  pose proof (Z.mod_pos_bound (p - o) ps P) as B.
  destruct (k =? (p - o) / ps)%Z eqn:E.
  - apply Z.eqb_eq in E. apply andb_true_iff. split.
    + apply Z.leb_le. nia.
    + apply Z.ltb_lt. nia.
  - apply Z.eqb_neq in E. apply andb_false_iff.
    destruct (Z_lt_ge_dec k ((p - o) / ps)).
    + right. apply Z.ltb_ge. nia.
    + left. apply Z.leb_gt. nia.
Qed.

Lemma in_rect_cell (x0 y0 ps ri ci px py : Z) :
  (0 < ps)%Z ->
  in_rect (x0 + ci * ps, y0 + ri * ps, ps, ps)%Z px py =
  ((ci =? (px - x0) / ps) && (ri =? (py - y0) / ps))%Z.
Proof.
  intro P. unfold in_rect.
  rewrite <- (cell_band x0 ps ci px P), <- (cell_band y0 ps ri py P).
  rewrite !andb_assoc. reflexivity.
Qed.

Lemma cell_at_row_nil (k : Z) : cell_at [[]] 0 k = None.
Proof.
  unfold cell_at. simpl. destruct (k <? 0)%Z; [reflexivity|].
  destruct (Z.to_nat k); reflexivity.
Qed.

Lemma cell_at_row_cons (c0 : option Color) (rest : list (option Color)) (k : Z) :
  cell_at [c0 :: rest] 0 k =
  if (k =? 0)%Z then c0 else cell_at [rest] 0 (k - 1).
Proof.
  unfold cell_at. simpl.
  destruct (k <? 0)%Z eqn:N.
  - apply Z.ltb_lt in N.
    destruct (k =? 0)%Z eqn:E; [apply Z.eqb_eq in E; lia|].
    destruct (k - 1 <? 0)%Z eqn:N'; [reflexivity | apply Z.ltb_ge in N'; lia].
  - apply Z.ltb_ge in N. destruct (k =? 0)%Z eqn:E.
    + apply Z.eqb_eq in E. subst k. simpl. destruct c0; reflexivity.
    + apply Z.eqb_neq in E.
      destruct (k - 1 <? 0)%Z eqn:N'; [apply Z.ltb_lt in N'; lia|].
      replace (Z.to_nat k) with (S (Z.to_nat (k - 1))) by lia.
      reflexivity.
Qed.

Lemma cell_at_cons (row : list (option Color)) rest (r c : Z) :
  cell_at (row :: rest) r c =
  if (r =? 0)%Z then cell_at [row] 0 c else cell_at rest (r - 1) c.
Proof.
  unfold cell_at.
  destruct (r =? 0)%Z eqn:E.
  - apply Z.eqb_eq in E. subst r. reflexivity.
  - apply Z.eqb_neq in E. destruct (r <? 0)%Z eqn:N.
    + apply Z.ltb_lt in N. simpl.
      destruct (r - 1 <? 0)%Z eqn:N'; [reflexivity | apply Z.ltb_ge in N'; lia].
    + apply Z.ltb_ge in N.
      destruct (r - 1 <? 0)%Z eqn:N'; [apply Z.ltb_lt in N'; lia|].
      simpl orb.
      replace (Z.to_nat r) with (S (Z.to_nat (r - 1))) by lia.
      reflexivity.
Qed.

Lemma draw_row_size cv x0 y0 ps ri ci row :
  canvas_w (draw_row cv x0 y0 ps ri ci row) = canvas_w cv /\
  canvas_h (draw_row cv x0 y0 ps ri ci row) = canvas_h cv.
Proof.
  revert cv ci. induction row as [|c0 rest IH]; intros cv ci; simpl; [auto|].
  destruct (IH (match c0 with
                | Some c => fill (opaque c)
                              (x0 + ci * ps, y0 + ri * ps, ps, ps)%Z cv
                | None => cv
                end) (ci + 1)%Z) as [W H].
  rewrite W, H. destruct c0; auto.
Qed.

Lemma draw_rows_size cv x0 y0 ps ri rows :
  canvas_w (draw_rows cv x0 y0 ps ri rows) = canvas_w cv /\
  canvas_h (draw_rows cv x0 y0 ps ri rows) = canvas_h cv.
Proof.
  revert cv ri. induction rows as [|row rest IH]; intros cv ri; simpl; [auto|].
  destruct (IH (draw_row cv x0 y0 ps ri 0 row) (ri + 1)%Z) as [W H].
  destruct (draw_row_size cv x0 y0 ps ri 0 row) as [W' H'].
  split; congruence.
Qed.

Lemma in_canvas_same cv cv' px py :
  canvas_w cv' = canvas_w cv -> canvas_h cv' = canvas_h cv ->
  in_canvas cv' px py = in_canvas cv px py.
Proof. unfold in_canvas. intros -> ->. reflexivity. Qed.

Lemma draw_row_pixel cv x0 y0 ps ri ci row px py :
  (0 < ps)%Z ->
  pixel_at (draw_row cv x0 y0 ps ri ci row) px py =
  match (if in_canvas cv px py && (ri =? (py - y0) / ps)%Z
         then cell_at [row] 0 ((px - x0) / ps - ci)
         else None) with
  | Some col => opaque col
  | None => pixel_at cv px py
  end.
Proof.
  intro P. revert cv ci. induction row as [|c0 rest IH]; intros cv ci.
  - simpl. rewrite cell_at_row_nil. destruct (_ && _); reflexivity.
  - simpl draw_row. rewrite IH. rewrite cell_at_row_cons.
    set (cv' := match c0 with
                | Some c => fill (opaque c)
                              (x0 + ci * ps, y0 + ri * ps, ps, ps)%Z cv
                | None => cv
                end).
    assert (in_canvas cv' px py = in_canvas cv px py) as Ic
        by (unfold cv'; destruct c0; reflexivity).
    rewrite Ic.
    replace ((px - x0) / ps - (ci + 1))%Z with ((px - x0) / ps - ci - 1)%Z by lia.
    assert (pixel_at cv' px py =
            if in_canvas cv px py && (ri =? (py - y0) / ps)%Z &&
               ((px - x0) / ps - ci =? 0)%Z
            then match c0 with
                 | Some c => opaque c
                 | None => pixel_at cv px py
                 end
            else pixel_at cv px py) as Pc.
    { unfold cv'. destruct c0 as [c|]; [|destruct (_ && _ && _); reflexivity].
      unfold fill. cbn [pixel_at].
      rewrite (in_rect_cell x0 y0 ps ri ci px py P).
      replace ((px - x0) / ps - ci =? 0)%Z with (ci =? (px - x0) / ps)%Z
        by (destruct (ci =? (px - x0) / ps)%Z eqn:E1,
                     ((px - x0) / ps - ci =? 0)%Z eqn:E2;
            try reflexivity;
            rewrite ?Z.eqb_eq, ?Z.eqb_neq in *; lia).
      destruct (in_canvas cv px py), (ri =? (py - y0) / ps)%Z,
               (ci =? (px - x0) / ps)%Z; reflexivity. }
    rewrite Pc.
    destruct (in_canvas cv px py && (ri =? (py - y0) / ps)%Z); simpl;
      [|reflexivity].
    destruct ((px - x0) / ps - ci =? 0)%Z eqn:E.
    + apply Z.eqb_eq in E.
      replace ((px - x0) / ps - ci - 1)%Z with (-1)%Z by lia.
      assert (cell_at [rest] 0 (-1) = None) as -> by reflexivity.
      destruct c0; reflexivity.
    + reflexivity.
Qed.

Lemma draw_rows_pixel cv x0 y0 ps ri rows px py :
  (0 < ps)%Z ->
  pixel_at (draw_rows cv x0 y0 ps ri rows) px py =
  match (if in_canvas cv px py
         then cell_at rows ((py - y0) / ps - ri) ((px - x0) / ps)
         else None) with
  | Some col => opaque col
  | None => pixel_at cv px py
  end.
Proof.
  intro P. revert cv ri. induction rows as [|row rest IH]; intros cv ri.
  - simpl. assert (forall r c, cell_at [] r c = None) as N.
    { intros r c. unfold cell_at. destruct (_ || _)%bool; [reflexivity|].
      destruct (Z.to_nat r); reflexivity. }
    rewrite N. destruct (in_canvas cv px py); reflexivity.
  - simpl draw_rows. rewrite IH, cell_at_cons.
    destruct (draw_row_size cv x0 y0 ps ri 0 row) as [W H].
    rewrite (in_canvas_same _ _ _ _ W H).
    rewrite (draw_row_pixel cv x0 y0 ps ri 0 row px py P).
    replace ((py - y0) / ps - (ri + 1))%Z with ((py - y0) / ps - ri - 1)%Z by lia.
    replace ((px - x0) / ps - 0)%Z with ((px - x0) / ps)%Z by lia.
    replace (ri =? (py - y0) / ps)%Z with ((py - y0) / ps - ri =? 0)%Z
      by (destruct (ri =? (py - y0) / ps)%Z eqn:E1,
                   ((py - y0) / ps - ri =? 0)%Z eqn:E2;
          try reflexivity;
          rewrite ?Z.eqb_eq, ?Z.eqb_neq in *; lia).
    destruct (in_canvas cv px py); simpl; [|reflexivity].
    destruct ((py - y0) / ps - ri =? 0)%Z eqn:E.
    + apply Z.eqb_eq in E.
      replace ((py - y0) / ps - ri - 1)%Z with (-1)%Z by lia.
      assert (cell_at rest (-1) ((px - x0) / ps) = None) as -> by reflexivity.
      reflexivity.
    + destruct (cell_at rest _ _); reflexivity.
Qed.

Lemma in_rect_empty (l t w h px py : Z) :
  (w <= 0)%Z -> in_rect (l, t, w, h) px py = false.
Proof.
  intro N. unfold in_rect.
  destruct (l <=? px)%Z eqn:A; [|reflexivity].
  destruct (px <? l + w)%Z eqn:B; [|reflexivity].
  apply Z.leb_le in A. apply Z.ltb_lt in B. lia.
Qed.

Lemma draw_row_nothing cv x0 y0 ps ri ci row px py :
  (ps <= 0)%Z -> pixel_at (draw_row cv x0 y0 ps ri ci row) px py = pixel_at cv px py.
Proof.
  intro N. revert cv ci. induction row as [|c0 rest IH]; intros cv ci; simpl;
    [reflexivity|].
  rewrite IH. destruct c0 as [c|]; [|reflexivity].
  unfold fill. cbn [pixel_at]. rewrite in_rect_empty by exact N.
  rewrite andb_false_r. reflexivity.
Qed.

Lemma draw_rows_nothing cv x0 y0 ps ri rows px py :
  (ps <= 0)%Z -> pixel_at (draw_rows cv x0 y0 ps ri rows) px py = pixel_at cv px py.
Proof.
  intro N. revert cv ri. induction rows as [|row rest IH]; intros cv ri; simpl;
    [reflexivity|].
  rewrite IH. apply draw_row_nothing. exact N.
Qed.

Lemma draw_pixel_block_paint
    (surface : Canvas) (x0 y0 : Z) (pixel_map : list (list (option Color)))
    (pixel_sz px py : Z) :
  (0 < pixel_sz)%Z ->
  canvas_w (draw_pixel_block surface x0 y0 pixel_map pixel_sz) = canvas_w surface /\
  canvas_h (draw_pixel_block surface x0 y0 pixel_map pixel_sz) = canvas_h surface /\
  pixel_at (draw_pixel_block surface x0 y0 pixel_map pixel_sz) px py =
  match (if in_canvas surface px py
         then cell_at pixel_map ((py - y0) / pixel_sz) ((px - x0) / pixel_sz)
         else None) with
  | Some col => opaque col
  | None => pixel_at surface px py
  end.
Proof.
  intro P. unfold draw_pixel_block.
  destruct (draw_rows_size surface x0 y0 pixel_sz 0 pixel_map) as [W H].
  split; [exact W|]. split; [exact H|].
  rewrite (draw_rows_pixel surface x0 y0 pixel_sz 0 pixel_map px py P).
  replace ((py - y0) / pixel_sz - 0)%Z with ((py - y0) / pixel_sz)%Z by lia.
  reflexivity.
Qed.

(** X1.  [draw_pixel_block] with a positive pixel size paints pixel
    [(px, py)] of the surface with the opaque colour of the map cell in row
    [(py - y) // pixel_size] and column [(px - x) // pixel_size] when the map
    has a colour there, and leaves every other pixel, and the size of the
    surface, as they were. *)
Theorem draw_pixel_block_pixel
    (surface : Canvas) (x0 y0 : Z) (pixel_map : list (list (option Color)))
    (pixel_sz px py : Z) :
  (0 < pixel_sz)%Z ->
  canvas_w (draw_pixel_block surface x0 y0 pixel_map pixel_sz) = canvas_w surface /\
  canvas_h (draw_pixel_block surface x0 y0 pixel_map pixel_sz) = canvas_h surface /\
  pixel_at (draw_pixel_block surface x0 y0 pixel_map pixel_sz) px py =
  match (if in_canvas surface px py
         then cell_at pixel_map ((py - y0) / pixel_sz) ((px - x0) / pixel_sz)
         else None) with
  | Some col => opaque col
  | None => pixel_at surface px py
  end.
Proof.
  exact (draw_pixel_block_paint surface x0 y0 pixel_map pixel_sz px py).
Qed.

Lemma draw_pixel_block_pixel_witness :
  (0 < 2)%Z /\
  canvas_w (draw_pixel_block (blank_canvas 30 30) 4 4
              generate_grass_block_map 2) = 30%Z /\
  canvas_h (draw_pixel_block (blank_canvas 30 30) 4 4
              generate_grass_block_map 2) = 30%Z /\
  pixel_at (draw_pixel_block (blank_canvas 30 30) 4 4
              generate_grass_block_map 2) 9 5 =
  match (if in_canvas (blank_canvas 30 30) 9 5
         then cell_at generate_grass_block_map ((5 - 4) / 2) ((9 - 4) / 2)
         else None) with
  | Some col => opaque col
  | None => pixel_at (blank_canvas 30 30) 9 5
  end.
Proof.
  split; [reflexivity|].
  exact (draw_pixel_block_pixel (blank_canvas 30 30) 4 4
           generate_grass_block_map 2 9 5 eq_refl).
Defined.

(** That pixel is in cell (0, 2) of the grass block, a grass edge. *)
Example draw_pixel_block_demo :
  pixel_at (draw_pixel_block (blank_canvas 30 30) 4 4
              generate_grass_block_map 2) 9 5 = (86, 160, 36, 255)%Z /\
  pixel_at (draw_pixel_block (blank_canvas 30 30) 4 4
              generate_grass_block_map 2) 5 5 = transparent.
Proof. split; vm_compute; reflexivity. Qed.

(** X2.  With a pixel size of zero or less, [draw_pixel_block] draws
    nothing: every rectangle it fills is empty. *)
Theorem draw_pixel_block_nothing
    (surface : Canvas) (x0 y0 : Z) (pixel_map : list (list (option Color)))
    (pixel_sz px py : Z) :
  (pixel_sz <= 0)%Z ->
  pixel_at (draw_pixel_block surface x0 y0 pixel_map pixel_sz) px py =
  pixel_at surface px py.
Proof.
  intro N. unfold draw_pixel_block. apply draw_rows_nothing. exact N.
Qed.

Lemma draw_pixel_block_nothing_witness :
  (0 <= 0)%Z /\
  pixel_at (draw_pixel_block (fill_all (1, 2, 3, 4)%Z (blank_canvas 30 30)) 4 4
              generate_grass_block_map 0) 9 5 =
  pixel_at (fill_all (1, 2, 3, 4)%Z (blank_canvas 30 30)) 9 5.
Proof.
  split; [discriminate|].
  exact (draw_pixel_block_nothing
           (fill_all (1, 2, 3, 4)%Z (blank_canvas 30 30)) 4 4
           generate_grass_block_map 0 9 5 ltac:(discriminate)).
Defined.

Lemma shade_and_redraw_pixel pixel_map ps w h px py :
  (0 < ps)%Z ->
  pixel_at (shade_and_redraw pixel_map ps (blank_canvas w h) (blank_canvas w h))
           px py =
  pixel_at (draw_pixel_block (blank_canvas w h) 0 0 pixel_map ps) px py.
Proof.
  intro P. unfold shade_and_redraw.
  set (first_pass := draw_pixel_block (blank_canvas w h) 0 0 pixel_map ps).
  set (shadow := fill_all (0, 0, 0, 50)%Z (blank_canvas w h)).
  destruct (draw_pixel_block_paint (blank_canvas w h) 0 0 pixel_map ps px py P)
    as (W1 & H1 & P1). fold first_pass in W1, H1, P1.
  destruct (draw_pixel_block_paint (blit_rgba_sub shadow (3, 3)%Z first_pass)
              0 0 pixel_map ps px py P) as (_ & _ & P2).
  rewrite P2.
  assert (in_canvas (blit_rgba_sub shadow (3, 3)%Z first_pass) px py =
          in_canvas (blank_canvas w h) px py) as Ic
      by (apply in_canvas_same; simpl; assumption).
  rewrite Ic, P1.
  destruct (if in_canvas (blank_canvas w h) px py
            then cell_at pixel_map ((py - 0) / ps) ((px - 0) / ps)
            else None) as [col|] eqn:C; [reflexivity|].
  unfold blit_rgba_sub. cbn [pixel_at]. rewrite P1.
  destruct (in_canvas first_pass px py &&
            in_canvas shadow (px - fst (3, 3))%Z (py - snd (3, 3))%Z);
    [|reflexivity].
  unfold shadow, fill_all, fill. cbn [pixel_at blank_canvas].
  destruct (_ && _); reflexivity.
Qed.

Lemma shade_and_redraw_size pixel_map ps block_surf shadow :
  canvas_w (shade_and_redraw pixel_map ps block_surf shadow) = canvas_w block_surf /\
  canvas_h (shade_and_redraw pixel_map ps block_surf shadow) = canvas_h block_surf.
Proof.
  unfold shade_and_redraw, draw_pixel_block. cbv zeta.
  destruct (draw_rows_size
              (blit_rgba_sub (fill_all (0, 0, 0, 50)%Z shadow) (3, 3)%Z
                 (draw_rows block_surf 0 0 ps 0 pixel_map))
              0 0 ps 0 pixel_map) as [W H].
  destruct (draw_rows_size block_surf 0 0 ps 0 pixel_map) as [W' H'].
  rewrite W, H. cbn [blit_rgba_sub canvas_w canvas_h]. auto.
Qed.

(** The two surfaces of lines 112 and 114 and the three passes over them,
    for any pixel map. *)
Lemma sprite_passes_run (pixel_map : list (list (option Color)))
    (w ht ps : Z) (h : Host) :
  (0 <= w)%Z -> (0 <= ht)%Z ->
  (block_surf <- new_canvas w ht ;;
   shadow <- new_canvas (canvas_w block_surf) (canvas_h block_surf) ;;
   ret (shade_and_redraw pixel_map ps block_surf shadow)) h =
  (Ok (shade_and_redraw pixel_map ps (blank_canvas w ht) (blank_canvas w ht)), h).
Proof.
  intros Pw Ph. unfold bind, new_canvas.
  assert (((w <? 0) || (ht <? 0))%Z = false) as N
      by (apply orb_false_iff; split; apply Z.ltb_ge; assumption).
  rewrite N. unfold ret at 1. cbn [blank_canvas canvas_w canvas_h].
  rewrite N. reflexivity.
Qed.

Lemma grass_block_map_size :
  Z.of_nat (length (hd [] generate_grass_block_map)) = 11%Z /\
  Z.of_nat (length generate_grass_block_map) = 11%Z.
Proof. split; reflexivity. Qed.

(** X3.  For a positive pixel size [build_block_sprite] returns a surface of
    11 by 11 cells whose pixel [(px, py)] is the opaque colour of cell
    [(py // pixel_size, px // pixel_size)] of the grass-block map where the
    map has a colour, and transparent everywhere else: the shadow that is
    subtracted between the two drawing passes leaves no trace. *)
Theorem build_block_sprite_pixels (pixel_sz : Z) (h : Host) :
  (0 < pixel_sz)%Z ->
  exists cv,
    build_block_sprite pixel_sz h = (Ok cv, h) /\
    canvas_w cv = (11 * pixel_sz)%Z /\ canvas_h cv = (11 * pixel_sz)%Z /\
    forall px py,
      pixel_at cv px py =
      match (if in_canvas cv px py
             then cell_at generate_grass_block_map (py / pixel_sz) (px / pixel_sz)
             else None) with
      | Some col => opaque col
      | None => transparent
      end.
Proof.
  intro P. unfold build_block_sprite. cbv zeta.
  destruct grass_block_map_size as [Mw Mh]. rewrite Mw, Mh. clear Mw Mh.
  generalize generate_grass_block_map. intro pixel_map.
  rewrite sprite_passes_run by lia.
  eexists. split; [reflexivity|].
  set (blank := blank_canvas (11 * pixel_sz) (11 * pixel_sz)).
  destruct (shade_and_redraw_size pixel_map pixel_sz blank blank) as [W H].
  split; [exact W|]. split; [exact H|].
  intros px py.
  rewrite (in_canvas_same blank _ px py W H).
  unfold blank. rewrite shade_and_redraw_pixel by exact P. fold blank.
  destruct (draw_pixel_block_paint blank 0 0 pixel_map pixel_sz px py P)
    as (_ & _ & Px).
  rewrite Px, !Z.sub_0_r.
  destruct (if in_canvas blank px py
            then cell_at pixel_map (py / pixel_sz) (px / pixel_sz)
            else None); reflexivity.
Qed.

Lemma build_block_sprite_pixels_witness :
  (0 < 34)%Z /\
  exists cv,
    build_block_sprite 34 demo_host = (Ok cv, demo_host) /\
    canvas_w cv = (11 * 34)%Z /\ canvas_h cv = (11 * 34)%Z /\
    forall px py,
      pixel_at cv px py =
      match (if in_canvas cv px py
             then cell_at generate_grass_block_map (py / 34) (px / 34)
             else None) with
      | Some col => opaque col
      | None => transparent
      end.
Proof.
  split; [reflexivity|].
  exact (build_block_sprite_pixels 34 demo_host eq_refl).
Defined.

(** ** The block on the screen *)

(** X4.  On a display at least 22 pixels wide the pixel size lies between 2
    and 40, the block sprite of 11 cells fits between the screen edges, and
    line 191 centres it: the left and right margins differ by at most one
    pixel. *)
Theorem block_sprite_fits (sw : Z) :
  (22 <= sw)%Z ->
  let ps := compute_pixel_size sw in
  let bw := (11 * ps)%Z in
  let bx := block_x_of sw bw in
  (2 <= ps <= 40)%Z /\
  (0 <= bx)%Z /\ (bx + bw <= sw)%Z /\
  (0 <= (sw - (bx + bw)) - bx <= 1)%Z.
Proof.
  intro S. cbv zeta. unfold block_x_of, compute_pixel_size.
  change (Z.of_nat (length (hd [] generate_grass_block_map))) with 11%Z.
  set (a := (sw / 5)%Z).
  assert (5 * a <= sw < 5 * a + 5)%Z as Ha.
  { unfold a. pose proof (Z.div_mod sw 5 ltac:(lia)).
    pose proof (Z.mod_pos_bound sw 5 ltac:(lia)). lia. }
  set (q := (Z.min a 450 / 11)%Z).
  assert (11 * q <= Z.min a 450 < 11 * q + 11)%Z as Hq.
  { unfold q. pose proof (Z.div_mod (Z.min a 450) 11 ltac:(lia)).
    pose proof (Z.mod_pos_bound (Z.min a 450) 11 ltac:(lia)). lia. }
  set (d := ((sw - 11 * Z.max 2 q) / 2)%Z).
  assert (2 * d <= sw - 11 * Z.max 2 q < 2 * d + 2)%Z as Hd.
  { unfold d. pose proof (Z.div_mod (sw - 11 * Z.max 2 q) 2 ltac:(lia)).
    pose proof (Z.mod_pos_bound (sw - 11 * Z.max 2 q) 2 ltac:(lia)). lia. }
  lia.
Qed.

Lemma block_sprite_fits_witness :
  (22 <= 1920)%Z /\
  let ps := compute_pixel_size 1920 in
  let bw := (11 * ps)%Z in
  let bx := block_x_of 1920 bw in
  (2 <= ps <= 40)%Z /\
  (0 <= bx)%Z /\ (bx + bw <= 1920)%Z /\
  (0 <= (1920 - (bx + bw)) - bx <= 1)%Z.
Proof.
  split; [discriminate|].
  exact (block_sprite_fits 1920 ltac:(discriminate)).
Defined.

(** X5.  For a block of non-negative width and height the sparkle step
    does not raise; it draws no sparkle and consumes one random draw, or it
    consumes three and puts the sparkle inside the closed box of the block,
    both far edges included. *)
Theorem sparkle_in_block (block_x block_y block_w block_h : Z) (h : Host) :
  (0 <= block_w)%Z -> (0 <= block_h)%Z ->
  exists r h',
    sparkle block_x block_y block_w block_h h = (Ok r, h') /\
    match r with
    | None => drawn h' = S (drawn h)
    | Some (rx, ry) =>
        (block_x <= rx <= block_x + block_w)%Z /\
        (block_y <= ry <= block_y + block_h)%Z /\
        drawn h' = S (S (S (drawn h)))
    end.
Proof.
  intros Pw Ph.
  apply (triple_returns (sparkle block_x block_y block_w block_h)).
  unfold sparkle. apply triple_bind, triple_random. intros u _ _.
  destruct (Qlt_bool u (4 # 100)).
  - apply triple_bind, triple_randint; [intros _; lia|]. intros rx Rx.
    apply triple_bind, triple_randint; [intros _; lia|]. intros ry Ry.
    apply triple_ret. auto.
  - apply triple_ret. reflexivity.
Qed.

Lemma sparkle_in_block_witness :
  (0 <= 374)%Z /\ (0 <= 374)%Z /\
  exists r h',
    sparkle 773 353 374 374 demo_host = (Ok r, h') /\
    match r with
    | None => drawn h' = S (drawn demo_host)
    | Some (rx, ry) =>
        (773 <= rx <= 773 + 374)%Z /\
        (353 <= ry <= 353 + 374)%Z /\
        drawn h' = S (S (S (drawn demo_host)))
    end.
Proof.
  split; [discriminate|]. split; [discriminate|].
  exact (sparkle_in_block 773 353 374 374 demo_host
           ltac:(discriminate) ltac:(discriminate)).
Defined.

(** X6.  The bob offset never exceeds the amplitude: the block stays within
    [BOB_AMPLITUDE] pixels of its rest position at every time. *)
Theorem bob_bounded (t : R) :
  (- Q2R BOB_AMPLITUDE <= bob t <= Q2R BOB_AMPLITUDE)%R.
Proof.
  unfold bob.
  assert (Q2R BOB_AMPLITUDE = 8%R) as -> by (unfold BOB_AMPLITUDE, Q2R; simpl; lra).
  pose proof (SIN_bound (2 * PI * Q2R BOB_SPEED * t)) as [L U].
  lra.
Qed.

(** ** The poll *)

(** X7.  A poll that starts in state RUNNING ends in state EXITING exactly
    when one of its events is a window close, a key press, a mouse button
    press, or a mouse motion at a position other than the recorded one. *)
Theorem poll_exits_iff (start : Z * Z) (evs : list Event) :
  process_events start true evs = false <->
  exists ev, In ev evs /\
    (ev = QUIT \/ ev = KEYDOWN \/ ev = MOUSEBUTTONDOWN \/
     exists p, ev = MOUSEMOTION p /\ p <> start).
Proof.
  rewrite process_events_triggers. simpl. rewrite negb_false_iff, existsb_exists.
  split; intros (ev & I & T); exists ev; (split; [exact I|]).
  - destruct ev as [| | |p|]; simpl in T; try discriminate; auto.
    right. right. right. exists p. split; [reflexivity|].
    intro E. apply pos_eqb_eq in E. rewrite E in T. discriminate.
  - destruct T as [->|[->|[->|(p & -> & N)]]]; try reflexivity.
    simpl. destruct (pos_eqb p start) eqn:E; [|reflexivity].
    apply pos_eqb_eq in E. contradiction.
Qed.

Lemma existsb_Permutation {A} (f : A -> bool) l l' :
  Permutation l l' -> existsb f l = existsb f l'.
Proof.
  induction 1 as [|a l l' _ IH|a b l|l1 l2 l3 _ IH1 _ IH2]; simpl.
  - reflexivity.
  - rewrite IH. reflexivity.
  - destruct (f a), (f b); reflexivity.
  - congruence.
Qed.

(** X8.  The outcome of a poll does not depend on the order in which
    [pygame.event.get()] delivers the events. *)
Theorem poll_order_irrelevant
    (start : Z * Z) (run : bool) (evs evs' : list Event) :
  Permutation evs evs' ->
  process_events start run evs = process_events start run evs'.
Proof.
  intro P. rewrite !process_events_triggers.
  rewrite (existsb_Permutation _ _ _ P). reflexivity.
Qed.

Lemma poll_order_irrelevant_witness :
  Permutation [OTHER_EVENT; KEYDOWN; MOUSEMOTION (100, 100)%Z]
              [KEYDOWN; OTHER_EVENT; MOUSEMOTION (100, 100)%Z] /\
  process_events (100, 100)%Z true
                 [OTHER_EVENT; KEYDOWN; MOUSEMOTION (100, 100)%Z] =
  process_events (100, 100)%Z true
                 [KEYDOWN; OTHER_EVENT; MOUSEMOTION (100, 100)%Z].
Proof.
  assert (Permutation [OTHER_EVENT; KEYDOWN; MOUSEMOTION (100, 100)%Z]
                      [KEYDOWN; OTHER_EVENT; MOUSEMOTION (100, 100)%Z]) as P
      by apply perm_swap.
  split; [exact P|].
  exact (poll_order_irrelevant (100, 100)%Z true _ _ P).
Defined.

(** ** The renderer's particle pass *)

Lemma alpha_of64_range b : (0 <= B64.alpha_of b <= 255)%Z.
Proof. unfold B64.alpha_of. lia. Qed.

(** X9.  After a frame that ran to its end, the rectangles presented are
    the particles of the active list, one per particle and in the list's
    order, each at its particle's position, with its size and colour, and
    with the alpha line 186 computes in binary64, between 0 and 255. *)
Theorem frame_presents_drawn_particles
    (su : Setup) (inp : FrameInput) (w w' : World) (h h' : Host) :
  B64.frame su inp w h = (Ok w', h') ->
  presented h' = map B64.sprite_of (falling w') /\
  Forall (fun s => (0 <= sprite_alpha s <= 255)%Z) (presented h').
Proof.
  unfold B64.frame. intro E.
  apply bind_Ok in E. destruct E as (w1 & h1 & _ & E).
  apply bind_Ok in E. destruct E as (u & h2 & Rd & E).
  inversion E; subst. clear E.
  unfold B64.render in Rd. apply bind_Ok in Rd.
  destruct Rd as (sprites & h3 & D & Rd).
  apply draw_particles64_Ok in D. destruct D as [-> ->].
  apply bind_Ok in Rd. destruct Rd as (u' & h4 & Sk & Fl).
  apply sparkle_draws_presented in Sk.
  unfold display_flip in Fl. destruct (fault inp); [discriminate|].
  inversion Fl; subst. simpl. split; [reflexivity|].
  apply Forall_forall. intros s I. apply in_map_iff in I.
  destruct I as (b & <- & _). apply alpha_of64_range.
Qed.

Lemma frame_presents_drawn_particles_witness :
  let r := B64.frame demo64_setup demo_tick demo64_world demo64_host1 in
  let w' := outcome_value (B64.initial_world []) r in
  B64.frame demo64_setup demo_tick demo64_world demo64_host1 = (Ok w', snd r) /\
  presented (snd r) = map B64.sprite_of (falling w') /\
  Forall (fun s => (0 <= sprite_alpha s <= 255)%Z) (presented (snd r)).
Proof.
  cbv zeta.
  assert (B64.frame demo64_setup demo_tick demo64_world demo64_host1 =
          (Ok (outcome_value (B64.initial_world [])
                 (B64.frame demo64_setup demo_tick demo64_world demo64_host1)),
           snd (B64.frame demo64_setup demo_tick demo64_world demo64_host1)))
    as F by (vm_compute; reflexivity).
  split; [exact F|].
  exact (frame_presents_drawn_particles demo64_setup demo_tick demo64_world _
           demo64_host1 _ F).
Defined.



(** ** The script entry *)

Lemma main_outcome frames h su w h1 :
  startup h = (Ok (su, w), h1) ->
  fst (main frames h) = Pending \/ fst (main frames h) = Raise SystemExit.
Proof.
  intro St. unfold main, bind. rewrite St. simpl.
  rewrite guarded_loop_run.
  destruct (main_loop su frames w h1) as [[w1|e|] h2]; simpl; auto.
Qed.

(** X11.  Once [startup] has returned, the script never reports a crash:
    whatever a frame raises, the [sys.exit()] of the [finally] block
    replaces it by [SystemExit], which the [except Exception] of the entry
    does not catch.  A run ends with [SystemExit] or is still in the loop. *)
Theorem script_never_reports_loop_fault
    (frames : list FrameInput) (h h1 : Host) (su : Setup) (w : World) :
  startup h = (Ok (su, w), h1) ->
  snd (script frames h) = [] /\
  (fst (fst (script frames h)) = Pending \/
   fst (fst (script frames h)) = Raise SystemExit).
Proof.
  intro St. unfold script.
  destruct (main_outcome frames h su w h1 St) as [E|E];
    destruct (main frames h) as [[w1|e|] h2]; simpl in E;
    try discriminate; inversion E; subst; simpl; auto.
Qed.

Lemma script_never_reports_loop_fault_witness :
  let frames := [demo_tick; mkFrameInput 16 [] (Some ZeroDivisionError)] in
  startup demo_host = (Ok (demo_setup, demo_world0), demo_host0) /\
  snd (script frames demo_host) = [] /\
  (fst (fst (script frames demo_host)) = Pending \/
   fst (fst (script frames demo_host)) = Raise SystemExit).
Proof.
  cbv zeta. split; [exact demo_boot_eq|].
  exact (script_never_reports_loop_fault _ demo_host demo_host0
           demo_setup demo_world0 demo_boot_eq).
Defined.

(** There the second frame raises, and the script ends with [SystemExit]. *)
Example script_fault_demo :
  script [demo_tick; mkFrameInput 16 [] (Some ZeroDivisionError)] demo_host =
  (Raise SystemExit,
   snd (main [demo_tick; mkFrameInput 16 [] (Some ZeroDivisionError)] demo_host),
   []).
Proof. vm_compute. reflexivity. Qed.

(** ** Clouds *)













(** ** Particles *)







(** ** Where particles start, in binary64 *)

(** The integers of this program's sizes are doubles. *)
Lemma of_int_small z : (Z.abs z <= 2 ^ 20)%Z -> B64.of_int z == inject_Z z.
Proof.
  intro B. unfold B64.of_int.
  destruct (Z.eq_dec z 0) as [->|N]; [reflexivity|].
  assert (~ inject_Z z == 0) as Nq.
  { unfold Qeq. simpl. lia. }
  rewrite (round64_grid _ Nq).
  assert (Qabs (inject_Z z) < pow2 21) as A.
  { apply Qabs_Qlt_condition.
    assert (pow2 21 == inject_Z (2 ^ 21)) as -> by (vm_compute; reflexivity).
    rewrite <- inject_Z_opp, <- !Zlt_Qlt. lia. }
  assert (-1022 <= 20)%Z as M0 by lia.
  pose proof (eff_exp_below _ 20 Nq M0 A) as E.
  pose proof (eff_exp_min (inject_Z z)) as M.
  assert (inject_Z z == inject_Z z * pow2 0) as E0
      by (change (pow2 0) with 1; ring).
  rewrite (to_grid_comp _ _ _ E0).
  rewrite to_grid_multiple by lia.
  symmetry. exact E0.
Qed.

Lemma compute_pixel_size_max sw : (compute_pixel_size sw <= 40)%Z.
Proof.
  unfold compute_pixel_size.
  change (Z.of_nat (length (hd [] generate_grass_block_map))) with 11%Z.
  assert (Z.min (sw / 5) 450 / 11 < 41)%Z
      by (apply Z.div_lt_upper_bound; lia).
  lia.
Qed.

Lemma reachable64_setup su w :
  B64.reachable su w -> pixel_size su = compute_pixel_size (screen_w su).
Proof.
  induction 1 as [h w h' E | w inp h w' h' _ IH _ _]; [|exact IH].
  apply startup64_world_ok in E. apply E.
Qed.

(** X15.  A particle is spawned with its lower edge at or above the top
    of the screen and at most a tenth of the screen height higher, as far
    as binary64 tells: its [y] is at least [spawn_top], the double line 158
    computes for the largest offset, and [y + size <= 0].  No update makes
    a particle rise, so every particle of the active list is at or below
    [spawn_top] for its size. *)
Theorem particles_start_above_the_screen
    (su : Setup) (inp : FrameInput) (w w' : World) (h h' : Host) :
  B64.reachable su w ->
  (0 <= screen_h su)%Z ->
  B64.advance su inp w h = (Ok w', h') ->
  exists born,
    (length born <= 1)%nat /\
    falling w' =
      B64.update_falling (B64.frame_dt inp) (screen_h su) (falling w ++ born) /\
    (forall b, In b born ->
       B64.spawn_top su (size b) <= y b /\ y b + inject_Z (size b) <= 0) /\
    (forall b, In b (falling w ++ born) ->
       y b <= y (B64.fall (B64.frame_dt inp) b)) /\
    (forall b', In b' (falling w') -> B64.spawn_top su (size b') <= y b').
Proof.
  intros R Ph A.
  pose proof (reachable64_world_ok su w R) as W.
  pose proof (advance64_world_ok su inp w h w' h' W A) as (Hf' & _).
  destruct W as (Hf & _).
  pose proof (reachable64_setup su w R) as Px.
  pose proof (compute_pixel_size_min (screen_w su)) as P2.
  pose proof (compute_pixel_size_max (screen_w su)) as P40.
  rewrite <- Px in P2, P40.
  apply advance64_inv in A. destruct A as (born & Sp & _ & F & _).
  destruct (spawn_outcome64_born _ _ _ _ _ _ _ Sp) as [Hb Len].
  rewrite Forall_forall in Hf, Hf', Hb.
  exists born. split; [exact Len|]. split; [exact F|]. split; [|split].
  - intros b I.
    destruct (Hb b I) as (_ & _ & _ & _ & _ & _ & Sz & Y).
    destruct (Y Ph) as [Y1 Y2]. split; [exact Y1|].
    assert (B64.of_int (- size b) == inject_Z (- size b)) as E
        by (apply of_int_small; destruct Sz as [-> | ->]; lia).
    rewrite inject_Z_opp in E. lra.
  - intros b I.
    assert (B64.active_ok su b \/ B64.newborn_ok su b) as Ok
        by (apply in_app_or in I; destruct I as [I|I]; auto).
    destruct (particle64_common su b Ok) as (_ & _ & _ & _ & _ & Dy & V & _).
    apply fall64_y_le; [apply frame_dt64_nonneg | exact Dy | lra].
  - intros b' I. destruct (Hf' b' I) as (_ & _ & _ & _ & _ & _ & _ & T).
    exact (T Ph).
Qed.

Lemma particles_start_above_the_screen_witness :
  let inp := mkFrameInput 80 [] None in
  let r := B64.advance demo64_setup inp demo64_world demo64_host1 in
  let w' := outcome_value (B64.initial_world []) r in
  B64.reachable demo64_setup demo64_world /\
  (0 <= screen_h demo64_setup)%Z /\
  B64.advance demo64_setup inp demo64_world demo64_host1 = (Ok w', snd r) /\
  exists born,
    (length born <= 1)%nat /\
    falling w' =
      B64.update_falling (B64.frame_dt inp) (screen_h demo64_setup)
                         (falling demo64_world ++ born) /\
    (forall b, In b born ->
       B64.spawn_top demo64_setup (size b) <= y b /\
       y b + inject_Z (size b) <= 0) /\
    (forall b, In b (falling demo64_world ++ born) ->
       y b <= y (B64.fall (B64.frame_dt inp) b)) /\
    (forall b', In b' (falling w') ->
       B64.spawn_top demo64_setup (size b') <= y b').
Proof.
  cbv zeta.
  assert (0 <= screen_h demo64_setup)%Z as Ph by (vm_compute; discriminate).
  assert (B64.advance demo64_setup (mkFrameInput 80 [] None)
                      demo64_world demo64_host1 =
          (Ok (outcome_value (B64.initial_world [])
                 (B64.advance demo64_setup (mkFrameInput 80 [] None)
                              demo64_world demo64_host1)),
           snd (B64.advance demo64_setup (mkFrameInput 80 [] None)
                            demo64_world demo64_host1))) as A
      by (vm_compute; reflexivity).
  split; [exact demo64_reachable|]. split; [exact Ph|]. split; [exact A|].
  exact (particles_start_above_the_screen
           demo64_setup _ demo64_world _ demo64_host1 _
           demo64_reachable Ph A).
Defined.

(** ** Startup on a broken display, and the script's crash report *)

(** X16.  On a display that reports a negative width or height, [main]
    fails in [set_mode] (line 92) with a pygame error, before the cursor is
    hidden and before any random draw; it never enters the loop, so the
    [finally] block does not run, and the script closes the display,
    reports that one exception and raises it again.  The cursor flags are
    left as they were at launch. *)
Theorem script_reports_startup_failure (frames : list FrameInput) (h : Host) :
  (fst (display_size h) < 0)%Z \/ (snd (display_size h) < 0)%Z ->
  script frames h = (Raise PygameError, set_display_open false h, [PygameError]) /\
  cursor_visible (snd (fst (script frames h))) = cursor_visible h /\
  input_grab (snd (fst (script frames h))) = input_grab h /\
  drawn (snd (fst (script frames h))) = drawn h.
Proof.
  intro N.
  assert (script frames h =
          (Raise PygameError, set_display_open false h, [PygameError])) as E.
  { unfold script, main, bind. rewrite (startup_refused h N). reflexivity. }
  rewrite E. simpl. auto.
Qed.

Lemma script_reports_startup_failure_witness :
  let h := mkHost (800, -1)%Z (0, 0)%Z true true false true []
                  (fun _ => 0%N) (fun _ => 0%N) (fun _ => 0) 0 in
  ((fst (display_size h) < 0)%Z \/ (snd (display_size h) < 0)%Z) /\
  script [demo_tick] h =
    (Raise PygameError, set_display_open false h, [PygameError]) /\
  cursor_visible (snd (fst (script [demo_tick] h))) = cursor_visible h /\
  input_grab (snd (fst (script [demo_tick] h))) = input_grab h /\
  drawn (snd (fst (script [demo_tick] h))) = drawn h.
Proof.
  cbv zeta. split; [right; reflexivity|].
  exact (script_reports_startup_failure [demo_tick]
           (mkHost (800, -1)%Z (0, 0)%Z true true false true []
                   (fun _ => 0%N) (fun _ => 0%N) (fun _ => 0) 0)
           (or_intror eq_refl)).
Defined.

(** X17.  On a platform that cannot grab the input, the failure of
    [set_grab(True)] is swallowed: on a display whose width and height are
    both non-negative (so that [set_mode] accepts it) [startup] still
    returns, with the cursor hidden and the input not grabbed. *)
Theorem startup_without_grab (h : Host) :
  grab_supported h = false -> input_grab h = false ->
  (0 <= fst (display_size h))%Z ->
  (0 <= snd (display_size h))%Z ->
  exists su w h',
    startup h = (Ok (su, w), h') /\
    cursor_visible h' = false /\ input_grab h' = false.
Proof.
  intros G I D D'.
  destruct (startup_returns h D D') as (su & w & h' & St & _).
  exists su, w, h'. split; [exact St|].
  destruct (startup_cursor h _ _ St) as (_ & V & Gr).
  rewrite G, I in Gr. auto.
Qed.

Lemma startup_without_grab_witness :
  let h := mkHost (800, 600)%Z (5, 5)%Z false true false true []
                  (fun _ => 0%N) (fun _ => 0%N) (fun _ => 0) 0 in
  grab_supported h = false /\ input_grab h = false /\
  (0 <= fst (display_size h))%Z /\
  (0 <= snd (display_size h))%Z /\
  exists su w h',
    startup h = (Ok (su, w), h') /\
    cursor_visible h' = false /\ input_grab h' = false.
Proof.
  cbv zeta. split; [reflexivity|]. split; [reflexivity|].
  split; [discriminate|]. split; [discriminate|].
  exact (startup_without_grab
           (mkHost (800, 600)%Z (5, 5)%Z false true false true []
                   (fun _ => 0%N) (fun _ => 0%N) (fun _ => 0) 0)
           eq_refl eq_refl ltac:(discriminate) ltac:(discriminate)).
Defined.

Lemma main_exits_on_trigger_witness :
  let frames := [demo_tick; mkFrameInput 16 [MOUSEBUTTONDOWN] None; demo_tick] in
  input_grab demo_host = false /\
  (0 <= fst (display_size demo_host))%Z /\
  (0 <= snd (display_size demo_host))%Z /\
  existsb (fun inp =>
             existsb (is_exit_trigger (mouse_pos demo_host)) (events inp))
          frames = true /\
  exists h', main frames demo_host = (Raise SystemExit, h') /\
             cursor_visible h' = true /\ input_grab h' = false.
Proof.
  cbv zeta. split; [reflexivity|]. split; [discriminate|].
  split; [discriminate|]. split; [reflexivity|].
  exact (main_exits_on_trigger
           [demo_tick; mkFrameInput 16 [MOUSEBUTTONDOWN] None; demo_tick]
           demo_host eq_refl ltac:(discriminate) ltac:(discriminate) eq_refl).
Defined.
